(** * djson: the DynamicJSON document model (dynamicjson.go, strings.go)

    A shallow embedding of the hybrid ordered-map / array container of
    [dynamicjson.go].  Go's [*DynamicJSON] pointers are locations of an
    explicit store, so that aliasing, in-place mutation, nil receivers and
    run-time panics (nil dereference, index out of range) are all visible. *)

From Stdlib Require Import ZArith String Ascii List Lia Bool DecimalString.
From Stdlib Require DecimalPos DecimalFacts.
From stdpp Require Import base option list strings gmap.

Local Open Scope string_scope.
Local Open Scope list_scope.
Local Open Scope Z_scope.

(** ** Values

    [interface{}] restricted to the dynamic types the package itself tests
    for: untyped nil, bool, int, int64, float64, json.Number, string,
    time.Time, the tombstone sentinel [gDeletedEntry] and [*DynamicJSON]
    (possibly a typed nil pointer). *)

Abbreviation loc := nat.

(** float64 is carried by its IEEE-754 bit pattern (math.Float64bits). *)
Record float64 := Float64frombits { Float64bits : Z }.

(** time.Time as an instant (seconds, nanoseconds) and a zone offset. *)
Record Time := mkTime { unixSec : Z; nsec : Z; zoneOffset : Z }.

Inductive value :=
| VNil
| VBool (b : bool)
| VInt (n : Z)
| VInt64 (n : Z)
| VFloat (f : float64)
| VNumber (s : string)
| VString (s : string)
| VTime (t : Time)
| VDeleted
| VDJ (p : option loc).

(** [self.values[i] == gDeletedEntry] *)
Definition isDeleted (v : value) : bool :=
  match v with VDeleted => true | _ => false end.

(** type DynamicJSON struct: [keys] is nil for an array; map indices are
    uint32. *)
Record DynamicJSON := mkDJ {
  keys : option (gmap string N);
  ordKeys : list string;
  iterCounter : Z;
  values : list value
}.

Abbreviation heap := (list DynamicJSON).

Inductive error :=
| FrozenError
| InvalidOperation.

(** ** Outcomes and the store monad *)

Inductive outcome (A : Type) :=
| Ok (a : A)
| Panic
| OutOfFuel.
Arguments Ok {A} a.
Arguments Panic {A}.
Arguments OutOfFuel {A}.

Definition M (A : Type) := heap -> outcome (A * heap).

Definition ret {A} (a : A) : M A := fun h => Ok (a, h).

Definition bind {A B} (m : M A) (f : A -> M B) : M B :=
  fun h => match m h with
           | Ok (a, h') => f a h'
           | Panic => Panic
           | OutOfFuel => OutOfFuel
           end.

Notation "'let*' x ':=' m 'in' k" := (bind m (fun x => k))
  (at level 10, x pattern, m at level 100, k at level 200).
Notation "'do*' m 'in' k" := (bind m (fun _ => k))
  (at level 10, m at level 100, k at level 200).

Definition panic {A} : M A := fun _ => Panic.
Definition outOfFuel {A} : M A := fun _ => OutOfFuel.

(** Dereferencing [self]: a nil (or dangling) pointer faults. *)
Definition deref (self : option loc) : M DynamicJSON :=
  fun h => match self with
           | Some l => match h !! l with
                       | Some d => Ok (d, h)
                       | None => Panic
                       end
           | None => Panic
           end.

Definition store (l : loc) (d : DynamicJSON) : M unit :=
  fun h => Ok (tt, <[l := d]> h).

Definition alloc (d : DynamicJSON) : M (option loc) :=
  fun h => Ok (Some (List.length h), h ++ [d]).

(** Indexing a slice: out of range faults. *)
Definition index {A} (l : list A) (i : nat) : M A :=
  fun h => match l !! i with
           | Some a => Ok (a, h)
           | None => Panic
           end.

Definition uint32 (n : N) : N := (n mod 4294967296)%N.

Definition len {A} (l : list A) : Z := Z.of_nat (List.length l).

(** ** Constructors *)

Definition emptyMap : DynamicJSON :=
  {| keys := Some ∅; ordKeys := []; iterCounter := 0; values := [] |}.

Definition emptyArray : DynamicJSON :=
  {| keys := None; ordKeys := []; iterCounter := 0; values := [] |}.

Definition NewMap : M (option loc) := alloc emptyMap.
Definition NewArray : M (option loc) := alloc emptyArray.

(** ** Strings as byte sequences *)

Definition byte_of (c : ascii) : Z := Z.of_N (N_of_ascii c).

(** strings.IndexByte *)
Fixpoint IndexByte (s : string) (c : ascii) : Z :=
  match s with
  | EmptyString => -1
  | String a s' =>
      if Ascii.eqb a c then 0
      else let r := IndexByte s' c in if r <? 0 then -1 else r + 1
  end.

(** [s[:i]] and [s[i:]] *)
Fixpoint str_take (n : nat) (s : string) : string :=
  match n, s with
  | S n', String a s' => String a (str_take n' s')
  | _, _ => EmptyString
  end.

Fixpoint str_drop (n : nat) (s : string) : string :=
  match n, s with
  | S n', String _ s' => str_drop n' s'
  | _, _ => s
  end.

(** func key2Index: the byte subtraction wraps modulo 256. *)
Fixpoint key2Index_loop (s : string) (n : Z) : Z :=
  match s with
  | EmptyString => n
  | String c s' =>
      let ch := (byte_of c - 48) mod 256 in
      if ch >? 9 then -1 else key2Index_loop s' (n * 10 + ch)
  end.

Definition key2Index (s : string) : Z :=
  let sLen := Z.of_nat (String.length s) in
  if (0 <? sLen) && (sLen <? 10) then key2Index_loop s 0 else -1.

(** ** Receivers *)

Definition IsArray_of (d : DynamicJSON) : bool :=
  match keys d with None => true | Some _ => false end.

(** func (self *DynamicJSON) IsArray *)
Definition IsArray (self : option loc) : M bool :=
  match self with
  | None => ret false
  | Some _ => let* d := deref self in ret (IsArray_of d)
  end.

(** func (self *DynamicJSON) IsFrozen *)
Definition IsFrozen (self : option loc) : M bool :=
  let* d := deref self in ret (iterCounter d <? 0).

Definition update (self : option loc) (d : DynamicJSON) : M unit :=
  match self with
  | Some l => store l d
  | None => panic
  end.

Definition with_values (d : DynamicJSON) (vs : list value) : DynamicJSON :=
  {| keys := keys d; ordKeys := ordKeys d; iterCounter := iterCounter d;
     values := vs |}.

Definition with_counter (d : DynamicJSON) (c : Z) : DynamicJSON :=
  {| keys := keys d; ordKeys := ordKeys d; iterCounter := c;
     values := values d |}.

(** [append(vs, make([]interface{}, i-len(vs)+1)...)] when [i >= len(vs)] *)
Definition extend (vs : list value) (i : Z) : list value :=
  if i >=? len vs then vs ++ replicate (Z.to_nat (i - len vs + 1)) VNil
  else vs.

(** fmt.Sprint of an int *)
Definition Sprint (i : Z) : string := NilZero.string_of_int (Z.to_int i).

(** ** Mutators of one level *)

(** func (self *DynamicJSON) set *)
Definition set (self : option loc) (key : string) (v : value)
  : M (option error) :=
  let* d := deref self in
  if iterCounter d <? 0 then ret (Some FrozenError)
  else match keys d with
       | None =>
           let i := key2Index key in
           if i <? 0 then ret (Some InvalidOperation)
           else
             do* update self
                   (with_values d (<[Z.to_nat i := v]> (extend (values d) i)))
             in ret None
       | Some ks =>
           match ks !! key with
           | Some inx =>
               let* _ := index (values d) (N.to_nat inx) in
               let* _ := index (ordKeys d) (N.to_nat inx) in
               do* update self
                     {| keys := Some ks;
                        ordKeys := <[N.to_nat inx := key]> (ordKeys d);
                        iterCounter := iterCounter d;
                        values := <[N.to_nat inx := v]> (values d) |}
               in ret None
           | None =>
               let inx := uint32 (N.of_nat (List.length (values d))) in
               do* update self
                     {| keys := Some (<[key := inx]> ks);
                        ordKeys := ordKeys d ++ [key];
                        iterCounter := iterCounter d;
                        values := values d ++ [v] |}
               in ret None
           end
       end.

(** func (self *DynamicJSON) SetI *)
Definition SetI (self : option loc) (i : Z) (v : value) : M (option error) :=
  let* d := deref self in
  if iterCounter d <? 0 then ret (Some FrozenError)
  else if IsArray_of d then
    if i <? 0 then ret (Some InvalidOperation)
    else
      do* update self
            (with_values d (<[Z.to_nat i := v]> (extend (values d) i)))
      in ret None
  else set self (Sprint i) v.

(** func (self *DynamicJSON) get *)
Definition get (self : option loc) (key : string) : M (value * bool) :=
  match self with
  | None => ret (VNil, false)
  | Some _ =>
      let* d := deref self in
      match keys d with
      | None =>
          let i := key2Index key in
          if i <? 0 then ret (VNil, false)
          else if i <? len (values d) then
            let* v := index (values d) (Z.to_nat i) in ret (v, true)
          else ret (VNil, false)
      | Some ks =>
          match ks !! key with
          | None => ret (VNil, false)
          | Some inx =>
              let* v := index (values d) (N.to_nat inx) in ret (v, true)
          end
      end
  end.

(** func (self *DynamicJSON) Append *)
Definition Append (self : option loc) (v : value) : M unit :=
  match self with
  | None => ret tt
  | Some _ =>
      let* d := deref self in
      if IsArray_of d then update self (with_values d (values d ++ [v]))
      else ret tt
  end.

(** func (self *DynamicJSON) Clear *)
Definition Clear (self : option loc) : M unit :=
  match self with
  | None => ret tt
  | Some _ =>
      let* d := deref self in
      if iterCounter d <? 0 then ret tt
      else update self
             {| keys := match keys d with
                        | Some _ => Some ∅
                        | None => None
                        end;
                ordKeys := [];
                iterCounter := iterCounter d;
                values := [] |}
  end.

(** ** Compaction *)

(** The copy loop of [packing]: [vs] are the slots from position [i] on,
    [nv], [nk] the freshly made slices, [j] the uint32 write cursor.  A
    write past the end of the new slices, or a read past the end of
    [ordKeys], faults ([None]). *)
Fixpoint packing_loop (vs : list value) (i : nat) (oks : list string)
    (nv : list value) (nk : list string) (ks : gmap string N) (j : N)
  : option (list value * list string * gmap string N) :=
  match vs with
  | [] => Some (nv, nk, ks)
  | v :: vs' =>
      if isDeleted v then packing_loop vs' (S i) oks nv nk ks j
      else
        match nv !! N.to_nat j, oks !! i, nk !! N.to_nat j with
        | Some _, Some k, Some _ =>
            packing_loop vs' (S i) oks
              (<[N.to_nat j := v]> nv) (<[N.to_nat j := k]> nk)
              (<[k := j]> ks) (uint32 (j + 1))
        | _, _, _ => None
        end
  end.

(** The guard of the rebuild: [len(values) >= 128 && len(keys)*3 < len(values)] *)
Definition packing_due (d : DynamicJSON) (ks : gmap string N) : bool :=
  (len (values d) >=? 128) && (Z.of_nat (size ks) * 3 <? len (values d)).

(** func (self *DynamicJSON) packing *)
Definition packing (self : option loc) : M unit :=
  match self with
  | None => ret tt
  | Some _ =>
      let* d := deref self in
      if negb (iterCounter d =? 0) then ret tt
      else match keys d with
           | None => ret tt
           | Some ks =>
               if packing_due d ks then
                 match packing_loop (values d) 0 (ordKeys d)
                         (replicate (size ks) VNil) (replicate (size ks) "")
                         ks 0%N with
                 | Some (nv, nk, ks') =>
                     update self
                       {| keys := Some ks'; ordKeys := nk;
                          iterCounter := iterCounter d; values := nv |}
                 | None => panic
                 end
               else ret tt
           end
  end.

(** ** Path resolution *)

(** func createLevelFromNextPath *)
Definition createLevelFromNextPath (path : string) : M (option loc) :=
  let i := IndexByte path "/" in
  let name := if i >=? 0 then str_take (Z.to_nat i) path else path in
  if key2Index name >=? 0 then NewArray else NewMap.

(** The [for] loop of [doOp]; every turn shortens [path], so
    [S (length path)] turns are enough. *)
Fixpoint doOp_loop (fuel : nat) (level : option loc) (path : string)
    (autoCreate setValue : bool) (v : value) : M (value * bool) :=
  match fuel with
  | O => outOfFuel
  | S fuel' =>
      if String.eqb path "" then ret (VDJ level, true)
      else
        let i := IndexByte path "/" in
        if i =? 0 then
          doOp_loop fuel' level (str_drop 1 path) autoCreate setValue v
        else if i >? 0 then
          let name := str_take (Z.to_nat i) path in
          let path' := str_drop (Z.to_nat (i + 1)) path in
          let* nx := get level name in
          match nx with
          | (VDJ nextMap, true) =>
              doOp_loop fuel' nextMap path' autoCreate setValue v
          | _ =>
              if autoCreate then
                let* nextMap := createLevelFromNextPath path' in
                let* _ := set level name (VDJ nextMap) in
                doOp_loop fuel' nextMap path' autoCreate setValue v
              else ret (VNil, false)
          end
        else
          let* _ := (if setValue then set level path v else ret None) in
          let* r := get level path in
          match r with
          | (x, true) => ret (x, true)
          | (_, false) => ret (VNil, false)
          end
  end.

(** func (self *DynamicJSON) doOp *)
Definition doOp (self : option loc) (path : string)
    (autoCreate setValue : bool) (v : value) : M (value * bool) :=
  let* frozen := (if setValue then IsFrozen self else ret false) in
  if frozen then ret (VNil, false)
  else doOp_loop (S (String.length path)) self path autoCreate setValue v.

(** func convertToDJ, on the value universe above: nil stays nil, a
    [*DynamicJSON] is returned as it is, a pointer of another type (only
    the sentinel here) becomes nil, and every scalar falls through the
    reflection switch to [return v]. *)
Definition convertToDJ (v : value) : value :=
  match v with
  | VDeleted => VNil
  | _ => v
  end.

(** func (self *DynamicJSON) Set *)
Definition Set_ (self : option loc) (path : string) (v : value) : M unit :=
  let* _ := doOp self path true true (convertToDJ v) in ret tt.

(** func (self *DynamicJSON) Get *)
Definition Get (self : option loc) (path : string) : M value :=
  let* r := doOp self path false false VNil in
  match r with
  | (x, true) => ret x
  | (_, false) => ret VNil
  end.

(** func (self *DynamicJSON) Fetch *)
Definition Fetch (self : option loc) (path : string) : M (value * bool) :=
  let* r := doOp self path false false VNil in
  match r with
  | (x, true) => ret (x, true)
  | (_, false) => ret (VNil, false)
  end.

(** func (self *DynamicJSON) Nested *)
Definition Nested (self : option loc) (path : string) : M (option loc) :=
  match self with
  | None => ret None
  | Some _ =>
      let* r := doOp self path false false VNil in
      match r with
      | (VDJ p, true) => ret p
      | _ => ret None
      end
  end.

(** ** Deletion, membership, size *)

(** func (self *DynamicJSON) Delete; the recursion follows the path. *)
Fixpoint Delete_loop (fuel : nat) (self : option loc) (path : string)
  : M (option error) :=
  match fuel with
  | O => outOfFuel
  | S fuel' =>
      match self with
      | None => ret None
      | Some _ =>
          let* d := deref self in
          if iterCounter d <? 0 then ret (Some FrozenError)
          else
            let i := IndexByte path "/" in
            if i >=? 0 then
              let* child := Nested self (str_take (Z.to_nat i) path) in
              let* _ := Delete_loop fuel' child
                          (str_drop (Z.to_nat (i + 1)) path) in
              ret None
            else
              match keys d with
              | None =>
                  let i := key2Index path in
                  if i <? 0 then ret None
                  else if i <? len (values d) then
                    do* update self
                          (with_values d (delete (Z.to_nat i) (values d)))
                    in ret None
                  else ret None
              | Some ks =>
                  match ks !! path with
                  | None => ret None
                  | Some inx =>
                      let* _ := index (values d) (N.to_nat inx) in
                      do* update self
                            {| keys := Some (delete path ks);
                               ordKeys := ordKeys d;
                               iterCounter := iterCounter d;
                               values := <[N.to_nat inx := VDeleted]> (values d) |}
                      in do* packing self in ret None
                  end
              end
      end
  end.

Definition Delete (self : option loc) (path : string) : M (option error) :=
  Delete_loop (S (String.length path)) self path.

(** func (self *DynamicJSON) Has *)
Fixpoint Has_loop (fuel : nat) (self : option loc) (path : string) : M bool :=
  match fuel with
  | O => outOfFuel
  | S fuel' =>
      match self with
      | None => ret false
      | Some _ =>
          let i := IndexByte path "/" in
          if i >=? 0 then
            let* child := Nested self (str_take (Z.to_nat i) path) in
            Has_loop fuel' child (str_drop (Z.to_nat (i + 1)) path)
          else
            let* d := deref self in
            match keys d with
            | None =>
                let i := key2Index path in
                if i <? 0 then ret false
                else if i <? len (values d) then ret true
                else ret false
            | Some ks =>
                ret (match ks !! path with Some _ => true | None => false end)
            end
      end
  end.

Definition Has (self : option loc) (path : string) : M bool :=
  Has_loop (S (String.length path)) self path.

(** func (self *DynamicJSON) Len *)
Definition Len (self : option loc) : M Z :=
  match self with
  | None => ret 0
  | Some _ =>
      let* d := deref self in
      match keys d with
      | None => ret (len (values d))
      | Some ks => ret (Z.of_nat (size ks))
      end
  end.

(** The loop of [Keys] on a map: [ordKeys[i]] for every slot that is not a
    tombstone. *)
Fixpoint Keys_loop (vs : list value) (i : nat) (oks : list string)
  : option (list string) :=
  match vs with
  | [] => Some []
  | v :: vs' =>
      if isDeleted v then Keys_loop vs' (S i) oks
      else match oks !! i, Keys_loop vs' (S i) oks with
           | Some k, Some r => Some (k :: r)
           | _, _ => None
           end
  end.

(** func (self *DynamicJSON) Keys; a nil slice is the empty list. *)
Definition Keys (self : option loc) : M (list string) :=
  match self with
  | None => ret []
  | Some _ =>
      let* d := deref self in
      match keys d with
      | None => ret (map (fun i => Sprint (Z.of_nat i)) (seq 0 (List.length (values d))))
      | Some _ =>
          match Keys_loop (values d) 0 (ordKeys d) with
          | Some r => ret r
          | None => panic
          end
      end
  end.

(** ** Iteration

    A Go closure is a callback together with the variables it captured:
    here a function of the callback's arguments and an accumulator [S].  The
    callback of [Iterate] runs in the store monad (it may call back into
    the container); the loops re-read [self.values] on every turn, as the
    source does, so they take fuel. *)

Section Iteration.
Context {Acc : Type}.
Variable cb : string -> value -> Acc -> M (bool * Acc).

Fixpoint Iterate_array (fuel : nat) (self : option loc) (i : nat) (acc : Acc)
  : M Acc :=
  match fuel with
  | O => outOfFuel
  | S fuel' =>
      let* d := deref self in
      match values d !! i with
      | None => ret acc
      | Some v =>
          let* r := cb "" v acc in
          if fst r then Iterate_array fuel' self (S i) (snd r)
          else ret (snd r)
      end
  end.

Fixpoint Iterate_map (fuel : nat) (self : option loc) (i : nat) (acc : Acc)
  : M Acc :=
  match fuel with
  | O => outOfFuel
  | S fuel' =>
      let* d := deref self in
      match values d !! i with
      | None => ret acc
      | Some v =>
          if isDeleted v then Iterate_map fuel' self (S i) acc
          else
            let* k := index (ordKeys d) i in
            let* r := cb k v acc in
            if fst r then Iterate_map fuel' self (S i) (snd r)
            else ret (snd r)
      end
  end.

(** func (self *DynamicJSON) Iterate.  The deferred decrement runs after
    the call to [packing]. *)
Definition Iterate (fuel : nat) (self : option loc) (acc : Acc) : M Acc :=
  match self with
  | None => ret acc
  | Some _ =>
      let* d := deref self in
      if IsArray_of d then Iterate_array fuel self 0 acc
      else
        let counted := iterCounter d >=? 0 in
        do* (if counted then update self (with_counter d (iterCounter d + 1))
             else ret tt) in
        let* acc' := Iterate_map fuel self 0 acc in
        do* packing self in
        do* (if counted then
               let* d' := deref self in
               update self (with_counter d' (iterCounter d' - 1))
             else ret tt) in
        ret acc'
  end.
End Iteration.

Section Visiting.
Context {Acc : Type}.
Variable cb : string -> value -> Acc -> Acc.

(** func (self *DynamicJSON) visit: parents before children, tombstones
    skipped; the callback must not change the tree, so it only folds
    into the accumulator. *)
Fixpoint visit (fuel : nat) (self : option loc) (path : string) (acc : Acc)
  : M Acc :=
  match fuel with
  | O => outOfFuel
  | S fuel' =>
      match self with
      | None => ret acc
      | Some _ =>
          let* d := deref self in
          let prefix := if String.eqb path "" then path else path +:+ "/" in
          (fix each (vs : list value) (i : nat) (acc : Acc) : M Acc :=
             match vs with
             | [] => ret acc
             | v :: vs' =>
                 if negb (IsArray_of d) && isDeleted v then each vs' (S i) acc
                 else
                   let* p := (if IsArray_of d
                              then ret (prefix +:+ Sprint (Z.of_nat i))
                              else let* key := index (ordKeys d) i in
                                   ret (prefix +:+ key)) in
                   let* acc' := match v with
                                | VDJ c => visit fuel' c p (cb p v acc)
                                | _ => ret (cb p v acc)
                                end in
                   each vs' (S i) acc'
             end) (values d) 0%nat acc
      end
  end.

(** func (self *DynamicJSON) Visit *)
Definition Visit (fuel : nat) (self : option loc) (acc : Acc) : M Acc :=
  visit fuel self "" acc.
End Visiting.

(** ** Freeze and Clone *)

(** A [for] loop over a slice that is read once. *)
Fixpoint forEach {A} (f : A -> M unit) (l : list A) : M unit :=
  match l with
  | [] => ret tt
  | a :: l' => do* f a in forEach f l'
  end.

(** [for i, v := range vs] *)
Definition indexed {A} (l : list A) : list (nat * A) :=
  imap (fun i a => (i, a)) l.

(** func (self *DynamicJSON) Freeze.  Freezing a child writes only that
    child's counter, so the loops run over [self.values] as read on entry. *)
Fixpoint Freeze (fuel : nat) (self : option loc) : M unit :=
  match fuel with
  | O => outOfFuel
  | S fuel' =>
      match self with
      | None => ret tt
      | Some _ =>
          let* d := deref self in
          if iterCounter d <? 0 then ret tt
          else
            do* forEach
                  (fun v =>
                     if negb (IsArray_of d) && isDeleted v then ret tt
                     else match v with
                          | VDJ c => Freeze fuel' c
                          | _ => ret tt
                          end)
                  (values d) in
            let* d' := deref self in
            update self (with_counter d' (-1000))
      end
  end.

(** func (self *DynamicJSON) Clone, with [cloneValue] inlined in both
    loops: a [*DynamicJSON] is cloned, any other value is copied. *)
Fixpoint Clone (fuel : nat) (self : option loc) : M (option loc) :=
  match fuel with
  | O => outOfFuel
  | S fuel' =>
      let cloneValue (v : value) : M value :=
        match v with
        | VDJ c => let* c' := Clone fuel' c in ret (VDJ c')
        | _ => ret v
        end in
      match self with
      | None => ret None
      | Some _ =>
          let* d := deref self in
          if IsArray_of d then
            let* x := NewArray in
            do* forEach
                  (fun v =>
                     let* c := cloneValue v in
                     let* dx := deref x in
                     update x (with_values dx (values dx ++ [c])))
                  (values d) in
            ret x
          else
            let* x := NewMap in
            do* forEach
                  (fun iv =>
                     if isDeleted (snd iv) then ret tt
                     else
                       let* k := index (ordKeys d) (fst iv) in
                       let* c := cloneValue (snd iv) in
                       Set_ x k c)
                  (indexed (values d)) in
            ret x
      end
  end.

(** func cloneValue *)
Definition cloneValue (fuel : nat) (v : value) : M value :=
  match v with
  | VDJ c => let* c' := Clone fuel c in ret (VDJ c')
  | _ => ret v
  end.

(** ** Typed getters *)

(** Base-10 digits of strconv: [None] is a syntax error. *)
Fixpoint digits (s : string) (acc : Z) : option Z :=
  match s with
  | EmptyString => Some acc
  | String c s' =>
      let d := byte_of c - 48 in
      if (0 <=? d) && (d <=? 9) then digits s' (acc * 10 + d) else None
  end.

(** strconv.ParseInt(s, 10, 64) and strconv.Atoi on a 64-bit int, when
    [err == nil]: an optional sign, at least one digit, digits only, and
    the value in the int64 range. *)
Definition ParseInt (s : string) : option Z :=
  match s with
  | EmptyString => None
  | String c s' =>
      let neg := Ascii.eqb c "-" in
      let body := if neg || Ascii.eqb c "+" then s' else s in
      match body with
      | EmptyString => None
      | _ =>
          match digits body 0 with
          | Some n =>
              if neg then (if n <=? 9223372036854775808 then Some (- n) else None)
              else (if n <? 9223372036854775808 then Some n else None)
          | None => None
          end
      end
  end.

(** strings.TrimSuffix(s, ".0") *)
Definition TrimSuffix_dot0 (s : string) : string :=
  let n := String.length s in
  if String.eqb (str_drop (n - 2) s) ".0" then str_take (n - 2) s else s.

Section Getters.
(** The float64 and time routines of Go's library are taken as given:
    strconv.ParseFloat(s, 64) when it returns no error,
    [int(math.Round(f))], and [Time.Format(time.RFC3339Nano)]. *)
Variable ParseFloat : string -> option float64.
Variable roundToInt : float64 -> Z.
Variable formatRFC3339Nano : Time -> string.

(** func value2int *)
Definition value2int (v : value) (defaultValue : Z) : Z :=
  match v with
  | VNumber n =>
      match ParseInt (TrimSuffix_dot0 n) with
      | Some i => i
      | None => defaultValue
      end
  | VFloat f => roundToInt f
  | VInt i => i
  | VInt64 i => i
  | VString s =>
      match ParseInt s with
      | Some i => i
      | None => defaultValue
      end
  | _ => defaultValue
  end.

(** func (self *DynamicJSON) GetInt *)
Definition GetInt (self : option loc) (path : string) (defaultValue : Z)
  : M Z :=
  let* r := doOp self path false false VNil in
  match r with
  | (_, false) => ret defaultValue
  | (v, true) => ret (value2int v defaultValue)
  end.

(** func (self *DynamicJSON) GetFloat *)
Definition GetFloat (self : option loc) (path : string)
    (defaultValue : float64) : M float64 :=
  let* r := doOp self path false false VNil in
  match r with
  | (_, false) => ret defaultValue
  | (v, true) =>
      ret match v with
          | VNumber n =>
              match ParseFloat n with
              | Some f => f
              | None => defaultValue
              end
          | VFloat f => f
          | VString s =>
              match ParseFloat s with
              | Some f => f
              | None => defaultValue
              end
          | _ => defaultValue
          end
  end.

(** func value2string; the test [v.(DynamicJSON)] is for a struct value,
    which no slot holds (slots hold pointers). *)
Definition value2string (v : value) (defaultValue : string) : string :=
  match v with
  | VString s => s
  | VNumber n => n
  | VInt n => Sprint n
  | VInt64 n => Sprint n
  | VTime tm => formatRFC3339Nano tm
  | _ => defaultValue
  end.

(** func (self *DynamicJSON) GetString *)
Definition GetString (self : option loc) (path : string)
    (defaultValue : string) : M string :=
  let* r := doOp self path false false VNil in
  match r with
  | (_, false) => ret defaultValue
  | (v, true) => ret (value2string v defaultValue)
  end.
End Getters.

(** func (self *DynamicJSON) GetBool *)
Definition GetBool (self : option loc) (path : string) (defaultValue : bool)
  : M bool :=
  let* r := doOp self path false false VNil in
  if negb (snd r) then ret defaultValue
  else match fst r with
       | VBool n => ret n
       | _ => ret defaultValue
       end.

(** ** StringEscaper (strings.go) *)

Definition lsb : Z := 0x0101010101010101.
Definition msb : Z := 0x8080808080808080.
Definition wrap64 (z : Z) : Z := z mod 2 ^ 64.

(** func expand, below, contains: uint64 arithmetic wraps. *)
Definition expand (b : Z) : Z := wrap64 (lsb * b).
Definition below (n b : Z) : Z := wrap64 (n - expand b).
Definition contains (n b : Z) : Z := wrap64 (Z.lxor n (expand b) - lsb).

(** bits.TrailingZeros64 *)
Definition TrailingZeros64 (x : Z) : Z :=
  if x =? 0 then 64 else Z.log2 (Z.land x (- x)).

Definition bytes_of (s : string) : list Z := map byte_of (list_ascii_of_string s).

(** func stringToUint64: the first [len(s)/8] little-endian words. *)
Fixpoint words (n : nat) (bs : list Z) : list Z :=
  match n with
  | O => []
  | S n' =>
      fold_right (fun b w => b + 256 * w) 0 (take 8 bs) :: words n' (drop 8 bs)
  end.

Definition stringToUint64 (s : string) : list Z :=
  words (String.length s / 8) (bytes_of s).

Definition needsEscape (escapeHTML : bool) (c : Z) : bool :=
  (c <? 0x20) || (c >? 0x7f) || (c =? 0x22) || (c =? 0x5c)
  || (escapeHTML && ((c =? 0x3c) || (c =? 0x3e) || (c =? 0x26))).

(** func escapeIndex *)
Definition escapeIndex (s : string) (escapeHTML : bool) : Z :=
  let chunks := stringToUint64 s in
  let mask n :=
    let m := Z.lor (Z.lor (Z.lor n (below n 0x20)) (contains n 0x22))
               (contains n 0x5c) in
    if escapeHTML then
      Z.lor m (Z.lor (Z.lor (contains n 0x3c) (contains n 0x3e)) (contains n 0x26))
    else m in
  match find (fun n => negb (Z.land (mask n) msb =? 0)) chunks with
  | Some n => TrailingZeros64 (Z.land (mask n) msb) / 8
  | None =>
      let start := (List.length chunks * 8)%nat in
      match find (fun p => needsEscape escapeHTML (snd p))
              (drop start (imap (fun i c => (i, c)) (bytes_of s))) with
      | Some p => Z.of_nat (fst p)
      | None => -1
      end
  end.

Definition RuneError : Z := 0xFFFD.

(** utf8.DecodeRuneInString: the rune and its width; an invalid or short
    encoding is [(RuneError, 1)]. *)
Definition DecodeRune (bs : list Z) : Z * Z :=
  let cont b := (0x80 <=? b) && (b <=? 0xBF) in
  match bs with
  | [] => (RuneError, 0)
  | b0 :: t =>
      if b0 <? 0x80 then (b0, 1)
      else if (0xC2 <=? b0) && (b0 <=? 0xDF) then
        match t with
        | b1 :: _ =>
            if cont b1 then ((b0 - 0xC0) * 64 + (b1 - 0x80), 2)
            else (RuneError, 1)
        | _ => (RuneError, 1)
        end
      else if (0xE0 <=? b0) && (b0 <=? 0xEF) then
        let lo := if b0 =? 0xE0 then 0xA0 else 0x80 in
        let hi := if b0 =? 0xED then 0x9F else 0xBF in
        match t with
        | b1 :: b2 :: _ =>
            if (lo <=? b1) && (b1 <=? hi) && cont b2 then
              ((b0 - 0xE0) * 4096 + (b1 - 0x80) * 64 + (b2 - 0x80), 3)
            else (RuneError, 1)
        | _ => (RuneError, 1)
        end
      else if (0xF0 <=? b0) && (b0 <=? 0xF4) then
        let lo := if b0 =? 0xF0 then 0x90 else 0x80 in
        let hi := if b0 =? 0xF4 then 0x8F else 0xBF in
        match t with
        | b1 :: b2 :: b3 :: _ =>
            if (lo <=? b1) && (b1 <=? hi) && cont b2 && cont b3 then
              ((b0 - 0xF0) * 262144 + (b1 - 0x80) * 4096
               + (b2 - 0x80) * 64 + (b3 - 0x80), 4)
            else (RuneError, 1)
        | _ => (RuneError, 1)
        end
      else (RuneError, 1)
  end.

Definition gHex (n : Z) : string :=
  match String.get (Z.to_nat n) "0123456789abcdef" with
  | Some c => String c EmptyString
  | None => EmptyString
  end.

(** [s[i:j]] *)
Definition slice (s : string) (i j : nat) : string :=
  str_take (j - i) (str_drop i s).

Definition quote : string := String (ascii_of_nat 34) EmptyString.
Definition backslash : string := String (ascii_of_nat 92) EmptyString.

(** The [for j < len(s)] loop of [encodeString] (with [escapeHTML] true);
    [j] grows on every turn. *)
Fixpoint encodeString_loop (fuel : nat) (s : string) (i j : nat) (b : string)
  : outcome string :=
  match fuel with
  | O => OutOfFuel
  | S fuel' =>
      match String.get j s with
      | None => Ok (b +:+ str_drop i s +:+ quote)
      | Some ch =>
          let c := byte_of ch in
          let escaped (e : string) (size : nat) :=
            encodeString_loop fuel' s (j + size) (j + size)
              (b +:+ slice s i j +:+ e) in
          if (0x20 <=? c) && (c <=? 0x7f) && negb (c =? 0x5c) && negb (c =? 0x22)
             && negb (c =? 0x3c) && negb (c =? 0x3e) && negb (c =? 0x26)
          then encodeString_loop fuel' s i (S j) b
          else if (c =? 0x5c) || (c =? 0x22) then
            escaped (backslash +:+ String ch EmptyString) 1%nat
          else if c =? 0x0a then escaped (backslash +:+ "n") 1%nat
          else if c =? 0x0d then escaped (backslash +:+ "r") 1%nat
          else if c =? 0x09 then escaped (backslash +:+ "t") 1%nat
          else if (c =? 0x3c) || (c =? 0x3e) || (c =? 0x26) || (c <? 0x20) then
            escaped (backslash +:+ "u00" +:+ gHex (Z.shiftr c 4)
                     +:+ gHex (Z.land c 0xF)) 1%nat
          else
            let '(r, size) := DecodeRune (bytes_of (str_drop j s)) in
            if (r =? RuneError) && (size =? 1) then
              escaped (backslash +:+ "ufffd") 1%nat
            else if (r =? 0x2028) || (r =? 0x2029) then
              escaped (backslash +:+ "u202" +:+ gHex (Z.land r 0xF))
                (Z.to_nat size)
            else encodeString_loop fuel' s i (j + Z.to_nat size) b
      end
  end.

(** func encodeString: the text appended to the buffer. *)
Definition encodeString (s : string) : outcome string :=
  if (String.length s =? 0)%nat then Ok (quote +:+ quote)
  else
    let j := if (8 <=? String.length s)%nat then escapeIndex s true else 0 in
    if j <? 0 then Ok (quote +:+ s +:+ quote)
    else encodeString_loop (S (String.length s)) s 0 (Z.to_nat j) quote.

Definition lift {A} (o : outcome A) : M A :=
  fun h => match o with
           | Ok a => Ok (a, h)
           | Panic => Panic
           | OutOfFuel => OutOfFuel
           end.

(** ** Serializer *)

Section Serializer.
(** Formatting of float64 (inside njson.Append) and of time.Time are Go
    library routines, taken as given. *)
Variable formatFloat : float64 -> string.
Variable formatRFC3339Nano : Time -> string.

(** Modelled from the spec: njson.Append (segmentio/encoding, not in the
    repository's files) as the ValueCodec of the specification: null,
    booleans as literals, numeric text written verbatim, integers in
    decimal, strings through the StringEscaper (which strings.go copies
    from that library).  A pointer is written as what it points to: the
    sentinel's int, a struct without exported fields, or null. *)
Definition njsonAppend (v : value) : outcome string :=
  match v with
  | VNil => Ok "null"
  | VBool true => Ok "true"
  | VBool false => Ok "false"
  | VInt n | VInt64 n => Ok (Sprint n)
  | VFloat f => Ok (formatFloat f)
  | VNumber s => Ok s
  | VString s => encodeString s
  | VTime tm => encodeString (formatRFC3339Nano tm)
  | VDeleted => Ok "0"
  | VDJ None => Ok "null"
  | VDJ (Some _) => Ok "{}"
  end.

Definition gPrettyIdent : string := "  ".
Definition gEndLine : string := String (ascii_of_nat 10) EmptyString.

(** func (self *DynamicJSON) writeTo: the text written to [w]. *)
Fixpoint writeTo (fuel : nat) (self : option loc) (pretty : bool)
    (ident : string) : M string :=
  match fuel with
  | O => outOfFuel
  | S fuel' =>
      let nestedIdent := if pretty then ident +:+ gPrettyIdent else ident in
      let sep (first : bool) : string :=
        if first then ""
        else "," +:+ (if pretty then gEndLine +:+ nestedIdent else "") in
      let element (v : value) : M string :=
        match v with
        | VDJ container => writeTo fuel' container pretty nestedIdent
        | _ => lift (njsonAppend v)
        end in
      let opening (o : string) : string :=
        o +:+ (if pretty then gEndLine +:+ nestedIdent else "") in
      let closing (c : string) : string :=
        (if pretty then gEndLine +:+ ident else "") +:+ c in
      let* isArr := IsArray self in
      let* n := Len self in
      if isArr then
        if n =? 0 then ret "[]"
        else
          let* d := deref self in
          let* body :=
            (fix each (vs : list value) (first : bool) : M string :=
               match vs with
               | [] => ret ""
               | v :: vs' =>
                   let* e := element v in
                   let* r := each vs' false in
                   ret (sep first +:+ e +:+ r)
               end) (values d) true in
          ret (opening "[" +:+ body +:+ closing "]")
      else
        if n =? 0 then ret "{}"
        else
          let* d := deref self in
          let* body :=
            (fix each (vs : list value) (i : nat) (first : bool) : M string :=
               match vs with
               | [] => ret ""
               | v :: vs' =>
                   if isDeleted v then each vs' (S i) first
                   else
                     let* key := index (ordKeys d) i in
                     let* k := lift (encodeString key) in
                     let* e := element v in
                     let* r := each vs' (S i) false in
                     ret (sep first +:+ k +:+ (if pretty then ": " else ":")
                          +:+ e +:+ r)
               end) (values d) 0%nat true in
          ret (opening "{" +:+ body +:+ closing "}")
  end.

(** func (self *DynamicJSON) JSONLine and JSON *)
Definition JSONLine (fuel : nat) (self : option loc) : M string :=
  writeTo fuel self false "".

Definition JSON (fuel : nat) (self : option loc) : M string :=
  writeTo fuel self true "".

(** func scalar2str *)
Definition scalar2str (v : value) : outcome string := njsonAppend v.
End Serializer.

(** ** Observations and invariants used by the statements *)

(** The entries an iteration meets: slots in storage order, tombstones
    skipped. *)
Definition liveEntries (d : DynamicJSON) : list (string * value) :=
  List.filter (fun p => negb (isDeleted (snd p))) (zip (ordKeys d) (values d)).

Definition liveKeys (d : DynamicJSON) : list string := map fst (liveEntries d).
Definition liveValues (d : DynamicJSON) : list value := map snd (liveEntries d).

(** Invariant 1 of the data model: a map's index and its live slots are in
    one-to-one correspondence (and slot numbers fit a uint32). *)
Record wf_map (d : DynamicJSON) (ks : gmap string N) : Prop := {
  wf_keys : keys d = Some ks;
  wf_len : List.length (ordKeys d) = List.length (values d);
  wf_small : len (values d) < 4294967296;
  wf_index : forall k inx, ks !! k = Some inx ->
      ordKeys d !! N.to_nat inx = Some k /\
      exists v, values d !! N.to_nat inx = Some v /\ isDeleted v = false;
  wf_live : forall i v, values d !! i = Some v -> isDeleted v = false ->
      exists k, ordKeys d !! i = Some k /\ ks !! k = Some (N.of_nat i)
}.

(** Numbering the keys of a list from [j] on; [index_of] numbers them
    from zero. *)
Fixpoint number_from (l : list string) (j : N) (m : gmap string N)
  : gmap string N :=
  match l with
  | [] => m
  | k :: l' => number_from l' (j + 1)%N (<[k := j]> m)
  end.

Definition index_of (l : list string) : gmap string N := number_from l 0%N ∅.

(** What a rebuild leaves: the live entries, in order, densely numbered. *)
Definition compacted (d : DynamicJSON) : DynamicJSON :=
  {| keys := Some (index_of (liveKeys d));
     ordKeys := liveKeys d;
     iterCounter := iterCounter d;
     values := liveValues d |}.

Definition isDigit (c : ascii) : bool :=
  (48 <=? byte_of c) && (byte_of c <=? 57).

Definition allDigits (s : string) : bool :=
  forallb isDigit (list_ascii_of_string s).

(** A document is frozen when its counter is negative. *)
Definition frozen (d : DynamicJSON) : Prop := iterCounter d < 0.

Abbreviation live := (fun p : string * value => negb (isDeleted (snd p))).

(** Two entries of a list of slots with one key are one entry. *)
Definition keyed (l : list (string * value)) : Prop :=
  forall i j k v w, l !! i = Some (k, v) -> l !! j = Some (k, w) ->
                    isDeleted v = false -> isDeleted w = false -> i = j.

Definition appended (d : DynamicJSON) (ks : gmap string N) (k : string)
    (v : value) : DynamicJSON :=
  {| keys := Some (<[k := uint32 (N.of_nat (List.length (values d)))]> ks);
     ordKeys := ordKeys d ++ [k];
     iterCounter := iterCounter d;
     values := values d ++ [v] |}.

Definition overwritten (d : DynamicJSON) (ks : gmap string N) (inx : N)
    (k : string) (v : value) : DynamicJSON :=
  {| keys := Some ks;
     ordKeys := <[N.to_nat inx := k]> (ordKeys d);
     iterCounter := iterCounter d;
     values := <[N.to_nat inx := v]> (values d) |}.

Definition tombstoned (d : DynamicJSON) (ks : gmap string N) (inx : N)
    (k : string) : DynamicJSON :=
  {| keys := Some (delete k ks);
     ordKeys := ordKeys d;
     iterCounter := iterCounter d;
     values := <[N.to_nat inx := VDeleted]> (values d) |}.

(** The entries with the value of key [k] replaced, and with key [k]
    removed; the order of the entries is kept. *)
Definition replace_value (k : string) (v : value) (es : list (string * value)) :=
  map (fun p => if String.eqb (fst p) k then (k, v) else p) es.

Definition remove_key (k : string) (es : list (string * value)) :=
  List.filter (fun p => negb (String.eqb (fst p) k)) es.

(** Folding a callback over entries until it answers [false]. *)
Fixpoint visit_entries {Acc} (f : string -> value -> Acc -> bool * Acc)
    (es : list (string * value)) (acc : Acc) : Acc :=
  match es with
  | [] => acc
  | (k, v) :: es' =>
      let r := f k v acc in
      if fst r then visit_entries f es' (snd r) else snd r
  end.

Definition result_of {A} (o : outcome (A * heap)) : option A :=
  match o with
  | Ok (a, _) => Some a
  | _ => None
  end.

(** A map of 128 slots of which only the last is live. *)
Definition sparseMap : DynamicJSON :=
  {| keys := Some {["k" := 127%N]};
     ordKeys := replicate 127 "x" ++ ["k"];
     iterCounter := 0;
     values := replicate 127 VDeleted ++ [VInt 1] |}.


(** A pointer is valid in a store when it is nil or allocated. *)
Definition valid (h : heap) (p : option loc) : Prop :=
  match p with
  | None => True
  | Some l => (l < List.length h)%nat
  end.

(** A well-formed store: every map keeps its index invariant and every
    child pointer is nil or allocated. *)
Definition wf_node (h : heap) (d : DynamicJSON) : Prop :=
  (forall ks, keys d = Some ks -> wf_map d ks) /\
  (forall p, In (VDJ p) (values d) -> valid h p).

Definition wf_heap (h : heap) : Prop :=
  forall l d, h !! l = Some d -> wf_node h d.

(** A path without segments: empty, or made of slashes only. *)
Fixpoint noSegment (path : string) : bool :=
  match path with
  | EmptyString => true
  | String c s => Ascii.eqb c "/" && noSegment s
  end.

Definition numberDoc : DynamicJSON :=
  {| keys := Some {["x" := 0%N]}; ordKeys := ["x"]; iterCounter := 0;
     values := [VNumber "12.0"] |}.


(** The first segment of a path, as [createLevelFromNextPath] cuts it. *)
Definition firstSegment (path : string) : string :=
  let i := IndexByte path "/" in
  if i >=? 0 then str_take (Z.to_nat i) path else path.

(** The level [createLevelFromNextPath] makes for the rest of a path. *)
Definition newLevel (path : string) : DynamicJSON :=
  if key2Index (firstSegment path) >=? 0 then emptyArray else emptyMap.

(** The record [set] leaves when it accepts key [s]. *)
Definition store_key (d : DynamicJSON) (s : string) (v : value) : DynamicJSON :=
  match keys d with
  | None =>
      with_values d (<[Z.to_nat (key2Index s) := v]> (extend (values d) (key2Index s)))
  | Some ks =>
      match ks !! s with
      | Some inx => overwritten d ks inx s v
      | None => appended d ks s v
      end
  end.

(** A level accepts a key when it is not frozen and is an array addressed
    by a numeric key or a well-formed map with room for one more slot. *)
Definition accepts (d : DynamicJSON) (s : string) : Prop :=
  ~ frozen d /\
  match keys d with
  | None => 0 <= key2Index s
  | Some ks => wf_map d ks /\ len (values d) + 1 < 4294967296
  end.

(** A path segment: not empty, no slash. *)
Definition segment (s : string) : Prop := s <> "" /\ IndexByte s "/" < 0.

(** Segments joined by slashes. *)
Fixpoint joinPath (segs : list string) : string :=
  match segs with
  | [] => ""
  | [s] => s
  | s :: rest => s +:+ "/" +:+ joinPath rest
  end.

(** What [get] reads at key [s] of a record. *)
Definition slot (d : DynamicJSON) (s : string) : option value :=
  match keys d with
  | None =>
      if (0 <=? key2Index s) && (key2Index s <? len (values d))
      then values d !! Z.to_nat (key2Index s) else None
  | Some ks =>
      match ks !! s with
      | Some inx => values d !! N.to_nat inx
      | None => None
      end
  end.

(** A JSON string literal without characters to escape. *)
Definition quoted (s : string) : string := quote +:+ s +:+ quote.


(** The document at a location is frozen. *)
Definition frozen_at (h : heap) (l : loc) : Prop :=
  exists d, h !! l = Some d /\ frozen d.

(** [c] is a child Document of the document at [l]. *)
Definition child (h : heap) (l c : loc) : Prop :=
  exists d, h !! l = Some d /\ In (VDJ (Some c)) (values d).

(** Documents reachable from a document, itself included. *)
Inductive reach (h : heap) : loc -> loc -> Prop :=
| reach_here l : reach h l l
| reach_child l c l' : child h l c -> reach h c l' -> reach h l l'.

(** The tree below a pointer has at most [n] levels: every pointer met is
    nil or allocated, and no document contains itself. *)
Inductive depth_le (h : heap) : nat -> option loc -> Prop :=
| depth_nil n : depth_le h n None
| depth_node n l d :
    h !! l = Some d ->
    (forall p, In (VDJ p) (values d) -> depth_le h n p) ->
    depth_le h (S n) (Some l).

(** Every child Document of a frozen document is frozen. *)
Definition closed (h : heap) : Prop :=
  forall l c, frozen_at h l -> child h l c -> frozen_at h c.

(** The store [h'] is [h] with some documents that were not frozen marked
    frozen, and nothing else changed. *)
Definition freeze_step (h h' : heap) : Prop :=
  List.length h' = List.length h /\
  forall l d, h !! l = Some d ->
    h' !! l = Some d \/ (~ frozen d /\ h' !! l = Some (with_counter d (-1000))).

(** What freezing from the roots [R] achieves. *)
Definition froze (h h' : heap) (R : loc -> Prop) : Prop :=
  freeze_step h h' /\ closed h' /\
  (forall l l', R l -> reach h l l' -> frozen_at h' l') /\
  (forall l' d', h !! l' = Some d' -> (forall l, R l -> ~ reach h l l') ->
                 h' !! l' = Some d').

Definition FreezeOk (fuel n : nat) : Prop :=
  forall self h, depth_le h n self -> closed h ->
    exists h', Freeze fuel self h = Ok (tt, h') /\ froze h h' (fun l => self = Some l).

(** Every document frozen in [h] is frozen in [h']. *)
Definition keeps (h h' : heap) : Prop :=
  forall l, frozen_at h l -> frozen_at h' l.

(** A computation that never unfreezes a document. *)
Definition mono {A} (m : M A) : Prop :=
  forall h a h', m h = Ok (a, h') -> keeps h h'.

(** The calls of the package that write to the store, with re-entrant
    iteration: the callback of an iteration is itself a call. *)
Inductive call :=
| CallSkip
| CallSeq (c1 c2 : call)
| CallSet (self : option loc) (path : string) (v : value)
| CallSetKey (self : option loc) (key : string) (v : value)
| CallSetI (self : option loc) (i : Z) (v : value)
| CallAppend (self : option loc) (v : value)
| CallDelete (self : option loc) (path : string)
| CallClear (self : option loc)
| CallFreeze (fuel : nat) (self : option loc)
| CallClone (fuel : nat) (self : option loc)
| CallIterate (fuel : nat) (self : option loc) (cb : string -> value -> call).

Fixpoint exec (c : call) : M unit :=
  match c with
  | CallSkip => ret tt
  | CallSeq c1 c2 => do* exec c1 in exec c2
  | CallSet self path v => Set_ self path v
  | CallSetKey self key v => let* _ := set self key v in ret tt
  | CallSetI self i v => let* _ := SetI self i v in ret tt
  | CallAppend self v => Append self v
  | CallDelete self path => let* _ := Delete self path in ret tt
  | CallClear self => Clear self
  | CallFreeze fuel self => Freeze fuel self
  | CallClone fuel self => let* _ := Clone fuel self in ret tt
  | CallIterate fuel self cb =>
      Iterate (fun k v (a : unit) => do* exec (cb k v) in ret (true, a)) fuel self tt
  end.

(** A map holding one child map under the key a. *)
Definition parentDoc : DynamicJSON :=
  {| keys := Some {["a" := 0%N]}; ordKeys := ["a"]; iterCounter := 0;
     values := [VDJ (Some 1%nat)] |}.

(** ** Token scanner *)

(** Modelled from the spec: the kinds of token of njson.Tokenizer
    (segmentio/encoding, a library that is not among the repository's
    files), the streaming token scanner of section 4.3 of the
    specification.  It yields one token per call (a delimiter, a literal, a
    number span or a string span), keeps the raw bytes of the token in
    [Value] and the bytes still to read in [json].  [Bool], [Num] and
    [String] are bit masks shared by the kinds below them. *)
Definition KNull : Z := 1.
Definition KFalse : Z := 2.
Definition KTrue : Z := 3.
Definition KNum : Z := 4.
Definition KUint : Z := 5.
Definition KInt : Z := 6.
Definition KFloat : Z := 7.
Definition KString : Z := 8.
Definition KUnescaped : Z := 9.
Definition KArray : Z := 16.
Definition KObject : Z := 32.

Fixpoint skipSpaces (s : string) : string :=
  match s with
  | String c s' =>
      let b := byte_of c in
      if (b =? 0x20) || (b =? 0x09) || (b =? 0x0a) || (b =? 0x0d)
      then skipSpaces s' else s
  | EmptyString => s
  end.

(** [strings.HasPrefix(s, p)] *)
Definition hasPrefix (p s : string) : bool :=
  String.eqb (str_take (String.length p) s) p.

Fixpoint spanDigits (s : string) : string * string :=
  match s with
  | String c s' =>
      if isDigit c then let r := spanDigits s' in (String c (fst r), snd r)
      else (EmptyString, s)
  | EmptyString => (EmptyString, EmptyString)
  end.

(** Modelled from the spec: the number span of the scanner, by the JSON
    grammar: an optional minus, an integer part without a leading zero, an
    optional fraction, an optional exponent.  [None] is a syntax error.
    [numberTail] reads on after the integer part [ip]. *)
Definition numberTail (sign ip s2 : string) : option (string * string) :=
  if (String.length ip =? 0)%nat then None
  else if (1 <? String.length ip)%nat && hasPrefix "0" ip then None
  else
    let frac :=
      match s2 with
      | String c s' =>
          if Ascii.eqb c "." then
            let '(fp, s3) := spanDigits s' in
            if (String.length fp =? 0)%nat then None
            else Some ("." +:+ fp, s3)
          else Some ("", s2)
      | _ => Some ("", s2)
      end in
    match frac with
    | None => None
    | Some (fr, s3) =>
        let expo :=
          match s3 with
          | String c s' =>
              if Ascii.eqb c "e" || Ascii.eqb c "E" then
                let '(sg, s4) :=
                  match s' with
                  | String c2 s'' =>
                      if Ascii.eqb c2 "+" || Ascii.eqb c2 "-"
                      then (String c2 EmptyString, s'') else ("", s')
                  | _ => ("", s')
                  end in
                let '(ep, s5) := spanDigits s4 in
                if (String.length ep =? 0)%nat then None
                else Some (String c EmptyString +:+ sg +:+ ep, s5)
              else Some ("", s3)
          | _ => Some ("", s3)
          end in
        match expo with
        | None => None
        | Some (ex, s5) => Some (sign +:+ ip +:+ fr +:+ ex, s5)
        end
    end.

Definition scanNumber (s : string) : option (string * string) :=
  let '(sign, s1) :=
    match s with
    | String c s' => if Ascii.eqb c "-" then ("-", s') else ("", s)
    | _ => ("", s)
    end in
  let '(ip, s2) := spanDigits s1 in
  numberTail sign ip s2.

(** Uint, Int or Float, by the shape of the number. *)
Definition numberKind (num : string) : Z :=
  if existsb (fun c => Ascii.eqb c "." || Ascii.eqb c "e" || Ascii.eqb c "E")
       (list_ascii_of_string num) then KFloat
  else if hasPrefix "-" num then KInt
  else KUint.

Definition isHex (c : ascii) : bool :=
  let b := byte_of c in
  ((48 <=? b) && (b <=? 57)) || ((97 <=? b) && (b <=? 102))
  || ((65 <=? b) && (b <=? 70)).

(** Modelled from the spec: the string span of the scanner.
    The body of a string literal after its opening quote: the raw text up
    to and including the closing quote, whether a backslash was met, and
    the bytes left.  [None] when the literal is unterminated, holds a
    control character or an escape that JSON does not have. *)
Fixpoint scanString (s : string) : option (string * bool * string) :=
  match s with
  | EmptyString => None
  | String c s' =>
      let b := byte_of c in
      if b =? 0x22 then Some (String c EmptyString, false, s')
      else if b <? 0x20 then None
      else if b =? 0x5c then
        match s' with
        | String e s'' =>
            let eb := byte_of e in
            if (eb =? 0x22) || (eb =? 0x5c) || (eb =? 0x2f) || (eb =? 0x62)
               || (eb =? 0x66) || (eb =? 0x6e) || (eb =? 0x72) || (eb =? 0x74)
               || ((eb =? 0x75)
                   && forallb isHex (list_ascii_of_string (str_take 4 s''))
                   && (4 <=? String.length s'')%nat)
            then
              match scanString s'' with
              | Some (raw, _, rest) => Some (String c (String e raw), true, rest)
              | None => None
              end
            else None
        | EmptyString => None
        end
      else
        match scanString s' with
        | Some (raw, esc, rest) => Some (String c raw, esc, rest)
        | None => None
        end
  end.

(** utf8.AppendRune: a surrogate or a value out of range is written as
    U+FFFD. *)
Definition EncodeRune (r : Z) : list Z :=
  if r <? 0 then [0xEF; 0xBF; 0xBD]
  else if r <? 0x80 then [r]
  else if r <? 0x800 then [0xC0 + r / 64; 0x80 + r mod 64]
  else if (0xD800 <=? r) && (r <=? 0xDFFF) then [0xEF; 0xBF; 0xBD]
  else if r <? 0x10000 then
    [0xE0 + r / 4096; 0x80 + (r / 64) mod 64; 0x80 + r mod 64]
  else if r <? 0x110000 then
    [0xF0 + r / 262144; 0x80 + (r / 4096) mod 64; 0x80 + (r / 64) mod 64;
     0x80 + r mod 64]
  else [0xEF; 0xBF; 0xBD].

Definition string_of_bytes (bs : list Z) : string :=
  string_of_list_ascii (map (fun b => ascii_of_N (Z.to_N b)) bs).

Definition hexDigit (c : ascii) : Z :=
  let b := byte_of c in
  if (48 <=? b) && (b <=? 57) then b - 48
  else if (97 <=? b) && (b <=? 102) then b - 87
  else if (65 <=? b) && (b <=? 70) then b - 55
  else 0.

Definition hex4 (s : string) : Z :=
  fold_left (fun n c => n * 16 + hexDigit c) (list_ascii_of_string (str_take 4 s)) 0.

(** Modelled from the spec: the unescaping of a string span.
    The text a string literal stands for, read from the byte after its
    opening quote to its closing quote. *)
Fixpoint unescape (fuel : nat) (s : string) : string :=
  match fuel with
  | O => EmptyString
  | S fuel' =>
      match s with
      | EmptyString => EmptyString
      | String c s' =>
          let b := byte_of c in
          if b =? 0x22 then EmptyString
          else if b =? 0x5c then
            match s' with
            | EmptyString => EmptyString
            | String e s'' =>
                let eb := byte_of e in
                let one (x : Z) := string_of_bytes [x] +:+ unescape fuel' s'' in
                if eb =? 0x62 then one 0x08
                else if eb =? 0x66 then one 0x0c
                else if eb =? 0x6e then one 0x0a
                else if eb =? 0x72 then one 0x0d
                else if eb =? 0x74 then one 0x09
                else if eb =? 0x75 then
                  let r1 := hex4 s'' in
                  let t := str_drop 4 s'' in
                  let r2 := hex4 (str_drop 2 t) in
                  if (0xD800 <=? r1) && (r1 <? 0xDC00) && hasPrefix "\u" t
                     && (0xDC00 <=? r2) && (r2 <? 0xE000)
                  then string_of_bytes
                         (EncodeRune (0x10000 + (r1 - 0xD800) * 1024 + (r2 - 0xDC00)))
                       +:+ unescape fuel' (str_drop 6 t)
                  else string_of_bytes (EncodeRune r1) +:+ unescape fuel' t
                else String e (unescape fuel' s'')
            end
          else String c (unescape fuel' s')
      end
  end.

Definition inObject : bool := true.
Definition inArray : bool := false.

(** Modelled from the spec: njson.Tokenizer.
    The scanner's state: the token just read ([Delim] is 0 when it is not
    a delimiter), whether an error was met, the bytes left, the stack of
    the open containers. *)
Record Tokenizer := mkTok {
  Delim : Z;
  Value : string;
  Kind : Z;
  Err : bool;
  json : string;
  stack : list bool
}.

Definition NewTokenizer (data : string) : Tokenizer :=
  {| Delim := 0; Value := ""; Kind := 0; Err := false; json := data;
     stack := [] |}.

Definition Remaining (t : Tokenizer) : Z := Z.of_nat (String.length (json t)).

Definition scalarToken (t : Tokenizer) (v : string) (k : Z) (rest : string)
  : Tokenizer :=
  {| Delim := 0; Value := v; Kind := k; Err := false; json := rest;
     stack := stack t |}.

Definition syntaxError (t : Tokenizer) (s : string) : Tokenizer :=
  {| Delim := 0; Value := ""; Kind := 0; Err := true; json := s;
     stack := stack t |}.

Definition literal (t : Tokenizer) (s lit : string) (k : Z) : Tokenizer :=
  if hasPrefix lit s
  then scalarToken t lit k (str_drop (String.length lit) s)
  else syntaxError t s.

Definition delimToken (t : Tokenizer) (c : ascii) (rest : string) : Tokenizer :=
  let b := byte_of c in
  let tok (k : Z) (e : bool) (st : list bool) :=
    {| Delim := b; Value := String c EmptyString; Kind := k; Err := e;
       json := rest; stack := st |} in
  if b =? 0x7b then tok KObject false (inObject :: stack t)
  else if b =? 0x5b then tok KArray false (inArray :: stack t)
  else if b =? 0x7d then
    match stack t with
    | true :: st => tok 0 false st
    | _ => tok 0 true (stack t)
    end
  else if b =? 0x5d then
    match stack t with
    | false :: st => tok 0 false st
    | _ => tok 0 true (stack t)
    end
  else if b =? 0x2c then
    match stack t with
    | [] => tok 0 true []
    | _ => tok 0 false (stack t)
    end
  else tok 0 false (stack t).

(** Modelled from the spec: func (t *Tokenizer) Next.
    The state after reading one token, and
    whether a token was read without error. *)
Definition Next (t : Tokenizer) : Tokenizer * bool :=
  if Err t then (t, false)
  else
    match skipSpaces (json t) with
    | EmptyString => (NewTokenizer "", false)
    | String c s' as s =>
        let b := byte_of c in
        let t' :=
          if b =? 0x22 then
            match scanString s' with
            | Some (raw, esc, rest) =>
                scalarToken t (String c raw)
                  (if esc : bool then KString else KUnescaped) rest
            | None => syntaxError t s
            end
          else if b =? 0x6e then literal t s "null" KNull
          else if b =? 0x74 then literal t s "true" KTrue
          else if b =? 0x66 then literal t s "false" KFalse
          else if (b =? 0x2d) || isDigit c then
            match scanNumber s with
            | Some (num, rest) => scalarToken t num (numberKind num) rest
            | None => syntaxError t s
            end
          else if (b =? 0x7b) || (b =? 0x7d) || (b =? 0x5b) || (b =? 0x5d)
                  || (b =? 0x3a) || (b =? 0x2c)
          then delimToken t c s'
          else syntaxError t s in
        (t', (negb (Delim t' =? 0) || negb (String.length (Value t') =? 0)%nat)
             && negb (Err t'))
    end.

(** Modelled from the spec: func (t *Tokenizer) String, which reads the
    token's kind and bytes. *)
Definition stringOf (kind : Z) (v : string) : string :=
  if (kind =? KUnescaped) && (1 <? String.length v)%nat
  then slice v 1 (String.length v - 1)
  else match v with
       | String c s => if byte_of c =? 0x22 then unescape (String.length s) s
                       else EmptyString
       | EmptyString => EmptyString
       end.

Definition String_ (t : Tokenizer) : string := stringOf (Kind t) (Value t).

(** ** Parser *)

(** [strData[i:j]]: the bounds are checked. *)
Definition substring (s : string) (i j : Z) : M string :=
  if (0 <=? i) && (i <=? j) && (j <=? Z.of_nat (String.length s))
  then ret (slice s (Z.to_nat i) (Z.to_nat j))
  else panic.

(** [r.values = append(r.values, v)] *)
Definition appendValue (r : option loc) (v : value) : M unit :=
  let* d := deref r in update r (with_values d (values d ++ [v])).

(** func token2value, with the two [for tok.Next()] loops as [arrayLoop]
    and [objectLoop]; the tokenizer, which the source shares by pointer,
    is passed along. *)
Fixpoint token2value (fuel : nat) (tok : Tokenizer) (strData : string)
  : M (value * Tokenizer) :=
  match fuel with
  | O => outOfFuel
  | S fuel' =>
      let end_ := Z.of_nat (String.length strData) - Remaining tok in
      let start := end_ - Z.of_nat (String.length (Value tok)) in
      if Kind tok =? KArray then
        let* r := NewArray in arrayLoop fuel' r tok strData
      else if Kind tok =? KObject then
        let* r := NewMap in objectLoop fuel' r tok strData
      else if Kind tok =? KFalse then ret (VBool false, tok)
      else if Kind tok =? KTrue then ret (VBool true, tok)
      else if Kind tok =? KNull then ret (VNil, tok)
      else if Kind tok =? KUnescaped then
        let* s := substring strData (start + 1) (end_ - 1) in
        ret (VString s, tok)
      else if negb (Z.land (Kind tok) KString =? 0) then
        ret (VString (String_ tok), tok)
      else if negb (Z.land (Kind tok) KNum =? 0) then
        let* s := substring strData start end_ in
        ret (VNumber s, tok)
      else
        ret (VNil, {| Delim := Delim tok; Value := Value tok; Kind := Kind tok;
                      Err := true; json := json tok; stack := stack tok |})
  end
with arrayLoop (fuel : nat) (r : option loc) (tok : Tokenizer)
    (strData : string) : M (value * Tokenizer) :=
  match fuel with
  | O => outOfFuel
  | S fuel' =>
      let (tok1, ok) := Next tok in
      if negb ok then ret (VDJ r, tok1)
      else if Err tok1 then ret (VDJ r, tok1)
      else if Delim tok1 =? 0x5d then ret (VDJ r, tok1)
      else
        let (tok2, ok2) :=
          if Delim tok1 =? 0x2c then Next tok1 else (tok1, true) in
        if negb ok2 then ret (VDJ r, tok2)
        else
          let* (v, tok3) := token2value fuel' tok2 strData in
          do* appendValue r v in
          arrayLoop fuel' r tok3 strData
  end
with objectLoop (fuel : nat) (r : option loc) (tok : Tokenizer)
    (strData : string) : M (value * Tokenizer) :=
  match fuel with
  | O => outOfFuel
  | S fuel' =>
      let (tok1, ok) := Next tok in
      if negb ok then ret (VDJ r, tok1)
      else if Err tok1 then ret (VDJ r, tok1)
      else
        let (tok2, ok2) :=
          if Delim tok1 =? 0x2c then Next tok1 else (tok1, true) in
        if negb ok2 then ret (VDJ r, tok2)
        else if Delim tok2 =? 0x7d then ret (VDJ r, tok2)
        else
          let* key :=
            if (Kind tok2 =? KUnescaped) && (1 <? String.length (Value tok2))%nat
            then
              let end_ := Z.of_nat (String.length strData) - Remaining tok2 in
              let start := end_ - Z.of_nat (String.length (Value tok2)) in
              substring strData (start + 1) (end_ - 1)
            else ret (String_ tok2) in
          let (tok3, _) := Next tok2 in
          let (tok4, ok4) := Next tok3 in
          if negb ok4 then ret (VDJ r, tok4)
          else
            let* (v, tok5) := token2value fuel' tok4 strData in
            do* set r key v in
            objectLoop fuel' r tok5 strData
  end.

Inductive parseError :=
| NotAContainer
| SyntaxError
| InternalError.

(** func Parse *)
Definition Parse (fuel : nat) (data : string)
  : M (option loc * option parseError) :=
  let strData := data in
  let tok := NewTokenizer data in
  let (tok, _) := Next tok in
  if negb (Delim tok =? 0x7b) && negb (Delim tok =? 0x5b)
  then ret (None, Some NotAContainer)
  else
    let* (v, tok) := token2value fuel tok strData in
    if Err tok then ret (None, Some SyntaxError)
    else match v with
         | VDJ r => ret (r, None)
         | _ => ret (None, Some InternalError)
         end.

Section Comparison.
Variable formatFloat : float64 -> string.
Variable formatRFC3339Nano : Time -> string.

(** func (self *DynamicJSON) IsEqualAsString *)
Fixpoint IsEqualAsString (fuel : nat) (self o : option loc) : M bool :=
  match fuel with
  | O => outOfFuel
  | S fuel' =>
      let same (value1 value2 : value) : M bool :=
        match value1, value2 with
        | VDJ d1, VDJ d2 => IsEqualAsString fuel' d1 d2
        | _, _ =>
            let* x1 := lift (scalar2str formatFloat formatRFC3339Nano value1) in
            let* x2 := lift (scalar2str formatFloat formatRFC3339Nano value2) in
            ret (String.eqb x1 x2)
        end in
      if decide (self = o) then ret true
      else
        match self with
        | None => ret false
        | Some _ =>
            let* array1 := IsArray self in
            let* array2 := IsArray o in
            if negb (Bool.eqb array1 array2) then ret false
            else
              let* d1 := deref self in
              let* d2 := deref o in
              if array1 then
                if negb (len (values d1) =? len (values d2)) then ret false
                else
                  (fix each (vs : list value) (i : nat) : M bool :=
                     match vs with
                     | [] => ret true
                     | value1 :: vs' =>
                         let* value2 := index (values d2) i in
                         let* eq := same value1 value2 in
                         if negb eq then ret false else each vs' (S i)
                     end) (values d1) 0%nat
              else
                match keys d1, keys d2 with
                | Some ks1, Some ks2 =>
                    if negb (size ks1 =? size ks2)%nat then ret false
                    else
                      (fix each (vs : list value) (i : nat) : M bool :=
                         match vs with
                         | [] => ret true
                         | value1 :: vs' =>
                             if isDeleted value1 then each vs' (S i)
                             else
                               let* key1 := index (ordKeys d1) i in
                               match ks2 !! key1 with
                               | None => ret false
                               | Some inx =>
                                   let* value2 :=
                                     index (values d2) (N.to_nat inx) in
                                   let* eq := same value1 value2 in
                                   if negb eq then ret false
                                   else each vs' (S i)
                               end
                         end) (values d1) 0%nat
                | _, _ => panic
                end
        end
  end.
End Comparison.

(** ** Documents as JSON trees *)

(** What a document says: scalars by their JSON text, arrays by their
    elements, maps by their live entries in order. *)
Unset Elimination Schemes.
Inductive tree :=
| TScalar (text : string)
| TArr (ts : list tree)
| TObj (es : list (string * tree)).
Set Elimination Schemes.

(** The fuel that writing, reading or comparing a tree takes. *)
Fixpoint cost (t : tree) : nat :=
  match t with
  | TScalar _ => 1
  | TArr ts => 2 + list_sum (map (fun t => S (cost t)) ts)
  | TObj es => 2 + list_sum (map (fun e => S (cost (snd e))) es)
  end.

(** The text [encodeString] writes for a key. *)
Definition encoded (k : string) : string :=
  match encodeString k with
  | Ok e => e
  | _ => EmptyString
  end.

Fixpoint items (first : bool) (l : list string) : string :=
  match l with
  | [] => ""
  | x :: l' => (if first then "" else ",") +:+ x +:+ items false l'
  end.

(** The compact text of a tree. *)
Fixpoint render (t : tree) : string :=
  match t with
  | TScalar s => s
  | TArr ts =>
      match ts with
      | [] => "[]"
      | _ => "[" +:+ items true (map render ts) +:+ "]"
      end
  | TObj es =>
      match es with
      | [] => "{}"
      | _ => "{" +:+ items true
                       (map (fun e => encoded (fst e) +:+ ":" +:+ render (snd e)) es)
                 +:+ "}"
      end
  end.

(** What follows the opening bracket of an array, and of a map, up to the
    end of the text [rest] that follows the container. *)
Fixpoint arrayTail (first : bool) (ts : list tree) (rest : string) : string :=
  match ts with
  | [] => "]" +:+ rest
  | t :: ts' =>
      (if first then "" else ",") +:+ render t +:+ arrayTail false ts' rest
  end.

Fixpoint objectTail (first : bool) (es : list (string * tree)) (rest : string)
  : string :=
  match es with
  | [] => "}" +:+ rest
  | e :: es' =>
      (if first then "" else ",") +:+ encoded (fst e) +:+ ":"
      +:+ render (snd e) +:+ objectTail false es' rest
  end.

Definition isScalar (v : value) : bool :=
  match v with
  | VDJ _ | VDeleted => false
  | _ => true
  end.

Section Representation.
Variable formatFloat : float64 -> string.
Variable formatRFC3339Nano : Time -> string.

(** [repr lo h v t]: in the store [h] the value [v] is the tree [t], and
    the documents of [v] are allocated at [lo] or later.  A document that
    has a tree has no nil child and no cycle. *)
Unset Elimination Schemes.
Inductive repr (lo : nat) (h : heap) : value -> tree -> Prop :=
| repr_scalar v s :
    isScalar v = true ->
    njsonAppend formatFloat formatRFC3339Nano v = Ok s ->
    repr lo h v (TScalar s)
| repr_array l d ts :
    (lo <= l)%nat -> h !! l = Some d -> keys d = None ->
    Forall2 (repr lo h) (values d) ts ->
    repr lo h (VDJ (Some l)) (TArr ts)
| repr_object l d ks es :
    (lo <= l)%nat -> h !! l = Some d -> wf_map d ks ->
    Forall2 (fun e f => fst e = fst f /\ repr lo h (snd e) (snd f))
      (liveEntries d) es ->
    repr lo h (VDJ (Some l)) (TObj es).
Set Elimination Schemes.

(** The value [token2value] makes of a scalar token of kind [kind] and
    bytes [s]; [None] where it makes none. *)
Definition decode (kind : Z) (s : string) : option value :=
  if (kind =? KArray) || (kind =? KObject) then None
  else if kind =? KFalse then Some (VBool false)
  else if kind =? KTrue then Some (VBool true)
  else if kind =? KNull then Some VNil
  else if kind =? KUnescaped then
    if (2 <=? String.length s)%nat
    then Some (VString (slice s 1 (String.length s - 1))) else None
  else if negb (Z.land kind KString =? 0) then Some (VString (stringOf kind s))
  else if negb (Z.land kind KNum =? 0) then Some (VNumber s)
  else None.

(** The text after a scalar or a key: nothing, or a delimiter. *)
Definition boundary (rest : string) : Prop :=
  match rest with
  | EmptyString => True
  | String c _ => c = ","%char \/ c = "]"%char \/ c = "}"%char \/ c = ":"%char
  end.

(** The scanner reads the text [s] as one token of kind [kind]. *)
Definition reads (s : string) (kind : Z) : Prop :=
  forall tok rest, Err tok = false -> json tok = s +:+ rest -> boundary rest ->
    Next tok = (scalarToken tok s kind rest, true).

(** A scalar text that is read back as a value with the same text, and a
    key that is read back as itself. *)
Definition readableText (s : string) : Prop :=
  exists kind v, reads s kind /\ decode kind s = Some v /\
    njsonAppend formatFloat formatRFC3339Nano v = Ok s.

Definition readableKey (k : string) : Prop :=
  exists e kind, encodeString k = Ok e /\ reads e kind /\ stringOf kind e = k.

Fixpoint readable (t : tree) : Prop :=
  match t with
  | TScalar s => readableText s
  | TArr ts => fold_right (fun t P => readable t /\ P) True ts
  | TObj es =>
      fold_right (fun e P => readableKey (fst e) /\ readable (snd e) /\ P) True es
  end.
End Representation.

(** The position of the scanner in the text it was given. *)
Definition at_ (strData : string) (tok : Tokenizer) : Prop :=
  exists pre, strData = pre +:+ Value tok +:+ json tok.

(** Trees a map can hold: distinct keys, fewer entries than a uint32
    counts. *)
Fixpoint wfTree (t : tree) : Prop :=
  match t with
  | TScalar _ => True
  | TArr ts => fold_right (fun t P => wfTree t /\ P) True ts
  | TObj es =>
      List.NoDup (map fst es) /\ Z.of_nat (List.length es) < 4294967296 /\
      fold_right (fun e P => wfTree (snd e) /\ P) True es
  end.

Section Reading.
Variable formatFloat : float64 -> string.
Variable formatRFC3339Nano : Time -> string.

(** With [fuel], [token2value] reads every tree [t] of that cost from the
    text [render t]: the scanner is left after the text, nothing is
    changed in the store, and the value made is the tree [t] again, in
    documents allocated for it. *)
Definition parsesValue (fuel : nat) : Prop :=
  forall t strData tok0 rest h,
    (cost t <= fuel)%nat -> readable formatFloat formatRFC3339Nano t ->
    wfTree t ->
    Err tok0 = false -> json tok0 = render t +:+ rest -> at_ strData tok0 ->
    boundary rest ->
    exists tok1 tok2 v new,
      Next tok0 = (tok1, true) /\ Err tok1 = false /\
      Delim tok1 <> 0x5d /\ Delim tok1 <> 0x2c /\ Delim tok1 <> 0x7d /\
      token2value fuel tok1 strData h = Ok ((v, tok2), h ++ new) /\
      Err tok2 = false /\ json tok2 = rest /\ stack tok2 = stack tok0 /\
      at_ strData tok2 /\
      repr formatFloat formatRFC3339Nano (List.length h) (h ++ new) v t.

(** The loop of an array, from any element on: the elements read are
    appended to the array [r]. *)
Definition parsesArray (fuel : nat) : Prop :=
  forall ts first strData tok rest h r d stk,
    (1 + list_sum (map (fun t => S (cost t)) ts) <= fuel)%nat ->
    readable formatFloat formatRFC3339Nano (TArr ts) -> wfTree (TArr ts) ->
    Err tok = false -> json tok = arrayTail first ts rest -> at_ strData tok ->
    stack tok = inArray :: stk ->
    h !! r = Some d -> keys d = None ->
    exists tok' vs new,
      let h' := <[r := with_values d (values d ++ vs)]> h ++ new in
      arrayLoop fuel (Some r) tok strData h = Ok ((VDJ (Some r), tok'), h') /\
      Err tok' = false /\ json tok' = rest /\ stack tok' = stk /\
      at_ strData tok' /\
      Forall2 (repr formatFloat formatRFC3339Nano (List.length h) h') vs ts.

(** The loop of a map, from any entry on: the entries read are added to
    the map [r], which holds none of their keys yet. *)
Definition parsesObject (fuel : nat) : Prop :=
  forall es first strData tok rest h r d ks stk,
    (1 + list_sum (map (fun e => S (cost (snd e))) es) <= fuel)%nat ->
    readable formatFloat formatRFC3339Nano (TObj es) ->
    fold_right (fun e P => wfTree (snd e) /\ P) True es ->
    List.NoDup (map fst es) ->
    (forall k, In k (map fst es) -> ks !! k = None) ->
    len (values d) + Z.of_nat (List.length es) < 4294967296 ->
    Err tok = false -> json tok = objectTail first es rest -> at_ strData tok ->
    stack tok = inObject :: stk ->
    h !! r = Some d -> wf_map d ks -> iterCounter d = 0 ->
    exists tok' d' ks' les new,
      let h' := <[r := d']> h ++ new in
      objectLoop fuel (Some r) tok strData h = Ok ((VDJ (Some r), tok'), h') /\
      Err tok' = false /\ json tok' = rest /\ stack tok' = stk /\
      at_ strData tok' /\
      wf_map d' ks' /\ iterCounter d' = 0 /\
      liveEntries d' = liveEntries d ++ les /\
      Forall2 (fun e f => fst e = fst f /\
                 repr formatFloat formatRFC3339Nano (List.length h) h' (snd e) (snd f))
        les es.
End Reading.

(** The two loops of [writeTo] in compact output, over what is written
    for one value. *)
Definition writeElements (element : value -> M string)
  : list value -> bool -> M string :=
  fix each (vs : list value) (first : bool) : M string :=
    match vs with
    | [] => ret ""
    | v :: vs' =>
        let* e := element v in
        let* r := each vs' false in
        ret ((if first then "" else ",") +:+ e +:+ r)
    end.

Definition writeEntries (element : value -> M string) (oks : list string)
  : list value -> nat -> bool -> M string :=
  fix each (vs : list value) (i : nat) (first : bool) : M string :=
    match vs with
    | [] => ret ""
    | v :: vs' =>
        if isDeleted v then each vs' (S i) first
        else
          let* key := index oks i in
          let* k := lift (encodeString key) in
          let* e := element v in
          let* r := each vs' (S i) false in
          ret ((if first then "" else ",") +:+ k +:+ ":" +:+ e +:+ r)
    end.

(** The two loops of [IsEqualAsString], over the comparison [same] of two
    values. *)
Definition compareElements (same : value -> value -> M bool)
    (values2 : list value) : list value -> nat -> M bool :=
  fix each (vs : list value) (i : nat) : M bool :=
    match vs with
    | [] => ret true
    | value1 :: vs' =>
        let* value2 := index values2 i in
        let* eq := same value1 value2 in
        if negb eq then ret false else each vs' (S i)
    end.

Definition compareEntries (same : value -> value -> M bool)
    (ordKeys1 : list string) (keys2 : gmap string N) (values2 : list value)
  : list value -> nat -> M bool :=
  fix each (vs : list value) (i : nat) : M bool :=
    match vs with
    | [] => ret true
    | value1 :: vs' =>
        if isDeleted value1 then each vs' (S i)
        else
          let* key1 := index ordKeys1 i in
          match keys2 !! key1 with
          | None => ret false
          | Some inx =>
              let* value2 := index values2 (N.to_nat inx) in
              let* eq := same value1 value2 in
              if negb eq then ret false else each vs' (S i)
          end
    end.

(** A map of an array and a string, and its tree. *)
Definition tripDoc : DynamicJSON :=
  appended (appended emptyMap ∅ "b" (VDJ (Some 1%nat))) {["b" := 0%N]} "a"
    (VString "hi").

Definition tripItems : DynamicJSON :=
  {| keys := None; ordKeys := []; iterCounter := 0;
     values := [VInt 1; VInt64 (-25); VBool true; VNil] |}.

Definition tripTree : tree :=
  TObj [("b", TArr [TScalar "1"; TScalar "-25"; TScalar "true"; TScalar "null"]);
        ("a", TScalar (quoted "hi"))].

(** A byte that is no UTF-8 text, and the UTF-8 encoding of U+FFFD. *)
Definition byteFF : string := String (ascii_of_nat 255) EmptyString.
Definition replacementChar : string := string_of_bytes [0xEF; 0xBF; 0xBD].

(** A map that holds itself under the key "a", at location 0. *)
Definition selfDoc : DynamicJSON :=
  {| keys := Some {["a" := 0%N]}; ordKeys := ["a"]; iterCounter := 0;
     values := [VDJ (Some 0%nat)] |}.

(** The bytes [encodeString] copies as they are: ASCII from the space on,
    without the quote, the backslash and the three HTML characters. *)
Definition plainByte (c : Z) : bool :=
  (0x20 <=? c) && (c <=? 0x7f) && negb (c =? 0x5c) && negb (c =? 0x22)
  && negb (c =? 0x3c) && negb (c =? 0x3e) && negb (c =? 0x26).

Definition plain (s : string) : bool :=
  forallb (fun c => plainByte (byte_of c)) (list_ascii_of_string s).

(** Trees of null, booleans, decimal integers and strings of plain
    characters, under keys of plain characters. *)
Definition plainText (s : string) : Prop :=
  s = "null" \/ s = "true" \/ s = "false" \/ (exists n, s = Sprint n) \/
  (exists x, plain x = true /\ s = quoted x).

Fixpoint plainTree (t : tree) : Prop :=
  match t with
  | TScalar s => plainText s
  | TArr ts => fold_right (fun t P => plainTree t /\ P) True ts
  | TObj es =>
      fold_right (fun e P => plain (fst e) = true /\ plainTree (snd e) /\ P) True es
  end.

(** ** Accessors by index and get-or-create helpers *)

(** [self.values[i]] for an int [i]: a negative index is out of range as
    much as one past the end. *)
Definition indexZ (vs : list value) (i : Z) : M value :=
  if i <? 0 then panic else index vs (Z.to_nat i).

(** func (self *DynamicJSON) NestedI: only the upper bound is tested. *)
Definition NestedI (self : option loc) (i : Z) : M (option loc) :=
  match self with
  | None => ret None
  | Some _ =>
      let* d := deref self in
      if negb (IsArray_of d) then ret None
      else if i <? len (values d) then
        let* v := indexZ (values d) i in
        match v with
        | VDJ p => ret p
        | _ => ret None
        end
      else ret None
  end.

(** func (self *DynamicJSON) GetI *)
Definition GetI (self : option loc) (i : Z) : M value :=
  match self with
  | None => ret VNil
  | Some _ =>
      let* d := deref self in
      if negb (IsArray_of d) then ret VNil
      else if i <? len (values d) then indexZ (values d) i
      else ret VNil
  end.

(** func (self *DynamicJSON) Array: the error of [set] is dropped. *)
Definition Array (self : option loc) (name : string) : M (option loc) :=
  match self with
  | None => ret None
  | Some _ =>
      let* r := get self name in
      let* found := match r with
                    | (VDJ a, true) =>
                        let* isArr := IsArray a in
                        ret (if isArr then Some a else None)
                    | _ => ret None
                    end in
      match found with
      | Some a => ret a
      | None =>
          let* x := NewArray in
          let* _ := set self name (VDJ x) in
          ret x
      end
  end.

(** func (self *DynamicJSON) Map: a nil [*DynamicJSON] is not an array, so
    it is returned as it is. *)
Definition Map (self : option loc) (name : string) : M (option loc) :=
  match self with
  | None => ret None
  | Some _ =>
      let* r := get self name in
      let* found := match r with
                    | (VDJ m, true) =>
                        let* isArr := IsArray m in
                        ret (if negb isArr then Some m else None)
                    | _ => ret None
                    end in
      match found with
      | Some m => ret m
      | None =>
          let* x := NewMap in
          let* _ := set self name (VDJ x) in
          ret x
      end
  end.

(** func (self *DynamicJSON) ArrayI *)
Definition ArrayI (self : option loc) (i : Z) : M (option loc) :=
  match self with
  | None => ret None
  | Some _ =>
      let* d := deref self in
      if negb (IsArray_of d) then Array self (Sprint i)
      else
        let* found := (if i <? len (values d) then
                         let* v := indexZ (values d) i in
                         match v with
                         | VDJ a =>
                             let* isArr := IsArray a in
                             ret (if isArr then Some a else None)
                         | _ => ret None
                         end
                       else ret None) in
        match found with
        | Some a => ret a
        | None =>
            let* x := NewArray in
            let* _ := SetI self i (VDJ x) in
            ret x
        end
  end.

(** func (self *DynamicJSON) MapI: on a receiver that is not an array the
    source calls [self.Array]. *)
Definition MapI (self : option loc) (i : Z) : M (option loc) :=
  match self with
  | None => ret None
  | Some _ =>
      let* d := deref self in
      if negb (IsArray_of d) then Array self (Sprint i)
      else
        let* found := (if i <? len (values d) then
                         let* v := indexZ (values d) i in
                         match v with
                         | VDJ m =>
                             let* isArr := IsArray m in
                             ret (if negb isArr then Some m else None)
                         | _ => ret None
                         end
                       else ret None) in
        match found with
        | Some m => ret m
        | None =>
            let* x := NewMap in
            let* _ := SetI self i (VDJ x) in
            ret x
        end
  end.

(** The value stored under a key in a list of entries. *)
Fixpoint entry (k : string) (es : list (string * value)) : option value :=
  match es with
  | [] => None
  | (k', v) :: es' => if String.eqb k' k then Some v else entry k es'
  end.

(** What [get] answers for an optional stored value. *)
Definition got (o : option value) : value * bool :=
  match o with
  | Some v => (v, true)
  | None => (VNil, false)
  end.

(** The entry [name] of the map [d] holds the Document at [a], which is an
    array ([arr = true]) or a map ([arr = false]). *)
Definition holds (h : heap) (d : DynamicJSON) (name : string) (arr : bool)
    (a : loc) : Prop :=
  exists da, entry name (liveEntries d) = Some (VDJ (Some a)) /\
             h !! a = Some da /\ IsArray_of da = arr.

(** A map whose key a holds a nil Document pointer. *)
Definition nilDoc : DynamicJSON :=
  {| keys := Some {["a" := 0%N]}; ordKeys := ["a"]; iterCounter := 0;
     values := [VDJ None] |}.

(** * Properties *)

(** ** Running the store monad *)

Lemma bind_Ok {A B} (m : M A) (f : A -> M B) h a h' :
  m h = Ok (a, h') -> bind m f h = f a h'.
Proof. unfold bind. intros ->. reflexivity. Qed.

Lemma deref_Some l h d : h !! l = Some d -> deref (Some l) h = Ok (d, h).
Proof. unfold deref. intros ->. reflexivity. Qed.

Lemma index_Some {A} (l : list A) i a h : l !! i = Some a -> index l i h = Ok (a, h).
Proof. unfold index. intros ->. reflexivity. Qed.

Ltac run :=
  repeat first
    [ progress (unfold ret, update, store, panic, lift)
    | erewrite bind_Ok by (first [ apply deref_Some; eassumption
                                 | apply index_Some; eassumption
                                 | reflexivity ])
    | progress simpl ].

(** ** key2Index *)

Lemma byte_of_range c : 0 <= byte_of c < 256.
Proof.
  unfold byte_of. pose proof (N_ascii_bounded c). lia.
Qed.

Lemma digit_wrap c :
  ((byte_of c - 48) mod 256 >? 9) = negb ((0 <=? byte_of c - 48) && (byte_of c - 48 <=? 9)).
Proof.
  pose proof (byte_of_range c) as Hc.
  destruct (Z_lt_le_dec (byte_of c) 48) as [Hlt|Hge].
  - replace ((byte_of c - 48) mod 256) with (byte_of c + 208)
      by (apply Z.mod_unique with (q := -1); lia).
    destruct (Z.gtb_spec (byte_of c + 208) 9); [|lia].
    destruct (Z.leb_spec 0 (byte_of c - 48)); [lia|reflexivity].
  - rewrite Z.mod_small by lia.
    destruct (Z.gtb_spec (byte_of c - 48) 9), (Z.leb_spec 0 (byte_of c - 48)),
      (Z.leb_spec (byte_of c - 48) 9); simpl; try reflexivity; lia.
Qed.

Lemma digit_mod c :
  (0 <=? byte_of c - 48) && (byte_of c - 48 <=? 9) = true ->
  (byte_of c - 48) mod 256 = byte_of c - 48.
Proof.
  intros H. apply andb_true_iff in H as [H1 H2].
  apply Z.leb_le in H1, H2. apply Z.mod_small. lia.
Qed.

Lemma key2Index_loop_digits s : forall n,
  key2Index_loop s n = match digits s n with Some x => x | None => -1 end.
Proof.
  induction s as [|c s IH]; intros n; simpl; [reflexivity|].
  rewrite digit_wrap.
  destruct ((0 <=? byte_of c - 48) && (byte_of c - 48 <=? 9)) eqn:E; simpl.
  - rewrite digit_mod by exact E. apply IH.
  - reflexivity.
Qed.

Lemma digits_nonneg s : forall n x, 0 <= n -> digits s n = Some x -> 0 <= x.
Proof.
  induction s as [|c s IH]; intros n x Hn; simpl.
  - intros [= <-]. exact Hn.
  - destruct ((0 <=? byte_of c - 48) && (byte_of c - 48 <=? 9)) eqn:E; [|discriminate].
    apply andb_true_iff in E as [H1 H2]. apply Z.leb_le in H1, H2.
    apply IH. lia.
Qed.

Lemma digits_allDigits s : forall n, is_Some (digits s n) <-> allDigits s = true.
Proof.
  unfold allDigits.
  induction s as [|c s IH]; intros n; simpl.
  - split; [reflexivity|]. intros _. eexists. reflexivity.
  - unfold isDigit at 1.
    replace ((48 <=? byte_of c) && (byte_of c <=? 57))
      with ((0 <=? byte_of c - 48) && (byte_of c - 48 <=? 9)).
    + destruct ((0 <=? byte_of c - 48) && (byte_of c - 48 <=? 9)); simpl.
      * apply IH.
      * split; [intros [x Hx]; discriminate | discriminate].
    + f_equal; [destruct (Z.leb_spec 0 (byte_of c - 48)), (Z.leb_spec 48 (byte_of c))
               | destruct (Z.leb_spec (byte_of c - 48) 9), (Z.leb_spec (byte_of c) 57)];
        try reflexivity; lia.
Qed.

(** [key2Index] accepts exactly the keys of one to nine decimal digits, and
    returns their value. *)
Lemma key2Index_spec s :
  (0 <= key2Index s <->
     (0 < String.length s < 10)%nat /\ allDigits s = true) /\
  (0 <= key2Index s -> digits s 0 = Some (key2Index s)) /\
  (key2Index s < 0 -> key2Index s = -1).
Proof.
  unfold key2Index. rewrite key2Index_loop_digits.
  destruct (Z.ltb_spec 0 (Z.of_nat (String.length s))) as [H1|H1];
    destruct (Z.ltb_spec (Z.of_nat (String.length s)) 10) as [H2|H2]; simpl;
    try (split; [split; [lia | intros [? _]; lia] | split; [lia | reflexivity]]).
  destruct (digits s 0) as [x|] eqn:E.
  - pose proof (digits_nonneg s 0 x ltac:(lia) E).
    split; [|split; [reflexivity | lia]].
    split; [|lia]. intros _. split; [lia|].
    apply (digits_allDigits s 0). rewrite E. eexists; reflexivity.
  - split; [|split; [lia | reflexivity]].
    split; [lia|]. intros [_ Hd].
    apply (digits_allDigits s 0) in Hd. rewrite E in Hd. destruct Hd; discriminate.
Qed.

(** ** Arrays: set by key *)

Lemma extend_length vs i : 0 <= i ->
  List.length (extend vs i) = Nat.max (List.length vs) (S (Z.to_nat i)).
Proof.
  intros Hi. unfold extend, len.
  destruct (Z.geb_spec i (Z.of_nat (List.length vs))).
  - rewrite length_app, length_replicate. lia.
  - lia.
Qed.

Lemma extend_lookup_old vs i j :
  (j < List.length vs)%nat -> extend vs i !! j = vs !! j.
Proof.
  intros Hj. unfold extend. destruct (i >=? len vs); [|reflexivity].
  apply lookup_app_l. exact Hj.
Qed.

Lemma extend_lookup_new vs i j :
  (List.length vs <= j <= Z.to_nat i)%nat -> 0 <= i -> extend vs i !! j = Some VNil.
Proof.
  intros Hj Hi. unfold extend, len.
  destruct (Z.geb_spec i (Z.of_nat (List.length vs))); [|lia].
  rewrite lookup_app_r by lia. apply lookup_replicate_2. lia.
Qed.

(** C7 (amended): on an array that is not frozen, [set] rejects with
    InvalidOperation, changing nothing, every key that [key2Index] refuses
    (the keys that are not one to nine decimal digits), and for a key of
    one to nine decimal digits with value [i] it stores the value at
    position [i], the array growing with nulls up to and including [i]. *)
Theorem set_array (h : heap) (l : loc) (d : DynamicJSON) (key : string) (v : value) :
  h !! l = Some d -> keys d = None -> 0 <= iterCounter d ->
  (0 <= key2Index key <->
     (0 < String.length key < 10)%nat /\ allDigits key = true) /\
  (key2Index key < 0 -> set (Some l) key v h = Ok (Some InvalidOperation, h)) /\
  (0 <= key2Index key ->
     digits key 0 = Some (key2Index key) /\
     let i := Z.to_nat (key2Index key) in
     exists vs',
       set (Some l) key v h = Ok (None, <[l := with_values d vs']> h) /\
       vs' !! i = Some v /\
       List.length vs' = Nat.max (List.length (values d)) (S i) /\
       (forall j, j <> i -> (j < List.length (values d))%nat ->
                  vs' !! j = values d !! j) /\
       (forall j, (List.length (values d) <= j < i)%nat -> vs' !! j = Some VNil)).
Proof.
  intros Hl Hk Hc.
  destruct (key2Index_spec key) as (Hiff & Hval & _).
  split; [exact Hiff|].
  assert (Hnf : (iterCounter d <? 0) = false) by (apply Z.ltb_ge; lia).
  split.
  - intros Hneg. unfold set. run. rewrite Hnf, Hk.
    destruct (Z.ltb_spec (key2Index key) 0); [reflexivity | lia].
  - intros Hpos. split; [auto|]. simpl.
    exists (<[Z.to_nat (key2Index key) := v]> (extend (values d) (key2Index key))).
    pose proof (extend_length (values d) _ Hpos) as Hlen.
    split; [|split; [|split; [|split]]].
    + unfold set. run. rewrite Hnf, Hk.
      destruct (Z.ltb_spec (key2Index key) 0); [lia|]. run. reflexivity.
    + apply list_lookup_insert_eq. lia.
    + rewrite length_insert. exact Hlen.
    + intros j Hj Hlt. rewrite list_lookup_insert_ne by auto.
      apply extend_lookup_old. exact Hlt.
    + intros j Hj. rewrite list_lookup_insert_ne by lia.
      apply extend_lookup_new; lia.
Qed.

Lemma set_array_witness :
  exists vs',
    set (Some 0%nat) "3" (VInt 7) [emptyArray]
      = Ok (None, [with_values emptyArray vs']) /\
    vs' !! 3%nat = Some (VInt 7) /\ List.length vs' = 4%nat.
Proof.
  destruct (set_array [emptyArray] 0%nat emptyArray "3" (VInt 7)
              eq_refl eq_refl ltac:(simpl; lia)) as (_ & _ & H).
  destruct (H ltac:(vm_compute; discriminate)) as (_ & vs' & Hs & Hi & Hlen & _).
  exists vs'. split; [exact Hs | split; [exact Hi | exact Hlen]].
Defined.

(** C7, as stated, fails: a key of ten digits parses as a non-negative
    integer, yet [set] on an array refuses it; and on a frozen array a
    numeric key is refused with FrozenError. *)
Lemma set_array_ten_digit_key :
  allDigits "1234567890" = true /\
  ParseInt "1234567890" = Some 1234567890 /\
  set (Some 0%nat) "1234567890" (VInt 1) [emptyArray]
    = Ok (Some InvalidOperation, [emptyArray]) /\
  set (Some 0%nat) "0" (VInt 1) [with_counter emptyArray (-1000)]
    = Ok (Some FrozenError, [with_counter emptyArray (-1000)]).
Proof. repeat split; vm_compute; reflexivity. Qed.

(** ** Frozen documents *)

Lemma frozen_ltb d : frozen d -> (iterCounter d <? 0) = true.
Proof. intros H. apply Z.ltb_lt. exact H. Qed.

(** The guarded mutators refuse a frozen receiver and leave the store as
    it was. *)
Lemma set_frozen h l d key v :
  h !! l = Some d -> frozen d -> set (Some l) key v h = Ok (Some FrozenError, h).
Proof.
  intros Hl Hf. unfold set. run. rewrite (frozen_ltb d Hf). reflexivity.
Qed.

Lemma SetI_frozen h l d i v :
  h !! l = Some d -> frozen d -> SetI (Some l) i v h = Ok (Some FrozenError, h).
Proof.
  intros Hl Hf. unfold SetI. run. rewrite (frozen_ltb d Hf). reflexivity.
Qed.

Lemma Delete_frozen h l d path :
  h !! l = Some d -> frozen d -> Delete (Some l) path h = Ok (Some FrozenError, h).
Proof.
  intros Hl Hf. unfold Delete. simpl. run. rewrite (frozen_ltb d Hf). reflexivity.
Qed.

Lemma Clear_frozen h l d :
  h !! l = Some d -> frozen d -> Clear (Some l) h = Ok (tt, h).
Proof.
  intros Hl Hf. unfold Clear. run. rewrite (frozen_ltb d Hf). reflexivity.
Qed.

Lemma Set_frozen h l d path v :
  h !! l = Some d -> frozen d -> Set_ (Some l) path v h = Ok (tt, h).
Proof.
  intros Hl Hf. unfold Set_, doOp, IsFrozen, bind, deref, ret.
  rewrite Hl, (frozen_ltb d Hf). reflexivity.
Qed.

(** [Append] has no such guard: on every array, frozen or not, it adds a
    slot. *)
Lemma Append_array h l d v :
  h !! l = Some d -> keys d = None ->
  Append (Some l) v h = Ok (tt, <[l := with_values d (values d ++ [v])]> h).
Proof.
  intros Hl Hk. unfold Append, IsArray_of. run. rewrite Hk. reflexivity.
Qed.

(** C1 at the failing input: a frozen array of one element.  [set], [SetI]
    and [Delete] return FrozenError and change nothing; [Append] returns
    nothing and the array, still frozen, has grown to two elements. *)
Theorem Append_on_frozen_array :
  let a := {| keys := None; ordKeys := []; iterCounter := -1000;
              values := [VInt (-1)] |} in
  set (Some 0%nat) "1" (VInt (-2)) [a] = Ok (Some FrozenError, [a]) /\
  SetI (Some 0%nat) 1 (VInt (-2)) [a] = Ok (Some FrozenError, [a]) /\
  Delete (Some 0%nat) "0" [a] = Ok (Some FrozenError, [a]) /\
  (do* Append (Some 0%nat) (VInt (-2)) in
   let* n := Len (Some 0%nat) in
   let* f := IsFrozen (Some 0%nat) in ret (n, f)) [a]
  = Ok ((2, true), [with_values a [VInt (-1); VInt (-2)]]).
Proof. repeat split; vm_compute; reflexivity. Qed.


(** ** Live entries of a slot list *)

Lemma zip_insert (oks : list string) (vs : list value) i k v :
  zip (<[i := k]> oks) (<[i := v]> vs) = <[i := (k, v)]> (zip oks vs).
Proof.
  revert vs i. induction oks as [|o oks IH]; intros [|w vs] [|i]; simpl;
    try reflexivity.
  f_equal. apply IH.
Qed.

Lemma zip_lookup (oks : list string) (vs : list value) i k v :
  oks !! i = Some k -> vs !! i = Some v -> zip oks vs !! i = Some (k, v).
Proof.
  revert vs i. induction oks as [|o oks IH]; intros [|w vs] [|i]; simpl;
    try discriminate.
  - intros [= ->] [= ->]. reflexivity.
  - apply IH.
Qed.

Lemma zip_lookup_inv (oks : list string) (vs : list value) i k v :
  zip oks vs !! i = Some (k, v) -> oks !! i = Some k /\ vs !! i = Some v.
Proof.
  revert vs i. induction oks as [|o oks IH]; intros [|w vs] [|i]; simpl;
    try discriminate.
  - intros [= -> ->]. split; reflexivity.
  - apply IH.
Qed.

Lemma zip_app_one (oks : list string) (vs : list value) k v :
  List.length oks = List.length vs ->
  zip (oks ++ [k]) (vs ++ [v]) = zip oks vs ++ [(k, v)].
Proof.
  revert vs. induction oks as [|o oks IH]; intros [|w vs]; simpl;
    try discriminate; intros H.
  - reflexivity.
  - f_equal. apply IH. lia.
Qed.

Lemma split_at {A} (l : list A) i x :
  l !! i = Some x -> l = take i l ++ x :: drop (S i) l.
Proof. intros H. symmetry. apply take_drop_middle. exact H. Qed.

Lemma insert_split {A} (l : list A) i x y :
  l !! i = Some x -> <[i := y]> l = take i l ++ y :: drop (S i) l.
Proof.
  intros H. apply insert_take_drop. apply lookup_lt_Some in H. exact H.
Qed.

Lemma keyed_tail a l : keyed (a :: l) -> keyed l.
Proof.
  intros H i j k v w Hi Hj Hv Hw.
  assert (S i = S j) by (eapply H; eauto). lia.
Qed.

Lemma In_filter_lookup (l : list (string * value)) k :
  In k (map fst (List.filter live l)) ->
  exists j w, l !! j = Some (k, w) /\ isDeleted w = false.
Proof.
  intros Hin. apply in_map_iff in Hin as ([k' w] & <- & Hin).
  apply List.filter_In in Hin as [Hin Hlive].
  apply list_elem_of_In, list_elem_of_lookup in Hin as [j Hj].
  exists j, w. split; [exact Hj|]. simpl in Hlive.
  destruct (isDeleted w); [discriminate | reflexivity].
Qed.

Lemma lookup_In_filter (l : list (string * value)) j k w :
  l !! j = Some (k, w) -> isDeleted w = false ->
  In k (map fst (List.filter live l)).
Proof.
  intros Hj Hw. apply in_map_iff. exists (k, w). split; [reflexivity|].
  apply List.filter_In. split.
  - apply list_elem_of_In, list_elem_of_lookup. eauto.
  - simpl. rewrite Hw. reflexivity.
Qed.

Lemma keyed_NoDup l : keyed l -> List.NoDup (map fst (List.filter live l)).
Proof.
  induction l as [|[k v] l IH]; intros Hk; simpl.
  - constructor.
  - specialize (IH (keyed_tail _ _ Hk)).
    destruct (isDeleted v) eqn:Ev; simpl; [exact IH|].
    constructor; [|exact IH].
    intros Hin. apply In_filter_lookup in Hin as (j & w & Hj & Hw).
    assert (O = S j) by (eapply (Hk O (S j) k v w); eauto). discriminate.
Qed.

(** ** Consequences of the map invariant *)

Lemma wf_keyed d ks : wf_map d ks -> keyed (zip (ordKeys d) (values d)).
Proof.
  intros W i j k v w Hi Hj Hv Hw.
  apply zip_lookup_inv in Hi as [Hki Hvi], Hj as [Hkj Hvj].
  destruct (wf_live d ks W i v Hvi Hv) as (k1 & Hk1 & Hi1).
  destruct (wf_live d ks W j w Hvj Hw) as (k2 & Hk2 & Hj2).
  assert (k1 = k) by congruence. assert (k2 = k) by congruence. subst.
  rewrite Hi1 in Hj2. injection Hj2 as Heq. lia.
Qed.

Lemma wf_NoDup d ks : wf_map d ks -> List.NoDup (liveKeys d).
Proof. intros W. apply keyed_NoDup. eapply wf_keyed. exact W. Qed.

Lemma wf_In d ks k : wf_map d ks -> In k (liveKeys d) <-> is_Some (ks !! k).
Proof.
  intros W. split.
  - intros Hin. apply In_filter_lookup in Hin as (j & w & Hj & Hw).
    apply zip_lookup_inv in Hj as [Hkj Hvj].
    destruct (wf_live d ks W j w Hvj Hw) as (k' & Hk' & Hs).
    assert (k' = k) by congruence. subst. eauto.
  - intros [inx Hinx].
    destruct (wf_index d ks W k inx Hinx) as (Hk & v & Hv & Hlive).
    eapply lookup_In_filter; [apply zip_lookup; eassumption | exact Hlive].
Qed.

Lemma wf_size d ks : wf_map d ks -> size ks = List.length (liveKeys d).
Proof.
  intros W.
  rewrite <- size_dom.
  assert (Hdom : dom ks = list_to_set (liveKeys d)).
  { apply set_eq. intros k. rewrite elem_of_dom, elem_of_list_to_set.
    rewrite list_elem_of_In. symmetry. apply wf_In. exact W. }
  rewrite Hdom. apply size_list_to_set.
  apply NoDup_ListNoDup. eapply wf_NoDup. exact W.
Qed.

Lemma Keys_loop_spec vs : forall i oks,
  (i + List.length vs <= List.length oks)%nat ->
  Keys_loop vs i oks
  = Some (map fst (List.filter live (zip (drop i oks) vs))).
Proof.
  induction vs as [|v vs IH]; intros i oks Hlen; simpl.
  - destruct (drop i oks); reflexivity.
  - simpl in Hlen.
    destruct (lookup_lt_is_Some_2 oks i ltac:(lia)) as [k Hk].
    rewrite (drop_S _ _ _ Hk). simpl.
    rewrite IH by lia.
    destruct (isDeleted v); simpl; [reflexivity|].
    rewrite Hk. reflexivity.
Qed.

Lemma Keys_map h l d ks :
  h !! l = Some d -> keys d = Some ks ->
  List.length (ordKeys d) = List.length (values d) ->
  Keys (Some l) h = Ok (liveKeys d, h).
Proof.
  intros Hl Hk Hlen. unfold Keys. run. rewrite Hk.
  rewrite Keys_loop_spec by (simpl; lia). reflexivity.
Qed.

Lemma Len_map h l d ks :
  h !! l = Some d -> wf_map d ks -> Len (Some l) h = Ok (len (liveKeys d), h).
Proof.
  intros Hl W. unfold Len. run. rewrite (wf_keys d ks W).
  unfold ret, len. rewrite (wf_size d ks W). reflexivity.
Qed.

(** ** Compaction *)

Lemma number_from_notin l : forall j m k,
  ~ In k l -> number_from l j m !! k = m !! k.
Proof.
  induction l as [|a l IH]; intros j m k Hn; simpl; [reflexivity|].
  rewrite IH by (intros H; apply Hn; right; exact H).
  apply lookup_insert_ne. intros ->. apply Hn. left. reflexivity.
Qed.

Lemma number_from_in l : forall j m k p,
  List.NoDup l -> l !! p = Some k ->
  number_from l j m !! k = Some (j + N.of_nat p)%N.
Proof.
  induction l as [|a l IH]; intros j m k p Hnd Hp; [discriminate|].
  inversion Hnd as [|? ? Ha Hnd']; subst.
  destruct p as [|p]; simpl in *.
  - injection Hp as ->. rewrite number_from_notin by exact Ha.
    rewrite lookup_insert_eq. f_equal. lia.
  - rewrite (IH _ _ k p Hnd' Hp). f_equal. lia.
Qed.

Lemma number_from_dom l j m :
  (forall k, is_Some (m !! k) -> In k l) -> List.NoDup l ->
  number_from l j m = number_from l j ∅.
Proof.
  intros Hdom Hnd. apply map_eq. intros k.
  destruct (in_dec string_dec k l) as [Hin|Hout].
  - apply list_elem_of_In, list_elem_of_lookup in Hin as [p Hp].
    rewrite !(number_from_in l j _ k p Hnd Hp). reflexivity.
  - rewrite !number_from_notin by exact Hout.
    rewrite lookup_empty. destruct (m !! k) eqn:E; [|reflexivity].
    exfalso. apply Hout, Hdom. eauto.
Qed.

(** The dense index maps every key to its position, and nothing else. *)
Lemma index_of_lookup l k p :
  List.NoDup l -> index_of l !! k = Some p <-> l !! N.to_nat p = Some k.
Proof.
  intros Hnd. unfold index_of. split.
  - intros H. destruct (in_dec string_dec k l) as [Hin|Hout].
    + apply list_elem_of_In, list_elem_of_lookup in Hin as [q Hq].
      rewrite (number_from_in l 0%N ∅ k q Hnd Hq) in H.
      injection H as <-. replace (N.to_nat (0 + N.of_nat q)) with q by lia.
      exact Hq.
    + rewrite number_from_notin in H by exact Hout. rewrite lookup_empty in H.
      discriminate.
  - intros H. rewrite (number_from_in l 0%N ∅ k _ Hnd H). f_equal. lia.
Qed.

Lemma take_insert_S {A} (l : list A) j x :
  (j < List.length l)%nat -> take (S j) (<[j := x]> l) = take j l ++ [x].
Proof.
  revert j. induction l as [|a l IH]; intros [|j] H; simpl in *; try lia.
  - destruct l; reflexivity.
  - f_equal. apply IH. lia.
Qed.

Lemma drop_insert_past {A} (l : list A) j n x :
  (j < n)%nat -> drop n (<[j := x]> l) = drop n l.
Proof.
  revert j n. induction l as [|a l IH]; intros [|j] [|n] H; simpl; try lia;
    try reflexivity.
  apply IH. lia.
Qed.

Lemma take_insert_before {A} (l : list A) j n x :
  (n <= j)%nat -> take n (<[j := x]> l) = take n l.
Proof.
  revert j n. induction l as [|a l IH]; intros [|j] [|n] H; simpl; try lia;
    try reflexivity.
  f_equal. apply IH. lia.
Qed.

Lemma packing_loop_spec vs : forall i oks nv nk ks j,
  let E := List.filter live (zip (drop i oks) vs) in
  (i + List.length vs <= List.length oks)%nat ->
  (N.to_nat j + List.length E <= List.length nv)%nat ->
  List.length nk = List.length nv ->
  Z.of_nat (List.length nv) < 4294967296 ->
  packing_loop vs i oks nv nk ks j
  = Some (take (N.to_nat j) nv ++ map snd E
            ++ drop (N.to_nat j + List.length E) nv,
          take (N.to_nat j) nk ++ map fst E
            ++ drop (N.to_nat j + List.length E) nk,
          number_from (map fst E) j ks).
Proof.
  induction vs as [|v vs IH]; intros i oks nv nk ks j E Hoks Hnv Hnk Hsmall.
  - subst E. replace (zip (drop i oks) []) with (@nil (string * value))
      by (destruct (drop i oks); reflexivity).
    simpl. rewrite Nat.add_0_r, !take_drop. reflexivity.
  - simpl in Hoks.
    destruct (lookup_lt_is_Some_2 oks i ltac:(lia)) as [k Hk].
    subst E. rewrite (drop_S _ _ _ Hk) in *. simpl in *.
    destruct (isDeleted v) eqn:Ev; simpl in *.
    + apply IH; auto; lia.
    + destruct (lookup_lt_is_Some_2 nv (N.to_nat j) ltac:(lia)) as [x Hx].
      destruct (lookup_lt_is_Some_2 nk (N.to_nat j) ltac:(lia)) as [y Hy].
      rewrite Hx, Hk, Hy.
      assert (Hj : uint32 (j + 1) = (j + 1)%N).
      { unfold uint32. apply N.mod_small. lia. }
      rewrite Hj.
      rewrite IH by (rewrite ?length_insert; lia).
      replace (N.to_nat (j + 1)) with (S (N.to_nat j)) by lia.
      rewrite !take_insert_S by lia.
      rewrite !drop_insert_past by lia.
      rewrite <- !app_assoc. simpl.
      rewrite ?Nat.add_succ_r, ?Nat.add_succ_l.
      reflexivity.
Qed.

Lemma lookup_map {A B} (f : A -> B) (l : list A) i :
  map f l !! i = option_map f (l !! i).
Proof.
  revert i. induction l as [|a l IH]; intros [|i]; simpl; try reflexivity.
  apply IH.
Qed.

Lemma zip_fst_snd {A B} (l : list (A * B)) : zip (map fst l) (map snd l) = l.
Proof. induction l as [|[a b] l IH]; simpl; [reflexivity | f_equal; exact IH]. Qed.

Lemma filter_live_id (l : list (string * value)) :
  List.filter live (List.filter live l) = List.filter live l.
Proof.
  induction l as [|[k v] l IH]; simpl; [reflexivity|].
  destruct (isDeleted v) eqn:E; simpl; [exact IH|]. rewrite E. simpl.
  f_equal. exact IH.
Qed.

Lemma liveEntries_live d k v : In (k, v) (liveEntries d) -> isDeleted v = false.
Proof.
  intros H. apply List.filter_In in H as [_ H]. simpl in H.
  destruct (isDeleted v); [discriminate | reflexivity].
Qed.

Lemma liveEntries_compacted d : liveEntries (compacted d) = liveEntries d.
Proof.
  unfold liveEntries at 1, compacted, liveKeys, liveValues. simpl.
  rewrite zip_fst_snd. apply filter_live_id.
Qed.

Lemma length_liveEntries d :
  (List.length (liveEntries d) <= List.length (values d))%nat.
Proof.
  unfold liveEntries.
  etransitivity; [apply List.filter_length_le|].
  rewrite length_zip. lia.
Qed.

Lemma wf_compacted d ks :
  wf_map d ks -> wf_map (compacted d) (index_of (liveKeys d)).
Proof.
  intros W. pose proof (wf_NoDup d ks W) as Hnd.
  pose proof (length_liveEntries d) as Hle. pose proof (wf_small d ks W) as Hs.
  unfold len in Hs.
  constructor; simpl.
  - reflexivity.
  - unfold liveKeys, liveValues. rewrite !length_map. reflexivity.
  - unfold len, liveValues. rewrite length_map. lia.
  - intros k inx H. apply index_of_lookup in H; [|exact Hnd].
    split; [exact H|].
    unfold liveKeys, liveValues in *. rewrite lookup_map in H. rewrite lookup_map.
    destruct (liveEntries d !! N.to_nat inx) as [[k' v]|] eqn:E;
      simpl in *; [|discriminate].
    exists v. split; [reflexivity|].
    apply (liveEntries_live d k'). apply list_elem_of_In, list_elem_of_lookup. eauto.
  - intros i v Hv _. unfold liveKeys, liveValues in *. rewrite lookup_map in Hv.
    rewrite lookup_map.
    destruct (liveEntries d !! i) as [[k v']|] eqn:E;
      simpl in *; [|discriminate].
    exists k. split; [reflexivity|].
    apply index_of_lookup; [exact Hnd|].
    rewrite Nat2N.id. unfold liveKeys. rewrite lookup_map, E. reflexivity.
Qed.

Lemma packing_rebuild d ks :
  wf_map d ks ->
  packing_loop (values d) 0 (ordKeys d)
    (replicate (size ks) VNil) (replicate (size ks) "") ks 0%N
  = Some (liveValues d, liveKeys d, index_of (liveKeys d)).
Proof.
  intros W.
  pose proof (wf_size d ks W) as Hsz. pose proof (wf_len d ks W) as Hlen.
  pose proof (length_liveEntries d) as Hle. pose proof (wf_small d ks W) as Hs.
  unfold len in Hs. unfold liveKeys in Hsz. rewrite length_map in Hsz.
  rewrite packing_loop_spec; rewrite ?length_replicate; simpl; try lia.
  - rewrite !drop_0. fold (liveEntries d).
    rewrite <- Hsz, !drop_replicate, Nat.sub_diag. simpl.
    rewrite !app_nil_r. fold (liveKeys d) (liveValues d).
    f_equal. f_equal. unfold index_of.
    apply number_from_dom; [|eapply wf_NoDup; exact W].
    intros k Hk. apply (wf_In d ks k W). exact Hk.
  - rewrite drop_0. fold (liveEntries d). lia.
Qed.

(** C4: [packing] rebuilds the storage of a map exactly when its counter
    is zero, it has at least 128 slots and its live keys are fewer than a
    third of the slots; otherwise it changes nothing.  The rebuilt map holds
    the live entries in their order and no tombstone, and its index sends
    every live key to its new slot. *)
Theorem packing_spec (h : heap) (l : loc) (d : DynamicJSON) (ks : gmap string N) :
  h !! l = Some d -> wf_map d ks ->
  let due := iterCounter d = 0 /\ 128 <= len (values d)
             /\ 3 * len (liveKeys d) < len (values d) in
  (due -> packing (Some l) h = Ok (tt, <[l := compacted d]> h)) /\
  (~ due -> packing (Some l) h = Ok (tt, h)) /\
  liveEntries (compacted d) = liveEntries d /\
  zip (ordKeys (compacted d)) (values (compacted d)) = liveEntries d /\
  (forall v, In v (values (compacted d)) -> isDeleted v = false) /\
  (forall k p, index_of (liveKeys d) !! k = Some p <->
               ordKeys (compacted d) !! N.to_nat p = Some k) /\
  wf_map (compacted d) (index_of (liveKeys d)).
Proof.
  intros Hl W due.
  pose proof (wf_size d ks W) as Hsz.
  assert (Hrun : packing (Some l) h
                 = Ok (tt, if (iterCounter d =? 0) && packing_due d ks
                           then <[l := compacted d]> h else h)).
  { unfold packing. run. destruct (iterCounter d =? 0); simpl; [|reflexivity].
    rewrite (wf_keys d ks W). destruct (packing_due d ks); [|reflexivity].
    rewrite (packing_rebuild d ks W). reflexivity. }
  assert (Hdue : (iterCounter d =? 0) && packing_due d ks = true <-> due).
  { unfold due, packing_due, len in *. rewrite Hsz.
    rewrite !andb_true_iff, Z.eqb_eq, Z.geb_le, Z.ltb_lt. lia. }
  split; [|split; [|split; [|split; [|split; [|split]]]]].
  - intros H. rewrite Hrun. apply Hdue in H. rewrite H. reflexivity.
  - intros H. rewrite Hrun.
    destruct ((iterCounter d =? 0) && packing_due d ks); [|reflexivity].
    exfalso. apply H, Hdue. reflexivity.
  - apply liveEntries_compacted.
  - simpl. apply zip_fst_snd.
  - simpl. intros v Hin. unfold liveValues in Hin.
    apply in_map_iff in Hin as ([k v'] & <- & Hin). simpl.
    eapply liveEntries_live. exact Hin.
  - intros k p. simpl. apply index_of_lookup. eapply wf_NoDup. exact W.
  - apply (wf_compacted d ks W).
Qed.

(** ** Writing, overwriting and tombstoning one slot of a map *)

Lemma liveEntries_appended d ks k v :
  List.length (ordKeys d) = List.length (values d) -> isDeleted v = false ->
  liveEntries (appended d ks k v) = liveEntries d ++ [(k, v)].
Proof.
  intros Hlen Hv. unfold liveEntries, appended. simpl.
  rewrite zip_app_one by exact Hlen. rewrite List.filter_app. simpl.
  rewrite Hv. reflexivity.
Qed.

Lemma wf_appended d ks k v :
  wf_map d ks -> ks !! k = None -> isDeleted v = false ->
  len (values d) + 1 < 4294967296 ->
  wf_map (appended d ks k v)
    (<[k := uint32 (N.of_nat (List.length (values d)))]> ks).
Proof.
  intros W Hk Hv Hs. unfold len in Hs.
  assert (Hu : uint32 (N.of_nat (List.length (values d)))
               = N.of_nat (List.length (values d))).
  { unfold uint32. apply N.mod_small. lia. }
  pose proof (wf_len d ks W) as Hlen.
  rewrite Hu. constructor; simpl.
  - rewrite Hu. reflexivity.
  - rewrite !length_app. simpl. lia.
  - unfold len. rewrite length_app. simpl. lia.
  - intros k' inx H. destruct (decide (k = k')) as [<-|Hne].
    + rewrite lookup_insert_eq in H. injection H as <-. rewrite Nat2N.id.
      split.
      * rewrite lookup_app_r by lia. rewrite Hlen, Nat.sub_diag. reflexivity.
      * exists v. split; [|exact Hv].
        rewrite lookup_app_r by lia. rewrite Nat.sub_diag. reflexivity.
    + rewrite lookup_insert_ne in H by exact Hne.
      destruct (wf_index d ks W k' inx H) as (Ho & x & Hx & Hlive).
      split; [apply lookup_app_l_Some; exact Ho|].
      exists x. split; [apply lookup_app_l_Some; exact Hx | exact Hlive].
  - intros i x Hx Hlive.
    destruct (Nat.lt_ge_cases i (List.length (values d))) as [Hlt|Hge].
    + rewrite lookup_app_l in Hx by exact Hlt.
      destruct (wf_live d ks W i x Hx Hlive) as (k' & Ho & Hi).
      exists k'. split; [apply lookup_app_l_Some; exact Ho|].
      rewrite lookup_insert_ne; [exact Hi|]. intros ->. congruence.
    + pose proof (lookup_lt_Some _ _ _ Hx) as Hb. rewrite length_app in Hb.
      simpl in Hb. assert (i = List.length (values d)) by lia. subst i.
      exists k. split.
      * rewrite lookup_app_r by lia. rewrite Hlen, Nat.sub_diag. reflexivity.
      * apply lookup_insert_eq.
Qed.

Lemma live_split (l : list (string * value)) i k v0 :
  l !! i = Some (k, v0) -> isDeleted v0 = false ->
  List.filter live l
  = List.filter live (take i l) ++ (k, v0) :: List.filter live (drop (S i) l) /\
  forall x, List.filter live (<[i := x]> l)
            = List.filter live (take i l) ++ List.filter live [x]
                ++ List.filter live (drop (S i) l).
Proof.
  intros Hi Hv0. split.
  - rewrite (split_at l i (k, v0) Hi) at 1.
    rewrite List.filter_app. simpl. rewrite Hv0. reflexivity.
  - intros x. rewrite (insert_split l i (k, v0) x Hi).
    rewrite List.filter_app. f_equal.
    change (x :: drop (S i) l) with ([x] ++ drop (S i) l).
    apply List.filter_app.
Qed.

Lemma NoDup_middle (A B : list (string * value)) k v0 :
  List.NoDup (map fst (A ++ (k, v0) :: B)) ->
  forall p, In p A \/ In p B -> fst p <> k.
Proof.
  intros Hnd p Hp Heq. rewrite map_app in Hnd. simpl in Hnd.
  apply List.NoDup_remove_2 in Hnd. apply Hnd, in_or_app.
  destruct Hp as [Hp|Hp]; [left|right]; rewrite <- Heq; apply in_map; exact Hp.
Qed.

Lemma replace_value_other k v es :
  (forall p, In p es -> fst p <> k) -> replace_value k v es = es.
Proof.
  intros H. unfold replace_value. induction es as [|p es IH]; simpl; [reflexivity|].
  rewrite IH by (intros q Hq; apply H; right; exact Hq).
  destruct (String.eqb_spec (fst p) k) as [E|E]; [|reflexivity].
  exfalso. apply (H p); [left; reflexivity | exact E].
Qed.

Lemma remove_key_other k es :
  (forall p, In p es -> fst p <> k) -> remove_key k es = es.
Proof.
  intros H. unfold remove_key. induction es as [|p es IH]; simpl; [reflexivity|].
  rewrite IH by (intros q Hq; apply H; right; exact Hq).
  destruct (String.eqb_spec (fst p) k) as [E|E]; [|reflexivity].
  exfalso. apply (H p); [left; reflexivity | exact E].
Qed.

Lemma wf_slot d ks k inx :
  wf_map d ks -> ks !! k = Some inx ->
  exists v0, zip (ordKeys d) (values d) !! N.to_nat inx = Some (k, v0)
             /\ isDeleted v0 = false.
Proof.
  intros W H. destruct (wf_index d ks W k inx H) as (Ho & v0 & Hv & Hlive).
  exists v0. split; [apply zip_lookup; assumption | exact Hlive].
Qed.

Lemma liveEntries_overwritten d ks k inx v :
  wf_map d ks -> ks !! k = Some inx -> isDeleted v = false ->
  liveEntries (overwritten d ks inx k v) = replace_value k v (liveEntries d).
Proof.
  intros W H Hv. destruct (wf_slot d ks k inx W H) as (v0 & Hz & Hv0).
  pose proof (wf_NoDup d ks W) as Hnd. unfold liveKeys in Hnd.
  unfold liveEntries in *. simpl. rewrite zip_insert.
  destruct (live_split _ _ _ _ Hz Hv0) as [Hold Hnew].
  rewrite Hnew, Hold. rewrite Hold in Hnd. simpl. rewrite Hv. simpl.
  pose proof (NoDup_middle _ _ _ _ Hnd) as Hother.
  unfold replace_value. rewrite map_app. simpl. rewrite String.eqb_refl.
  fold (replace_value k v (List.filter live (take (N.to_nat inx) (zip (ordKeys d) (values d))))).
  fold (replace_value k v (List.filter live (drop (S (N.to_nat inx)) (zip (ordKeys d) (values d))))).
  rewrite !replace_value_other by (intros p Hp; apply Hother; auto).
  reflexivity.
Qed.

Lemma liveEntries_tombstoned d ks k inx :
  wf_map d ks -> ks !! k = Some inx ->
  liveEntries (tombstoned d ks inx k) = remove_key k (liveEntries d).
Proof.
  intros W H. destruct (wf_slot d ks k inx W H) as (v0 & Hz & Hv0).
  pose proof (wf_NoDup d ks W) as Hnd. unfold liveKeys in Hnd.
  apply zip_lookup_inv in Hz as Hz'. destruct Hz' as [Ho _].
  unfold liveEntries in *. simpl.
  rewrite <- (list_insert_id (ordKeys d) (N.to_nat inx) k Ho) at 1.
  rewrite zip_insert.
  destruct (live_split _ _ _ _ Hz Hv0) as [Hold Hnew].
  rewrite Hnew, Hold. rewrite Hold in Hnd. simpl.
  pose proof (NoDup_middle _ _ _ _ Hnd) as Hother.
  unfold remove_key. rewrite List.filter_app. simpl. rewrite String.eqb_refl. simpl.
  fold (remove_key k (List.filter live (take (N.to_nat inx) (zip (ordKeys d) (values d))))).
  fold (remove_key k (List.filter live (drop (S (N.to_nat inx)) (zip (ordKeys d) (values d))))).
  rewrite !remove_key_other by (intros p Hp; apply Hother; auto).
  reflexivity.
Qed.

Lemma wf_overwritten d ks k inx v :
  wf_map d ks -> ks !! k = Some inx -> isDeleted v = false ->
  wf_map (overwritten d ks inx k v) ks.
Proof.
  intros W H Hv.
  destruct (wf_index d ks W k inx H) as (Ho & v0 & Hv0 & Hlive0).
  constructor; simpl.
  - reflexivity.
  - rewrite !length_insert. apply (wf_len d ks W).
  - unfold len. rewrite length_insert. apply (wf_small d ks W).
  - intros k' inx' H'. rewrite (list_insert_id _ _ _ Ho).
    destruct (wf_index d ks W k' inx' H') as (Ho' & x & Hx & Hlive).
    split; [exact Ho'|].
    destruct (decide (N.to_nat inx = N.to_nat inx')) as [E|E].
    + exists v. rewrite <- E. split; [|exact Hv].
      apply list_lookup_insert_eq. eapply lookup_lt_Some. exact Hv0.
    + exists x. rewrite list_lookup_insert_ne by exact E. auto.
  - intros i x Hx Hlive. rewrite (list_insert_id _ _ _ Ho).
    destruct (decide (N.to_nat inx = i)) as [<-|E].
    + exists k. split; [exact Ho|]. rewrite N2Nat.id. exact H.
    + rewrite list_lookup_insert_ne in Hx by exact E.
      apply (wf_live d ks W i x Hx Hlive).
Qed.

Lemma wf_tombstoned d ks k inx :
  wf_map d ks -> ks !! k = Some inx ->
  wf_map (tombstoned d ks inx k) (delete k ks).
Proof.
  intros W H.
  destruct (wf_index d ks W k inx H) as (Ho & v0 & Hv0 & Hlive0).
  constructor; simpl.
  - reflexivity.
  - rewrite length_insert. apply (wf_len d ks W).
  - unfold len. rewrite length_insert. apply (wf_small d ks W).
  - intros k' inx' H'.
    apply lookup_delete_Some in H' as [Hne H'].
    destruct (wf_index d ks W k' inx' H') as (Ho' & x & Hx & Hlive).
    split; [exact Ho'|]. exists x. split; [|exact Hlive].
    rewrite list_lookup_insert_ne; [exact Hx|].
    intros E. rewrite E in Ho. congruence.
  - intros i x Hx Hlive.
    destruct (decide (N.to_nat inx = i)) as [<-|E].
    + rewrite list_lookup_insert_eq in Hx by (eapply lookup_lt_Some; exact Hv0).
      injection Hx as <-. discriminate.
    + rewrite list_lookup_insert_ne in Hx by exact E.
      destruct (wf_live d ks W i x Hx Hlive) as (k' & Ho' & Hi).
      exists k'. split; [exact Ho'|].
      rewrite lookup_delete_ne; [exact Hi|].
      intros <-. rewrite H in Hi. injection Hi as ->. apply E. lia.
Qed.

Lemma unfrozen_ltb d : ~ frozen d -> (iterCounter d <? 0) = false.
Proof. unfold frozen. intros H. apply Z.ltb_ge. lia. Qed.

(** What [set] does to a map that is not frozen. *)
Lemma set_map_fresh h l d ks k v :
  h !! l = Some d -> keys d = Some ks -> ~ frozen d -> ks !! k = None ->
  set (Some l) k v h = Ok (None, <[l := appended d ks k v]> h).
Proof.
  intros Hl Hk Hf Hn. unfold set. run.
  rewrite (unfrozen_ltb d Hf), Hk, Hn. reflexivity.
Qed.

Lemma set_map_present h l d ks k inx v :
  h !! l = Some d -> wf_map d ks -> ~ frozen d -> ks !! k = Some inx ->
  set (Some l) k v h = Ok (None, <[l := overwritten d ks inx k v]> h).
Proof.
  intros Hl W Hf Hs. unfold set. run.
  destruct (wf_index d ks W k inx Hs) as (Ho & v0 & Hv0 & _).
  rewrite (unfrozen_ltb d Hf), (wf_keys d ks W), Hs. run. reflexivity.
Qed.

Lemma IndexByte_neg_ge s c : (IndexByte s c >=? 0) = negb (IndexByte s c <? 0).
Proof.
  destruct (Z.geb_spec (IndexByte s c) 0), (Z.ltb_spec (IndexByte s c) 0);
    simpl; try reflexivity; lia.
Qed.

Lemma insert_insert_same {A} (l : list A) i x y :
  <[i := y]> (<[i := x]> l) = <[i := y]> l.
Proof. apply list_insert_insert_eq. Qed.

Lemma due_dec d :
  let due := iterCounter d = 0 /\ 128 <= len (values d)
             /\ 3 * len (liveKeys d) < len (values d) in
  due \/ ~ due.
Proof. simpl. lia. Qed.

Opaque packing.

(** What [Delete] of a present key (a single path segment) does to a map
    that is not frozen: the slot becomes a tombstone, then [packing] has
    its chance. *)
Lemma Delete_map_present h l d ks k inx :
  h !! l = Some d -> wf_map d ks -> ~ frozen d -> IndexByte k "/" < 0 ->
  ks !! k = Some inx ->
  exists d',
    Delete (Some l) k h = Ok (None, <[l := d']> h) /\
    (d' = tombstoned d ks inx k \/ d' = compacted (tombstoned d ks inx k)) /\
    liveEntries d' = remove_key k (liveEntries d) /\
    iterCounter d' = iterCounter d /\
    exists ks', wf_map d' ks'.
Proof.
  intros Hl W Hf Hp Hs.
  destruct (wf_index d ks W k inx Hs) as (Ho & v0 & Hv0 & _).
  pose proof (wf_tombstoned d ks k inx W Hs) as W1.
  set (d1 := tombstoned d ks inx k) in *.
  set (h1 := <[l := d1]> h).
  assert (Hl1 : h1 !! l = Some d1).
  { apply list_lookup_insert_eq. eapply lookup_lt_Some. exact Hl. }
  destruct (packing_spec h1 l d1 _ Hl1 W1) as (Hdue & Hnot & Hlive & _ & _ & _ & W2).
  assert (Hrun : forall r, packing (Some l) h1 = Ok (tt, r) ->
                 Delete (Some l) k h = Ok (None, r)).
  { intros r Hr. unfold Delete. simpl. run.
    rewrite (unfrozen_ltb d Hf), IndexByte_neg_ge.
    destruct (Z.ltb_spec (IndexByte k "/") 0); [|lia]. simpl.
    rewrite (wf_keys d ks W), Hs. run.
    erewrite bind_Ok by exact Hr. reflexivity. }
  destruct (due_dec d1) as [D|D].
  - exists (compacted d1). split; [|split; [right; reflexivity|split; [|split]]].
    + rewrite (Hrun _ (Hdue D)). unfold h1. rewrite insert_insert_same. reflexivity.
    + rewrite Hlive. apply liveEntries_tombstoned; assumption.
    + reflexivity.
    + eexists. exact W2.
  - exists d1. split; [|split; [left; reflexivity|split; [|split]]].
    + rewrite (Hrun _ (Hnot D)). reflexivity.
    + apply liveEntries_tombstoned; assumption.
    + reflexivity.
    + eexists. exact W1.
Qed.

Transparent packing.

(** ** Iteration order *)

Lemma Iterate_map_pure {Acc} (f : string -> value -> Acc -> bool * Acc)
    h l d fuel : forall i acc,
  h !! l = Some d ->
  List.length (ordKeys d) = List.length (values d) ->
  (List.length (values d) - i < fuel)%nat ->
  Iterate_map (fun k v a => ret (f k v a)) fuel (Some l) i acc h
  = Ok (visit_entries f
          (List.filter live (drop i (zip (ordKeys d) (values d)))) acc, h).
Proof.
  induction fuel as [|fuel IH]; intros i acc Hl Hlen Hfuel; [lia|].
  simpl. run.
  destruct (values d !! i) as [v|] eqn:Hv.
  - pose proof (lookup_lt_Some _ _ _ Hv) as Hi.
    destruct (lookup_lt_is_Some_2 (ordKeys d) i ltac:(lia)) as [k Hk].
    rewrite (drop_S _ _ _ (zip_lookup _ _ _ _ _ Hk Hv)). simpl.
    destruct (isDeleted v); simpl.
    + apply IH; auto; lia.
    + run. unfold bind, ret. simpl.
      destruct (f k v acc) as [[|] acc']; simpl; [|reflexivity].
      apply IH; auto; lia.
  - apply lookup_ge_None in Hv.
    rewrite drop_ge by (rewrite length_zip; lia). reflexivity.
Qed.

Lemma with_counter_back d c :
  with_counter (with_counter d (c + 1)) (c + 1 - 1) = with_counter d c.
Proof. unfold with_counter. simpl. f_equal. lia. Qed.

Lemma with_counter_same d : with_counter d (iterCounter d) = d.
Proof. destruct d. reflexivity. Qed.

Opaque packing.

(** [Iterate] on a map runs the callback over the live entries in storage
    order, until the callback stops it, and leaves the store as it was
    when the callback does not write. *)
Lemma Iterate_map_order {Acc} (f : string -> value -> Acc -> bool * Acc)
    h l d ks fuel acc :
  h !! l = Some d -> wf_map d ks -> (List.length (values d) < fuel)%nat ->
  Iterate (fun k v a => ret (f k v a)) fuel (Some l) acc h
  = Ok (visit_entries f (liveEntries d) acc, h).
Proof.
  intros Hl W Hfuel. pose proof (wf_len d ks W) as Hlen.
  unfold Iterate. run. unfold IsArray_of. rewrite (wf_keys d ks W).
  destruct (Z.geb_spec (iterCounter d) 0) as [Hc|Hc]; run.
  - set (d1 := with_counter d (iterCounter d + 1)).
    set (h1 := <[l := d1]> h).
    assert (Hl1 : h1 !! l = Some d1).
    { apply list_lookup_insert_eq. eapply lookup_lt_Some. exact Hl. }
    erewrite bind_Ok
      by (apply (Iterate_map_pure f h1 l d1 fuel 0 acc Hl1); simpl; auto; lia).
    assert (Hp : packing (Some l) h1 = Ok (tt, h1)).
    { Transparent packing. unfold packing. run.
      destruct (Z.eqb_spec (iterCounter d + 1) 0); [lia|]. reflexivity. }
    erewrite bind_Ok by exact Hp.
    unfold bind, deref, ret, update, store. rewrite Hl1.
    unfold h1, d1. simpl iterCounter. rewrite list_insert_insert_eq.
    rewrite with_counter_back, with_counter_same, list_insert_id by exact Hl.
    rewrite drop_0. reflexivity.
  - erewrite bind_Ok
      by (apply (Iterate_map_pure f h l d fuel 0 acc Hl); simpl; auto; lia).
    assert (Hp : packing (Some l) h = Ok (tt, h)).
    { unfold packing. run.
      destruct (Z.eqb_spec (iterCounter d) 0); [lia|]. reflexivity. }
    erewrite bind_Ok by exact Hp. run. rewrite drop_0. reflexivity.
Qed.

Transparent packing.

Lemma map_fst_replace_value k v es : map fst (replace_value k v es) = map fst es.
Proof.
  unfold replace_value. induction es as [|p es IH]; simpl; [reflexivity|].
  rewrite IH. destruct (String.eqb_spec (fst p) k) as [->|]; reflexivity.
Qed.

Lemma remove_key_gone k es : ~ In k (map fst (remove_key k es)).
Proof.
  unfold remove_key. intros H. apply in_map_iff in H as (p & <- & Hp).
  apply List.filter_In in Hp as [_ Hp].
  rewrite String.eqb_refl in Hp. discriminate.
Qed.

Lemma wf_emptyMap : wf_map emptyMap ∅.
Proof.
  constructor; simpl; try reflexivity.
  - intros k inx H. rewrite lookup_empty in H. discriminate.
  - intros i v H. destruct i; discriminate.
Qed.

(** C6: a map is iterated in the insertion order of its live keys.  [Keys]
    and [Iterate] meet the live entries in storage order; [set] of a new
    key adds it at the end; [set] of a present key rewrites its value in
    place and keeps the order; [Delete] takes the key out and keeps the
    order of the others, so that setting it again places it last.  So,
    from an empty map, inserting a, b, c and updating b leaves the order
    a, b, c, and deleting b then setting it again gives a, c, b. *)
Theorem map_order (h : heap) (l : loc) (d : DynamicJSON) (ks : gmap string N)
    (k : string) (v : value) :
  h !! l = Some d -> wf_map d ks -> ~ frozen d -> isDeleted v = false ->
  IndexByte k "/" < 0 -> len (values d) + 1 < 4294967296 ->
  Keys (Some l) h = Ok (liveKeys d, h) /\
  (forall (f : string -> value -> list string -> bool * list string) fuel acc,
     (List.length (values d) < fuel)%nat ->
     Iterate (fun k v a => ret (f k v a)) fuel (Some l) acc h
     = Ok (visit_entries f (liveEntries d) acc, h)) /\
  (ks !! k = None ->
     exists d', set (Some l) k v h = Ok (None, <[l := d']> h) /\
                liveEntries d' = liveEntries d ++ [(k, v)]) /\
  (is_Some (ks !! k) ->
     exists d', set (Some l) k v h = Ok (None, <[l := d']> h) /\
                liveEntries d' = replace_value k v (liveEntries d) /\
                liveKeys d' = liveKeys d) /\
  (is_Some (ks !! k) ->
     exists d' d'',
       Delete (Some l) k h = Ok (None, <[l := d']> h) /\
       liveEntries d' = remove_key k (liveEntries d) /\
       set (Some l) k v (<[l := d']> h) = Ok (None, <[l := d'']> h) /\
       liveEntries d'' = remove_key k (liveEntries d) ++ [(k, v)]) /\
  result_of ((let* m := NewMap in
              do* Set_ m "a" (VInt 1) in do* Set_ m "b" (VInt 2) in
              do* Set_ m "c" (VInt 3) in do* Set_ m "b" (VInt 20) in
              Keys m) [])
  = Some ["a"; "b"; "c"] /\
  result_of ((let* m := NewMap in
              do* Set_ m "a" (VInt 1) in do* Set_ m "b" (VInt 2) in
              do* Set_ m "c" (VInt 3) in
              let* _ := Delete m "b" in
              do* Set_ m "b" (VInt 2) in
              Keys m) [])
  = Some ["a"; "c"; "b"].
Proof.
  intros Hl W Hf Hv Hk Hs.
  split; [|split; [|split; [|split; [|split; [|split]]]]];
    [| | | | | vm_compute; reflexivity | vm_compute; reflexivity].
  - eapply Keys_map; [exact Hl | apply (wf_keys d ks W) | apply (wf_len d ks W)].
  - intros f fuel acc Hfuel. eapply Iterate_map_order; eauto.
  - intros Hn. exists (appended d ks k v). split.
    + apply set_map_fresh; auto. apply (wf_keys d ks W).
    + apply liveEntries_appended; [apply (wf_len d ks W) | exact Hv].
  - intros [inx Hi]. exists (overwritten d ks inx k v). split; [|split].
    + apply set_map_present; auto.
    + apply liveEntries_overwritten; auto.
    + unfold liveKeys. rewrite (liveEntries_overwritten d ks k inx v W Hi Hv).
      apply map_fst_replace_value.
  - intros [inx Hi].
    destruct (Delete_map_present h l d ks k inx Hl W Hf Hk Hi)
      as (d' & Hdel & Hshape & Hlive & Hcnt & ks' & W').
    assert (Hl' : <[l := d']> h !! l = Some d').
    { apply list_lookup_insert_eq. eapply lookup_lt_Some. exact Hl. }
    assert (Hn : ks' !! k = None).
    { destruct (ks' !! k) eqn:E; [|reflexivity]. exfalso.
      apply (remove_key_gone k (liveEntries d)). rewrite <- Hlive.
      apply (wf_In d' ks' k W'). eauto. }
    assert (Hf' : ~ frozen d') by (unfold frozen in *; rewrite Hcnt; exact Hf).
    exists d', (appended d' ks' k v). split; [exact Hdel|]. split; [exact Hlive|].
    split.
    + rewrite (set_map_fresh _ l d' ks' k v Hl' (wf_keys d' ks' W') Hf' Hn).
      rewrite list_insert_insert_eq. reflexivity.
    + rewrite <- Hlive. apply liveEntries_appended; [apply (wf_len d' ks' W') | exact Hv].
Qed.

Lemma map_order_witness :
  exists d', set (Some 0%nat) "a" (VInt 1) [emptyMap] = Ok (None, [d']) /\
             liveEntries d' = [("a", VInt 1)].
Proof.
  destruct (map_order [emptyMap] 0%nat emptyMap ∅ "a" (VInt 1)
              eq_refl wf_emptyMap ltac:(unfold frozen; simpl; lia) eq_refl
              ltac:(vm_compute; reflexivity) ltac:(vm_compute; reflexivity))
    as (_ & _ & Hfresh & _).
  destruct (Hfresh (lookup_empty _)) as (d' & Hset & Hlive).
  exists d'. split; [exact Hset | exact Hlive].
Defined.

Lemma wf_sparseMap : wf_map sparseMap {["k" := 127%N]}.
Proof.
  constructor.
  - reflexivity.
  - reflexivity.
  - vm_compute. reflexivity.
  - intros k inx H. apply lookup_singleton_Some in H as [<- <-].
    split; [reflexivity|]. exists (VInt 1). split; reflexivity.
  - intros i v H Hlive.
    change (values sparseMap) with (replicate 127 VDeleted ++ [VInt 1]) in H.
    apply lookup_app_Some in H as [H|[Hi H]].
    + apply lookup_replicate in H as [-> _]. discriminate.
    + rewrite length_replicate in Hi, H.
      destruct (i - 127)%nat as [|n] eqn:E; [|destruct n; discriminate].
      assert (i = 127%nat) by lia. subst i.
      exists "k". split; [reflexivity|]. apply lookup_singleton_eq.
Qed.

Lemma packing_spec_witness :
  packing (Some 0%nat) [sparseMap] = Ok (tt, [compacted sparseMap]) /\
  liveEntries (compacted sparseMap) = liveEntries sparseMap.
Proof.
  destruct (packing_spec [sparseMap] 0%nat sparseMap _ eq_refl wf_sparseMap)
    as (Hdue & _ & Hlive & _).
  split; [|exact Hlive].
  apply Hdue. vm_compute. repeat split; discriminate.
Defined.

(** ** Reading never faults on a well-formed store *)

Lemma IndexByte_range s c : -1 <= IndexByte s c < Z.of_nat (String.length s).
Proof.
  induction s as [|a s IH]; simpl; [lia|].
  destruct (Ascii.eqb a c); [lia|].
  destruct (Z.ltb_spec (IndexByte s c) 0); lia.
Qed.

Lemma str_drop_length n : forall s,
  String.length (str_drop n s) = (String.length s - n)%nat.
Proof.
  induction n as [|n IH]; intros [|a s]; simpl; try reflexivity. apply IH.
Qed.

Lemma valid_lookup h l : valid h (Some l) -> exists d, h !! l = Some d.
Proof. simpl. intros H. apply lookup_lt_is_Some_2. exact H. Qed.

Lemma get_total h self key :
  wf_heap h -> valid h self ->
  exists v b, get self key h = Ok ((v, b), h) /\
              (forall p, v = VDJ p -> valid h p).
Proof.
  intros Wh Hv. destruct self as [l|].
  - destruct (valid_lookup h l Hv) as [d Hl].
    destruct (Wh l d Hl) as [Wm Wp].
    unfold get. run. destruct (keys d) as [ks|] eqn:Hk.
    + destruct (ks !! key) as [inx|] eqn:Hi.
      * destruct (wf_index d ks (Wm ks eq_refl) key inx Hi) as (_ & v & Hv' & _).
        run. exists v, true. split; [reflexivity|].
        intros p ->. apply Wp. apply list_elem_of_In, list_elem_of_lookup. eauto.
      * exists VNil, false. split; [reflexivity | discriminate].
    + destruct (Z.ltb_spec (key2Index key) 0) as [Hneg|Hpos].
      * exists VNil, false. split; [reflexivity | discriminate].
      * destruct (Z.ltb_spec (key2Index key) (len (values d))) as [Hlt|Hge].
        -- unfold len in Hlt.
           destruct (lookup_lt_is_Some_2 (values d) (Z.to_nat (key2Index key))
                       ltac:(lia)) as [v Hv'].
           run. exists v, true. split; [reflexivity|].
           intros p ->. apply Wp. apply list_elem_of_In, list_elem_of_lookup. eauto.
        -- exists VNil, false. split; [reflexivity | discriminate].
  - exists VNil, false. split; [reflexivity | discriminate].
Qed.

Lemma doOp_loop_read h x fuel : forall path level,
  wf_heap h -> valid h level -> (String.length path < fuel)%nat ->
  exists v b, doOp_loop fuel level path false false x h = Ok ((v, b), h) /\
              (forall p, v = VDJ p -> valid h p).
Proof.
  induction fuel as [|fuel IH]; intros path level Wh Hv Hfuel; [lia|].
  cbn [doOp_loop]. destruct (String.eqb_spec path "") as [->|Hne].
  - exists (VDJ level), true. split; [reflexivity|]. intros p [= <-]. exact Hv.
  - pose proof (IndexByte_range path "/") as Hr.
    destruct (Z.eqb_spec (IndexByte path "/") 0) as [H0|H0].
    + apply IH; auto. rewrite str_drop_length. lia.
    + destruct (Z.gtb_spec (IndexByte path "/") 0) as [Hpos|Hneg].
      * destruct (get_total h level (str_take (Z.to_nat (IndexByte path "/")) path)
                    Wh Hv) as (v & b & Hg & Hp).
        erewrite bind_Ok by exact Hg.
        destruct v; try (exists VNil, false; split; [destruct b; reflexivity | discriminate]).
        destruct b; [|exists VNil, false; split; [reflexivity | discriminate]].
        apply IH; auto. rewrite str_drop_length. lia.
      * destruct (get_total h level path Wh Hv) as (v & b & Hg & Hp).
        unfold ret at 1. erewrite bind_Ok by reflexivity.
        erewrite bind_Ok by exact Hg.
        destruct b.
        -- exists v, true. split; [reflexivity | exact Hp].
        -- exists VNil, false. split; [reflexivity | discriminate].
Qed.

(** Path resolution for reading returns, never faults, and leaves a
    well-formed store as it is. *)
Lemma doOp_read h self path x :
  wf_heap h -> valid h self ->
  exists v b, doOp self path false false x h = Ok ((v, b), h) /\
              (forall p, v = VDJ p -> valid h p).
Proof.
  intros Wh Hv. unfold doOp, bind, ret. cbv beta iota.
  apply doOp_loop_read; auto.
Qed.

(** On a nil receiver, reading finds nothing along any path that has a
    segment; a path without segments resolves to the receiver itself. *)
Lemma doOp_loop_nil h x fuel : forall path,
  (String.length path < fuel)%nat ->
  doOp_loop fuel None path false false x h
  = Ok (if noSegment path then (VDJ None, true) else (VNil, false), h).
Proof.
  induction fuel as [|fuel IH]; intros path Hfuel; [lia|].
  destruct path as [|c s]; [reflexivity|].
  cbn [doOp_loop String.eqb IndexByte noSegment].
  destruct (Ascii.eqb_spec c "/") as [->|Hc].
  - simpl. rewrite IH by (simpl in Hfuel; lia). reflexivity.
  - simpl.
    pose proof (IndexByte_range s "/") as Hr.
    destruct (Z.ltb_spec (IndexByte s "/") 0) as [Hn|Hp]; simpl.
    + reflexivity.
    + destruct (Z.eqb_spec (IndexByte s "/" + 1) 0); [lia|].
      destruct (Z.gtb_spec (IndexByte s "/" + 1) 0); [|lia].
      reflexivity.
Qed.

Lemma doOp_nil h path x :
  doOp None path false false x h
  = Ok (if noSegment path then (VDJ None, true) else (VNil, false), h).
Proof. unfold doOp, bind, ret. cbv beta iota. apply doOp_loop_nil. lia. Qed.

(** ** Nil receivers *)

(** C9 (amended): on a nil Document pointer every reading, iterating,
    deleting and freezing operation returns without a fault and without
    touching the store, with the zero result or the caller's default;
    [Get] and [Fetch] return nil and not-found for every path that has a
    segment, and for a path without segments they return the nil receiver
    itself, which [Fetch] reports as found. *)
Theorem nil_receiver (h : heap) (path : string) (fuel : nat)
    (roundToInt : float64 -> Z) (ParseFloat : string -> option float64)
    (formatRFC3339Nano : Time -> string)
    (di : Z) (df : float64) (db : bool) (ds : string)
    (cb : string -> value -> list string -> M (bool * list string))
    (vcb : string -> value -> list string -> list string) (acc : list string) :
  get None path h = Ok ((VNil, false), h) /\
  Get None path h = Ok (if noSegment path then VDJ None else VNil, h) /\
  Fetch None path h
    = Ok (if noSegment path then (VDJ None, true) else (VNil, false), h) /\
  Has None path h = Ok (false, h) /\
  Len None h = Ok (0, h) /\
  Keys None h = Ok ([], h) /\
  Iterate cb fuel None acc h = Ok (acc, h) /\
  Visit vcb (S fuel) None acc h = Ok (acc, h) /\
  Delete None path h = Ok (None, h) /\
  Freeze (S fuel) None h = Ok (tt, h) /\
  Clone (S fuel) None h = Ok (None, h) /\
  Nested None path h = Ok (None, h) /\
  GetInt roundToInt None path di h = Ok (di, h) /\
  GetFloat ParseFloat None path df h = Ok (df, h) /\
  GetBool None path db h = Ok (db, h) /\
  GetString formatRFC3339Nano None path ds h = Ok (ds, h).
Proof.
  repeat split; try reflexivity.
  - unfold Get. erewrite bind_Ok by apply doOp_nil.
    destruct (noSegment path); reflexivity.
  - unfold Fetch. erewrite bind_Ok by apply doOp_nil.
    destruct (noSegment path); reflexivity.
  - unfold GetInt. erewrite bind_Ok by apply doOp_nil.
    destruct (noSegment path); reflexivity.
  - unfold GetFloat. erewrite bind_Ok by apply doOp_nil.
    destruct (noSegment path); reflexivity.
  - unfold GetBool. erewrite bind_Ok by apply doOp_nil.
    destruct (noSegment path); reflexivity.
  - unfold GetString. erewrite bind_Ok by apply doOp_nil.
    destruct (noSegment path); reflexivity.
Qed.

(** C9, as stated, fails for the empty path: on a nil receiver [Fetch]
    answers found, and [Get] returns an interface holding the nil pointer,
    which is not the nil interface. *)
Lemma nil_receiver_empty_path :
  Fetch None "" [] = Ok ((VDJ None, true), []) /\
  Get None "" [] = Ok (VDJ None, []) /\
  Fetch None "/" [] = Ok ((VDJ None, true), []) /\
  VDJ None <> VNil.
Proof. repeat split; try reflexivity. discriminate. Qed.

(** ** Typed getters *)

Section GetterProperties.
Variable ParseFloat : string -> option float64.
Variable roundToInt : float64 -> Z.
Variable formatRFC3339Nano : Time -> string.

End GetterProperties.

Lemma wf_numberDoc : wf_heap [numberDoc].
Proof.
  intros l d H. destruct l as [|l]; [|destruct l; discriminate].
  injection H as <-. split.
  - intros ks [= <-]. constructor; try reflexivity.
    + intros k inx Hk. apply lookup_singleton_Some in Hk as [<- <-].
      split; [reflexivity|]. exists (VNumber "12.0"). split; reflexivity.
    + intros i v Hi _. destruct i as [|i]; [|destruct i; discriminate].
      exists "x". split; [reflexivity|]. apply lookup_singleton_eq.
  - intros p [Hp|[]]. discriminate.
Qed.



(** ** Paths as strings *)

Lemma IndexByte_app_slash s t :
  IndexByte s "/" < 0 ->
  IndexByte (s +:+ "/" +:+ t) "/" = Z.of_nat (String.length s).
Proof.
  induction s as [|a s IH]; simpl; intros H; [reflexivity|].
  destruct (Ascii.eqb a "/"); [lia|].
  destruct (Z.ltb_spec (IndexByte s "/") 0) as [Hn|Hp]; [|lia].
  rewrite (IH Hn).
  destruct (Z.ltb_spec (Z.of_nat (String.length s)) 0); lia.
Qed.

Lemma str_take_app s t : str_take (String.length s) (s +:+ t) = s.
Proof. induction s as [|a s IH]; simpl; [destruct t; reflexivity | f_equal; exact IH]. Qed.

Lemma str_drop_app s t : str_drop (String.length s) (s +:+ t) = t.
Proof. induction s as [|a s IH]; simpl; [reflexivity | exact IH]. Qed.

Lemma str_drop_app_slash s t : str_drop (S (String.length s)) (s +:+ "/" +:+ t) = t.
Proof. induction s as [|a s IH]; simpl; [reflexivity | exact IH]. Qed.

Lemma segment_length s : segment s -> (0 < String.length s)%nat.
Proof. intros [H _]. destruct s; [congruence | simpl; lia]. Qed.

Lemma app_not_empty s t : s <> "" -> (s +:+ t =? "")%string = false.
Proof. intros H. destruct s; [congruence | reflexivity]. Qed.

Lemma firstSegment_join s rest :
  segment s -> firstSegment (joinPath (s :: rest)) = s.
Proof.
  intros [Hne Hs]. unfold firstSegment. destruct rest as [|r rest].
  - simpl. destruct (Z.geb_spec (IndexByte s "/") 0); [lia | reflexivity].
  - change (joinPath (s :: r :: rest)) with (s +:+ "/" +:+ joinPath (r :: rest)).
    rewrite IndexByte_app_slash by exact Hs.
    destruct (Z.geb_spec (Z.of_nat (String.length s)) 0); [|lia].
    rewrite Nat2Z.id. apply str_take_app.
Qed.

Lemma createLevel_run path h :
  createLevelFromNextPath path h = Ok (Some (List.length h), h ++ [newLevel path]).
Proof.
  unfold createLevelFromNextPath, newLevel, firstSegment.
  destruct (key2Index _ >=? 0); reflexivity.
Qed.

(** ** One level: [get] and [set] *)

Lemma get_slot h l d s :
  h !! l = Some d -> (forall ks, keys d = Some ks -> wf_map d ks) ->
  get (Some l) s h
  = Ok (match slot d s with Some v => (v, true) | None => (VNil, false) end, h).
Proof.
  intros Hl W. unfold get, slot. run. destruct (keys d) as [ks|] eqn:Hk.
  - destruct (ks !! s) as [inx|] eqn:Hi; [|reflexivity].
    destruct (wf_index d ks (W ks eq_refl) s inx Hi) as (_ & v & Hv & _).
    run. rewrite Hv. reflexivity.
  - destruct (Z.ltb_spec (key2Index s) 0) as [Hn|Hp].
    + destruct (Z.leb_spec 0 (key2Index s)); [lia | reflexivity].
    + destruct (Z.leb_spec 0 (key2Index s)); [|lia]. simpl.
      destruct (Z.ltb_spec (key2Index s) (len (values d))) as [Hlt|Hge]; [|reflexivity].
      unfold len in Hlt.
      destruct (lookup_lt_is_Some_2 (values d) (Z.to_nat (key2Index s)) ltac:(lia))
        as [v Hv].
      run. rewrite Hv. reflexivity.
Qed.

Lemma set_accepts h l d s v :
  h !! l = Some d -> accepts d s ->
  set (Some l) s v h = Ok (None, <[l := store_key d s v]> h).
Proof.
  intros Hl [Hf Ha]. unfold store_key. destruct (keys d) as [ks|] eqn:Hk.
  - destruct Ha as [W _]. destruct (ks !! s) as [inx|] eqn:Hi.
    + apply set_map_present; auto.
    + apply set_map_fresh; auto.
  - unfold set. run. rewrite (unfrozen_ltb d Hf), Hk.
    destruct (Z.ltb_spec (key2Index s) 0); [lia|]. reflexivity.
Qed.

Lemma slot_store_key d s v : accepts d s -> slot (store_key d s v) s = Some v.
Proof.
  intros [Hf Ha]. unfold slot, store_key. destruct (keys d) as [ks|] eqn:Hk.
  - destruct Ha as [W Hs]. destruct (ks !! s) as [inx|] eqn:Hi; simpl.
    + rewrite Hi.
      destruct (wf_index d ks W s inx Hi) as (_ & v0 & Hv0 & _).
      apply list_lookup_insert_eq. eapply lookup_lt_Some. exact Hv0.
    + rewrite lookup_insert_eq.
      unfold uint32, len in *. rewrite N.mod_small by lia. rewrite Nat2N.id.
      rewrite lookup_app_r by lia. rewrite Nat.sub_diag. reflexivity.
  - simpl. rewrite Hk.
    pose proof (extend_length (values d) (key2Index s) Ha) as Hlen.
    unfold len. rewrite length_insert, Hlen.
    destruct (Z.leb_spec 0 (key2Index s)); [|lia].
    destruct (Z.ltb_spec (key2Index s)
                (Z.of_nat (Nat.max (List.length (values d)) (S (Z.to_nat (key2Index s))))));
      [|lia].
    simpl. apply list_lookup_insert_eq. lia.
Qed.

Lemma wf_store_key d s v ks :
  accepts d s -> isDeleted v = false -> keys (store_key d s v) = Some ks ->
  wf_map (store_key d s v) ks.
Proof.
  intros [Hf Ha] Hv. unfold store_key. destruct (keys d) as [ks0|] eqn:Hk.
  - destruct Ha as [W Hs]. destruct (ks0 !! s) as [inx|] eqn:Hi; simpl; intros [= <-].
    + apply wf_overwritten; auto.
    + apply wf_appended; auto.
  - simpl. rewrite Hk. discriminate.
Qed.

Lemma accepts_newLevel s rest :
  segment s -> accepts (newLevel (joinPath (s :: rest))) s.
Proof.
  intros Hs. unfold newLevel. rewrite firstSegment_join by exact Hs.
  destruct (Z.geb_spec (key2Index s) 0) as [Hge|Hlt].
  - split; [unfold frozen; simpl; lia | exact Hge].
  - split; [unfold frozen; simpl; lia|]. simpl.
    split; [apply wf_emptyMap | unfold len; simpl; lia].
Qed.

Lemma slot_newLevel path s : slot (newLevel path) s = None.
Proof.
  unfold newLevel, slot. destruct (key2Index (firstSegment path) >=? 0); simpl.
  - destruct (0 <=? key2Index s); simpl; [|reflexivity].
    destruct (key2Index s <? len (@nil value)); [apply lookup_nil | reflexivity].
  - rewrite lookup_empty. reflexivity.
Qed.

(** ** One turn of the path walk *)

Lemma joinPath_cons s r rest :
  joinPath (s :: r :: rest) = s +:+ "/" +:+ joinPath (r :: rest).
Proof. reflexivity. Qed.

Lemma walk_head s t :
  segment s ->
  ((s +:+ "/" +:+ t =? "")%string = false) /\
  (IndexByte (s +:+ "/" +:+ t) "/" =? 0) = false /\
  (IndexByte (s +:+ "/" +:+ t) "/" >? 0) = true /\
  str_take (Z.to_nat (IndexByte (s +:+ "/" +:+ t) "/")) (s +:+ "/" +:+ t) = s /\
  str_drop (Z.to_nat (IndexByte (s +:+ "/" +:+ t) "/" + 1)) (s +:+ "/" +:+ t) = t.
Proof.
  intros Hs. pose proof (segment_length s Hs) as Hlen. destruct Hs as [Hne Hs].
  rewrite IndexByte_app_slash by exact Hs.
  split; [apply app_not_empty; exact Hne|].
  split; [apply Z.eqb_neq; lia|].
  split; [apply Z.gtb_lt; lia|].
  split.
  - rewrite Nat2Z.id. apply str_take_app.
  - replace (Z.to_nat (Z.of_nat (String.length s) + 1)) with (S (String.length s)) by lia.
    apply str_drop_app_slash.
Qed.

Lemma walk_last s :
  segment s ->
  ((s =? "")%string = false) /\
  (IndexByte s "/" =? 0) = false /\ (IndexByte s "/" >? 0) = false.
Proof.
  intros [Hne Hs]. split; [|split].
  - destruct s; [congruence | reflexivity].
  - apply Z.eqb_neq. lia.
  - destruct (Z.gtb_spec (IndexByte s "/") 0); [lia | reflexivity].
Qed.

(** A missing intermediate level is created, of the kind the next segment
    asks for, stored under the segment's name, and the walk goes on in it. *)
Lemma doOp_creates h l d s t x fuel :
  h !! l = Some d -> accepts d s -> segment s ->
  (forall p, slot d s <> Some (VDJ p)) ->
  doOp_loop (S fuel) (Some l) (s +:+ "/" +:+ t) true true x h
  = doOp_loop fuel (Some (List.length h)) t true true x
      (<[l := store_key d s (VDJ (Some (List.length h)))]> (h ++ [newLevel t])).
Proof.
  intros Hl Ha Hs Hmiss.
  destruct (walk_head s t Hs) as (H1 & H2 & H3 & H4 & H5).
  cbn [doOp_loop]. rewrite H1, H2, H3, H4, H5.
  assert (W : forall ks, keys d = Some ks -> wf_map d ks).
  { intros ks Hk. destruct Ha as [_ Ha]. rewrite Hk in Ha. apply Ha. }
  erewrite bind_Ok by (apply get_slot; eassumption).
  assert (Hgo :
    (let* nextMap := createLevelFromNextPath t in
     let* _ := set (Some l) s (VDJ nextMap) in
     doOp_loop fuel nextMap t true true x) h
    = doOp_loop fuel (Some (List.length h)) t true true x
        (<[l := store_key d s (VDJ (Some (List.length h)))]> (h ++ [newLevel t]))).
  { erewrite bind_Ok by apply createLevel_run.
    erewrite bind_Ok
      by (apply set_accepts; [apply lookup_app_l_Some; exact Hl | exact Ha]).
    reflexivity. }
  destruct (slot d s) as [v|] eqn:E; [|exact Hgo].
  destruct v; try exact Hgo. exfalso. eapply Hmiss. reflexivity.
Qed.

(** A level that is there is entered, for reading and for writing. *)
Lemma doOp_descends h l d s t p x fuel ac sv :
  h !! l = Some d -> (forall ks, keys d = Some ks -> wf_map d ks) ->
  segment s -> slot d s = Some (VDJ p) ->
  doOp_loop (S fuel) (Some l) (s +:+ "/" +:+ t) ac sv x h
  = doOp_loop fuel p t ac sv x h.
Proof.
  intros Hl W Hs Hslot.
  destruct (walk_head s t Hs) as (H1 & H2 & H3 & H4 & H5).
  cbn [doOp_loop]. rewrite H1, H2, H3, H4, H5.
  erewrite bind_Ok by (apply get_slot; eassumption).
  rewrite Hslot. reflexivity.
Qed.

(** The last segment is written and read back. *)
Lemma doOp_writes h l d s x fuel ac :
  h !! l = Some d -> accepts d s -> segment s -> isDeleted x = false ->
  doOp_loop (S fuel) (Some l) s ac true x h
  = Ok ((x, true), <[l := store_key d s x]> h).
Proof.
  intros Hl Ha Hs Hx. destruct (walk_last s Hs) as (H1 & H2 & H3).
  cbn [doOp_loop]. rewrite H1, H2, H3.
  erewrite bind_Ok by (apply set_accepts; eassumption).
  assert (Hl' : <[l := store_key d s x]> h !! l = Some (store_key d s x)).
  { apply list_lookup_insert_eq. eapply lookup_lt_Some. exact Hl. }
  erewrite bind_Ok
    by (apply get_slot; [exact Hl' | intros ks Hk; apply wf_store_key; auto]).
  rewrite slot_store_key by exact Ha. reflexivity.
Qed.

Lemma doOp_reads h l d s x fuel :
  h !! l = Some d -> (forall ks, keys d = Some ks -> wf_map d ks) -> segment s ->
  doOp_loop (S fuel) (Some l) s false false x h
  = Ok (match slot d s with Some v => (v, true) | None => (VNil, false) end, h).
Proof.
  intros Hl W Hs. destruct (walk_last s Hs) as (H1 & H2 & H3).
  cbn [doOp_loop]. rewrite H1, H2, H3.
  unfold ret at 1. erewrite bind_Ok by reflexivity.
  erewrite bind_Ok by (apply get_slot; eassumption).
  destruct (slot d s); reflexivity.
Qed.

Lemma IsArray_store_key d s v : IsArray_of (store_key d s v) = IsArray_of d.
Proof.
  unfold store_key, IsArray_of. destruct (keys d) as [ks|] eqn:Hk; simpl.
  - destruct (ks !! s); reflexivity.
  - rewrite Hk. reflexivity.
Qed.

Lemma IsArray_newLevel s rest :
  segment s ->
  IsArray_of (newLevel (joinPath (s :: rest))) = (key2Index s >=? 0).
Proof.
  intros Hs. unfold newLevel. rewrite firstSegment_join by exact Hs.
  destruct (key2Index s >=? 0); reflexivity.
Qed.

Lemma str_length_app s t :
  String.length (s +:+ t) = (String.length s + String.length t)%nat.
Proof. induction s as [|a s IH]; simpl; [reflexivity | rewrite IH; reflexivity]. Qed.

Lemma joinPath_length_tail s r rest :
  (String.length (joinPath (r :: rest)) < String.length (joinPath (s :: r :: rest)))%nat.
Proof.
  rewrite joinPath_cons, !str_length_app. simpl. lia.
Qed.

(** Writing along a path whose first segment names no Document yet: every
    further segment gets a new level, the value lands in the last one, and
    reading the path back finds it. *)
Lemma doOp_chain rest : forall s h l d x fuel,
  Forall segment (s :: rest) -> h !! l = Some d -> accepts d s ->
  (rest <> [] -> forall p, slot d s <> Some (VDJ p)) ->
  isDeleted x = false ->
  (String.length (joinPath (s :: rest)) < fuel)%nat ->
  exists h',
    doOp_loop fuel (Some l) (joinPath (s :: rest)) true true x h = Ok ((x, true), h') /\
    List.length h' = (List.length h + List.length rest)%nat /\
    (forall l', (l' < List.length h)%nat -> l' <> l -> h' !! l' = h !! l') /\
    (exists v', h' !! l = Some (store_key d s v')) /\
    (forall fuel' y, (String.length (joinPath (s :: rest)) < fuel')%nat ->
       doOp_loop fuel' (Some l) (joinPath (s :: rest)) false false y h'
       = Ok ((x, true), h')) /\
    (forall i r, rest !! i = Some r ->
       exists di, h' !! (List.length h + i)%nat = Some di /\
                  IsArray_of di = (key2Index r >=? 0)).
Proof.
  induction rest as [|r rest IH]; intros s h l d x fuel Hsegs Hl Ha Hmiss Hx Hfuel.
  - destruct fuel as [|fuel]; [lia|].
    inversion Hsegs as [|? ? Hs _]; subst.
    pose proof (lookup_lt_Some _ _ _ Hl) as Hlt.
    exists (<[l := store_key d s x]> h). simpl joinPath.
    split; [apply doOp_writes; auto|].
    split; [rewrite length_insert; simpl; lia|].
    split; [intros l' _ Hne; apply list_lookup_insert_ne; auto|].
    split; [exists x; apply list_lookup_insert_eq; exact Hlt|].
    split; [|intros i r' Hr; destruct i; discriminate].
    intros fuel' y Hf'. destruct fuel' as [|fuel']; [lia|].
    rewrite (doOp_reads _ l (store_key d s x) s y fuel'); auto.
    + rewrite slot_store_key by exact Ha. reflexivity.
    + apply list_lookup_insert_eq. exact Hlt.
    + intros ks Hk. apply wf_store_key; auto.
  - destruct fuel as [|fuel]; [lia|].
    inversion Hsegs as [|? ? Hs Hrest]; subst.
    inversion Hrest as [|? ? Hr _]; subst.
    pose proof (lookup_lt_Some _ _ _ Hl) as Hlt.
    rewrite joinPath_cons in *.
    rewrite (doOp_creates h l d s _ x fuel Hl Ha Hs (Hmiss ltac:(discriminate))).
    set (n := List.length h).
    set (d1 := store_key d s (VDJ (Some n))).
    set (new := newLevel (joinPath (r :: rest))).
    set (h2 := <[l := d1]> (h ++ [new])).
    assert (Hn : h2 !! n = Some new).
    { unfold h2. rewrite list_lookup_insert_ne by (unfold n; lia).
      unfold n. rewrite lookup_app_r by lia. rewrite Nat.sub_diag. reflexivity. }
    assert (Hl2 : h2 !! l = Some d1).
    { unfold h2. apply list_lookup_insert_eq. rewrite length_app. simpl. lia. }
    assert (Hlen2 : List.length h2 = S n).
    { unfold h2. rewrite length_insert, length_app. simpl. unfold n. lia. }
    pose proof (joinPath_length_tail s r rest) as Hshort.
    rewrite joinPath_cons in Hshort.
    assert (Hmiss' : rest <> [] -> forall p, slot new r <> Some (VDJ p)).
    { intros _ p. unfold new. rewrite slot_newLevel. discriminate. }
    destruct (IH r h2 n new x fuel Hrest Hn (accepts_newLevel r rest Hr)
                Hmiss' Hx ltac:(lia))
      as (h' & Hrun & Hlen & Hframe & (v' & Hn') & Hread & Hkinds).
    assert (Hl' : h' !! l = Some d1).
    { rewrite Hframe; [exact Hl2 | lia | unfold n; lia]. }
    exists h'. split; [exact Hrun|].
    split; [rewrite Hlen, Hlen2; simpl; unfold n; lia|].
    split.
    { intros l' Hl'lt Hne. rewrite Hframe by (unfold n; lia).
      unfold h2. rewrite list_lookup_insert_ne by auto.
      apply lookup_app_l. exact Hl'lt. }
    split; [exists (VDJ (Some n)); exact Hl'|].
    split.
    { intros fuel' y Hf'. destruct fuel' as [|fuel']; [lia|].
      rewrite (doOp_descends h' l d1 s _ (Some n) y fuel' false false Hl').
      - apply Hread. lia.
      - intros ks Hk. apply wf_store_key; auto.
      - exact Hs.
      - apply slot_store_key. exact Ha. }
    intros i r' Hi. destruct i as [|i]; simpl in Hi.
    + injection Hi as <-. exists (store_key new r v').
      rewrite Nat.add_0_r. split; [exact Hn'|].
      rewrite IsArray_store_key. apply IsArray_newLevel. exact Hr.
    + destruct (Hkinds i r' Hi) as (di & Hdi & Hk).
      exists di. split; [|exact Hk].
      rewrite Hlen2 in Hdi. replace (n + S i)%nat with (S n + i)%nat by lia.
      exact Hdi.
Qed.

Lemma doOp_read_unfold self path x h :
  doOp self path false false x h
  = doOp_loop (S (String.length path)) self path false false x h.
Proof. reflexivity. Qed.

Lemma doOp_write_unfold h l d path ac x :
  h !! l = Some d -> ~ frozen d ->
  doOp (Some l) path ac true x h
  = doOp_loop (S (String.length path)) (Some l) path ac true x h.
Proof.
  intros Hl Hf. unfold doOp, IsFrozen, bind, deref, ret.
  rewrite Hl, (unfrozen_ltb d Hf). reflexivity.
Qed.

(** ** Setting and getting along a path *)

Section PathProperties.
Variable formatFloat : float64 -> string.
Variable formatRFC3339Nano : Time -> string.

End PathProperties.

Lemma accepts_emptyMap s : accepts emptyMap s.
Proof.
  split; [unfold frozen; simpl; lia|]. simpl.
  split; [apply wf_emptyMap | vm_compute; reflexivity].
Qed.

Lemma segments_a_0_b : Forall segment ["a"; "0"; "b"].
Proof.
  repeat constructor; try discriminate; vm_compute; reflexivity.
Qed.



(** ** Freezing *)

Lemma freeze_step_refl h : freeze_step h h.
Proof. split; [reflexivity | intros l d H; left; exact H]. Qed.

Lemma frozen_marked d : frozen (with_counter d (-1000)).
Proof. unfold frozen. simpl. lia. Qed.

Lemma freeze_step_trans h1 h2 h3 :
  freeze_step h1 h2 -> freeze_step h2 h3 -> freeze_step h1 h3.
Proof.
  intros [L12 S12] [L23 S23]. split; [congruence|].
  intros l d H. destruct (S12 l d H) as [H2|[Hnf H2]].
  - destruct (S23 l d H2) as [H3|[Hnf H3]]; [left | right]; auto.
  - destruct (S23 l _ H2) as [H3|[Hnf' H3]].
    + right. auto.
    + exfalso. apply Hnf'. apply frozen_marked.
Qed.

Lemma freeze_step_values h h' l d :
  freeze_step h h' -> h !! l = Some d ->
  exists d', h' !! l = Some d' /\ values d' = values d /\ (frozen d -> frozen d').
Proof.
  intros [_ S] H. destruct (S l d H) as [H'|[_ H']].
  - exists d. auto.
  - exists (with_counter d (-1000)). split; [exact H'|]. split; [reflexivity|].
    intros _. apply frozen_marked.
Qed.

Lemma freeze_step_values_inv h h' l d' :
  freeze_step h h' -> h' !! l = Some d' ->
  exists d, h !! l = Some d /\ values d' = values d.
Proof.
  intros [L S] H'.
  destruct (lookup_lt_is_Some_2 h l) as [d Hd].
  { rewrite <- L. eapply lookup_lt_Some. exact H'. }
  exists d. split; [exact Hd|].
  destruct (S l d Hd) as [H2|[_ H2]]; rewrite H2 in H'; injection H' as <-; reflexivity.
Qed.

Lemma freeze_step_frozen h h' l :
  freeze_step h h' -> frozen_at h l -> frozen_at h' l.
Proof.
  intros S (d & Hd & Hf). destruct (freeze_step_values h h' l d S Hd) as (d' & H' & _ & Hk).
  exists d'. auto.
Qed.

Lemma freeze_step_child h h' l c : freeze_step h h' -> child h l c <-> child h' l c.
Proof.
  intros S. split.
  - intros (d & Hd & Hin).
    destruct (freeze_step_values h h' l d S Hd) as (d' & H' & Hv & _).
    exists d'. rewrite Hv. auto.
  - intros (d' & Hd' & Hin).
    destruct (freeze_step_values_inv h h' l d' S Hd') as (d & Hd & Hv).
    exists d. rewrite <- Hv. auto.
Qed.

Lemma freeze_step_reach h h' l l' : freeze_step h h' -> reach h l l' <-> reach h' l l'.
Proof.
  intros S. split; intros R; induction R as [|l c l' Hc _ IH].
  - apply reach_here.
  - eapply reach_child; [|exact IH]. apply (freeze_step_child h h' l c S). exact Hc.
  - apply reach_here.
  - eapply reach_child; [|exact IH]. apply (freeze_step_child h h' l c S). exact Hc.
Qed.

Lemma freeze_step_depth h h' n p : freeze_step h h' -> depth_le h n p -> depth_le h' n p.
Proof.
  intros S D. induction D as [n|n l d Hd Hch IH]; [constructor|].
  destruct (freeze_step_values h h' l d S Hd) as (d' & H' & Hv & _).
  econstructor; [exact H'|]. rewrite Hv. exact IH.
Qed.

Lemma closed_reach h l l' : closed h -> frozen_at h l -> reach h l l' -> frozen_at h l'.
Proof.
  intros C F R. induction R as [|l c l' Hc _ IH]; [exact F|].
  apply IH. eapply C; eauto.
Qed.

Lemma froze_nothing h (R : loc -> Prop) : closed h -> (forall l, ~ R l) -> froze h h R.
Proof.
  intros C HR. split; [apply freeze_step_refl|]. split; [exact C|].
  split; [intros l l' Hl; destruct (HR l Hl) | auto].
Qed.

Lemma froze_seq h h1 h2 (R1 R2 R : loc -> Prop) :
  froze h h1 R1 -> froze h1 h2 R2 -> (forall l, R l -> R1 l \/ R2 l) ->
  (forall l, R1 l -> R l) -> (forall l, R2 l -> R l) ->
  froze h h2 R.
Proof.
  intros (S1 & C1 & F1 & U1) (S2 & C2 & F2 & U2) Hsplit H1 H2.
  split; [eapply freeze_step_trans; eauto|]. split; [exact C2|]. split.
  - intros l l' Hl Hr. destruct (Hsplit l Hl) as [Hl1|Hl2].
    + eapply freeze_step_frozen; [exact S2|]. eapply F1; eauto.
    + eapply F2; [exact Hl2|]. apply (freeze_step_reach h h1 l l' S1). exact Hr.
  - intros l' d' Hd Hn. apply U2.
    + apply U1; [exact Hd|]. intros l Hl. apply Hn. auto.
    + intros l Hl Hr. apply (Hn l (H2 l Hl)).
      apply (freeze_step_reach h h1 l l' S1). exact Hr.
Qed.

Lemma Freeze_children fuel n (b : bool) vs :
  FreezeOk fuel n -> forall h,
  (forall p, In (VDJ p) vs -> depth_le h n p) -> closed h ->
  exists h',
    forEach (fun v => if b && isDeleted v then ret tt
                      else match v with
                           | VDJ c => Freeze fuel c
                           | _ => ret tt
                           end) vs h = Ok (tt, h') /\
    froze h h' (fun c => In (VDJ (Some c)) vs).
Proof.
  intros IH. induction vs as [|a vs IHvs]; intros h Hd C.
  - exists h. split; [reflexivity|]. apply froze_nothing; auto.
  - assert (Hhead : exists h1,
              (if b && isDeleted a then ret tt
               else match a with VDJ c => Freeze fuel c | _ => ret tt end) h
              = Ok (tt, h1) /\ froze h h1 (fun l => a = VDJ (Some l))).
    { destruct a; try (exists h; split;
                        [destruct b; reflexivity
                        | apply froze_nothing; [exact C | intros l; discriminate]]).
      rewrite andb_false_r.
      destruct (IH p h (Hd p (or_introl eq_refl)) C) as (h1 & Hrun & Hf).
      exists h1. split; [exact Hrun|].
      destruct Hf as (S1 & C1 & F1 & U1). split; [exact S1|]. split; [exact C1|].
      split.
      - intros l l' [= ->]. apply F1. reflexivity.
      - intros l' d' Hl' Hn. apply U1; [exact Hl'|]. intros l ->. apply Hn. reflexivity. }
    destruct Hhead as (h1 & Hrun1 & Hf1).
    destruct (IHvs h1) as (h2 & Hrun2 & Hf2).
    { intros p Hp. eapply freeze_step_depth; [apply Hf1|]. apply Hd. right. exact Hp. }
    { apply Hf1. }
    exists h2. split.
    + cbn [forEach]. erewrite bind_Ok by exact Hrun1. exact Hrun2.
    + eapply froze_seq; [exact Hf1 | exact Hf2 | | |].
      * intros l [Hl|Hl]; [left; exact Hl | right; exact Hl].
      * intros l ->. left. reflexivity.
      * intros l Hl. right. exact Hl.
Qed.

Lemma reach_inv h l l' :
  reach h l l' -> l' = l \/ exists c, child h l c /\ reach h c l'.
Proof. intros R. inversion R; subst; [left; reflexivity | right; eauto]. Qed.

Lemma Freeze_ok n : forall fuel, (n < fuel)%nat -> FreezeOk fuel n.
Proof.
  induction n as [|n IH]; intros fuel Hfuel self h D C;
    (destruct fuel as [|fuel]; [lia|]).
  - inversion D; subst. exists h. split; [reflexivity|].
    apply froze_nothing; [exact C | intros l; discriminate].
  - inversion D as [|? l d Hd Hch]; subst.
    { exists h. split; [reflexivity|].
      apply froze_nothing; [exact C | intros l; discriminate]. }
    cbn [Freeze]. erewrite bind_Ok by (apply deref_Some; exact Hd).
    destruct (Z.ltb_spec (iterCounter d) 0) as [Hfz|Hnf].
    + exists h. split; [reflexivity|].
      split; [apply freeze_step_refl|]. split; [exact C|]. split; [|auto].
      intros l0 l' [= <-] R. eapply closed_reach; eauto. exists d. auto.
    + destruct (Freeze_children fuel n (negb (IsArray_of d)) (values d)
                  (IH fuel ltac:(lia)) h Hch C) as (h1 & Hrun & S1 & C1 & F1 & U1).
      erewrite bind_Ok by exact Hrun.
      destruct (freeze_step_values h h1 l d S1 Hd) as (d1 & Hd1 & Hv1 & _).
      assert (Hmark : with_counter d1 (-1000) = with_counter d (-1000)).
      { destruct S1 as [_ S1]. destruct (S1 l d Hd) as [E|[_ E]];
          rewrite E in Hd1; injection Hd1 as <-; reflexivity. }
      erewrite bind_Ok by (apply deref_Some; exact Hd1).
      unfold update, store. rewrite Hmark.
      set (h' := <[l := with_counter d (-1000)]> h1).
      assert (Hl' : h' !! l = Some (with_counter d (-1000))).
      { apply list_lookup_insert_eq. eapply lookup_lt_Some. exact Hd1. }
      assert (Hother : forall x, x <> l -> h' !! x = h1 !! x).
      { intros x Hx. apply list_lookup_insert_ne. auto. }
      assert (S' : freeze_step h h').
      { split.
        - unfold h'. rewrite length_insert. apply S1.
        - intros x dx Hx. destruct (decide (x = l)) as [->|Hne].
          + rewrite Hd in Hx. injection Hx as <-. right. split; [unfold frozen; lia | exact Hl'].
          + rewrite (Hother x Hne). apply S1. exact Hx. }
      assert (Hkeep : forall x, frozen_at h1 x -> frozen_at h' x).
      { intros x (dx & Hx & Hf). destruct (decide (x = l)) as [->|Hne].
        - exists (with_counter d (-1000)). split; [exact Hl' | apply frozen_marked].
        - exists dx. rewrite (Hother x Hne). auto. }
      exists h'. split; [reflexivity|]. split; [exact S'|]. split; [|split].
      * intros x c Hfx Hc. apply (freeze_step_child h h' x c S') in Hc.
        destruct (decide (x = l)) as [->|Hne].
        -- apply Hkeep. destruct Hc as (d0 & Hd0 & Hin).
           rewrite Hd in Hd0. injection Hd0 as <-.
           apply (F1 c c Hin). apply reach_here.
        -- apply Hkeep. apply C1 with (l := x).
           ++ destruct Hfx as (dx & Hx & Hf). exists dx.
              rewrite <- (Hother x Hne). auto.
           ++ apply (freeze_step_child h h1 x c S1). exact Hc.
      * intros l0 l' [= <-] R. destruct (reach_inv h l l' R) as [->|(c & Hc & Rc)].
        -- exists (with_counter d (-1000)). split; [exact Hl' | apply frozen_marked].
        -- apply Hkeep. destruct Hc as (d0 & Hd0 & Hin).
           rewrite Hd in Hd0. injection Hd0 as <-. apply (F1 c l' Hin Rc).
      * intros l' d' Hl'0 Hn.
        assert (l' <> l) by (intros ->; apply (Hn l eq_refl); apply reach_here).
        rewrite (Hother l' H). apply U1; [exact Hl'0|].
        intros c Hin Rc. apply (Hn l eq_refl).
        eapply reach_child; [|exact Rc]. exists d. auto.
Qed.

(** ** Frozen stays frozen *)

Lemma keeps_refl h : keeps h h.
Proof. intros l H. exact H. Qed.

Lemma keeps_trans h1 h2 h3 : keeps h1 h2 -> keeps h2 h3 -> keeps h1 h3.
Proof. intros H12 H23 l H. auto. Qed.

Lemma keeps_update h l d d' :
  h !! l = Some d -> (frozen d -> frozen d') -> keeps h (<[l := d']> h).
Proof.
  intros Hl Hf x (dx & Hx & Hfx). destruct (decide (x = l)) as [->|Hne].
  - exists d'. split.
    + apply list_lookup_insert_eq. eapply lookup_lt_Some. exact Hl.
    + apply Hf. congruence.
  - exists dx. rewrite list_lookup_insert_ne by auto. auto.
Qed.

Lemma keeps_alloc h d : keeps h (h ++ [d]).
Proof.
  intros x (dx & Hx & Hfx). exists dx. split; [|exact Hfx].
  apply lookup_app_l_Some. exact Hx.
Qed.

Lemma mono_ret {A} (a : A) : mono (ret a).
Proof. intros h a' h' [= _ <-]. apply keeps_refl. Qed.

Lemma mono_bind {A B} (m : M A) (f : A -> M B) :
  mono m -> (forall a, mono (f a)) -> mono (bind m f).
Proof.
  intros Hm Hf h b h' H. unfold bind in H.
  destruct (m h) as [[a h1]| |] eqn:E; try discriminate.
  eapply keeps_trans; [eapply Hm; exact E | eapply Hf; exact H].
Qed.

Lemma mono_read {A} (m : M A) :
  (forall h a h', m h = Ok (a, h') -> h' = h) -> mono m.
Proof. intros Hm h a h' H. rewrite (Hm h a h' H). apply keeps_refl. Qed.

Lemma deref_inv self h d h' :
  deref self h = Ok (d, h') -> h' = h /\ exists l, self = Some l /\ h !! l = Some d.
Proof.
  unfold deref. destruct self as [l|]; [|discriminate].
  destruct (h !! l) as [d0|] eqn:E; [|discriminate].
  intros [= <- <-]. split; [reflexivity|]. eauto.
Qed.

Lemma index_inv {A} (l : list A) i h a h' :
  index l i h = Ok (a, h') -> h' = h /\ l !! i = Some a.
Proof.
  unfold index. destruct (l !! i) as [x|]; [|discriminate].
  intros [= <- <-]. auto.
Qed.

(** A step that rewrites the receiver keeping its counter, or moving a
    negative counter to a negative one, never unfreezes. *)
Lemma mono_rewrite {A} self (k : DynamicJSON -> M A) :
  (forall l d h a h', self = Some l -> h !! l = Some d -> k d h = Ok (a, h') ->
                      keeps h h') ->
  mono (bind (deref self) k).
Proof.
  intros Hk h a h' H. unfold bind in H.
  destruct (deref self h) as [[d h1]| |] eqn:E; try discriminate.
  apply deref_inv in E as (-> & l & -> & Hl). eapply Hk; eauto.
Qed.

Lemma bind_inv {A B} (m : M A) (f : A -> M B) h b h' :
  bind m f h = Ok (b, h') ->
  exists a h1, m h = Ok (a, h1) /\ f a h1 = Ok (b, h').
Proof.
  unfold bind. destruct (m h) as [[a h1]| |]; try discriminate. eauto.
Qed.

Ltac index_step H :=
  let a := fresh "a" in let h1 := fresh "h" in let Hi := fresh "Hi" in
  apply bind_inv in H as (a & h1 & Hi & H);
  apply index_inv in Hi as (-> & Hi).

Ltac written H Hl :=
  unfold bind, update, store, ret in H; injection H as <- <-;
  (eapply keeps_update; [exact Hl | intros Hf; exact Hf]).

Ltac unchanged H := unfold ret in H; injection H as <- <-; apply keeps_refl.

Lemma mono_set self key v : mono (set self key v).
Proof.
  unfold set. apply mono_rewrite. intros l d h a h' -> Hl H.
  destruct (iterCounter d <? 0); [unchanged H|].
  destruct (keys d) as [ks|].
  - destruct (ks !! key) as [inx|].
    + index_step H. index_step H. written H Hl.
    + written H Hl.
  - destruct (key2Index key <? 0); [unchanged H | written H Hl].
Qed.

Lemma mono_SetI self i v : mono (SetI self i v).
Proof.
  unfold SetI. intros h a h' H.
  destruct (deref self h) as [[d h1]| |] eqn:E;
    unfold bind in H; rewrite E in H; try discriminate.
  apply deref_inv in E as (-> & l & -> & Hl).
  destruct (iterCounter d <? 0); [injection H as <- <-; apply keeps_refl|].
  destruct (IsArray_of d); [|eapply mono_set; exact H].
  destruct (i <? 0); [injection H as <- <-; apply keeps_refl|].
  unfold update, store, ret in H. injection H as <- <-.
  eapply keeps_update; [exact Hl | intros Hf; exact Hf].
Qed.

Lemma mono_Append self v : mono (Append self v).
Proof.
  unfold Append. destruct self as [l|]; [|apply mono_ret].
  apply mono_rewrite. intros l0 d h a h' [= <-] Hl H.
  destruct (IsArray_of d); [|injection H as <- <-; apply keeps_refl].
  unfold update, store in H. injection H as <- <-.
  eapply keeps_update; [exact Hl | intros Hf; exact Hf].
Qed.

Lemma mono_Clear self : mono (Clear self).
Proof.
  unfold Clear. destruct self as [l|]; [|apply mono_ret].
  apply mono_rewrite. intros l0 d h a h' [= <-] Hl H.
  destruct (iterCounter d <? 0); [injection H as <- <-; apply keeps_refl|].
  unfold update, store in H. injection H as <- <-.
  eapply keeps_update; [exact Hl | intros Hf; exact Hf].
Qed.

Lemma mono_packing self : mono (packing self).
Proof.
  unfold packing. destruct self as [l|]; [|apply mono_ret].
  apply mono_rewrite. intros l0 d h a h' [= <-] Hl H.
  destruct (negb (iterCounter d =? 0)); [unchanged H|].
  destruct (keys d) as [ks|]; [|unchanged H].
  destruct (packing_due d ks); [|unchanged H].
  destruct (packing_loop _ _ _ _ _ _ _) as [[[nv nk] ks']|]; [|discriminate].
  unfold update, store in H. injection H as <- <-.
  eapply keeps_update; [exact Hl | intros Hf; exact Hf].
Qed.

Lemma get_heap self key h r h' : get self key h = Ok (r, h') -> h' = h.
Proof.
  unfold get. destruct self as [l|]; [|intros [= _ <-]; reflexivity].
  intros H. apply bind_inv in H as (d & h1 & Hd & H).
  apply deref_inv in Hd as (-> & _).
  destruct (keys d) as [ks|].
  - destruct (ks !! key) as [inx|]; [|injection H as _ <-; reflexivity].
    apply bind_inv in H as (a & h1 & Hi & H). apply index_inv in Hi as (-> & _).
    injection H as _ <-. reflexivity.
  - destruct (key2Index key <? 0); [injection H as _ <-; reflexivity|].
    destruct (key2Index key <? len (values d)); [|injection H as _ <-; reflexivity].
    apply bind_inv in H as (a & h1 & Hi & H). apply index_inv in Hi as (-> & _).
    injection H as _ <-. reflexivity.
Qed.

Lemma mono_get self key : mono (get self key).
Proof. apply mono_read. intros h a h'. apply get_heap. Qed.

Lemma mono_createLevel path : mono (createLevelFromNextPath path).
Proof.
  intros h a h' H. rewrite createLevel_run in H. injection H as _ <-.
  apply keeps_alloc.
Qed.

Lemma mono_IsFrozen self : mono (IsFrozen self).
Proof.
  unfold IsFrozen. apply mono_rewrite. intros l d h a h' _ _ H. unchanged H.
Qed.

Lemma mono_doOp_loop fuel : forall level path ac sv x,
  mono (doOp_loop fuel level path ac sv x).
Proof.
  induction fuel as [|fuel IH]; intros level path ac sv x; [intros h a h'; discriminate|].
  cbn [doOp_loop]. destruct (path =? "")%string; [apply mono_ret|].
  destruct (IndexByte path "/" =? 0); [apply IH|].
  destruct (IndexByte path "/" >? 0).
  - apply mono_bind; [apply mono_get|]. intros [v b].
    assert (Hmake : mono (if ac then
                            let* nextMap := createLevelFromNextPath
                                (str_drop (Z.to_nat (IndexByte path "/" + 1)) path) in
                            let* _ := set level (str_take (Z.to_nat (IndexByte path "/")) path)
                                        (VDJ nextMap) in
                            doOp_loop fuel nextMap
                              (str_drop (Z.to_nat (IndexByte path "/" + 1)) path) ac sv x
                          else ret (VNil, false))).
    { destruct ac; [|apply mono_ret].
      apply mono_bind; [apply mono_createLevel|]. intros nextMap.
      apply mono_bind; [apply mono_set|]. intros _. apply IH. }
    destruct v; try exact Hmake. destruct b; [apply IH | exact Hmake].
  - apply mono_bind; [destruct sv; [apply mono_set | apply mono_ret]|].
    intros _. apply mono_bind; [apply mono_get|].
    intros [v b]. destruct b; apply mono_ret.
Qed.

Lemma mono_doOp self path ac sv x : mono (doOp self path ac sv x).
Proof.
  unfold doOp. apply mono_bind.
  - destruct sv; [apply mono_IsFrozen | apply mono_ret].
  - intros b. destruct b; [apply mono_ret | apply mono_doOp_loop].
Qed.

Lemma mono_Set self path v : mono (Set_ self path v).
Proof.
  unfold Set_. apply mono_bind; [apply mono_doOp | intros _; apply mono_ret].
Qed.

Lemma mono_Nested self path : mono (Nested self path).
Proof.
  unfold Nested. destruct self; [|apply mono_ret].
  apply mono_bind; [apply mono_doOp|]. intros [v b].
  destruct v; try apply mono_ret. destruct b; apply mono_ret.
Qed.

Lemma mono_Delete_loop fuel : forall self path, mono (Delete_loop fuel self path).
Proof.
  induction fuel as [|fuel IH]; intros self path; [intros h a h'; discriminate|].
  cbn [Delete_loop]. destruct self as [l|]; [|apply mono_ret].
  apply mono_rewrite. intros l0 d h a h' [= <-] Hl H.
  destruct (iterCounter d <? 0); [unchanged H|].
  destruct (IndexByte path "/" >=? 0).
  - refine ((_ : mono _) _ _ _ H).
    apply mono_bind; [apply mono_Nested|]. intros child.
    apply mono_bind; [apply IH | intros _; apply mono_ret].
  - destruct (keys d) as [ks|].
    + destruct (ks !! path) as [inx|]; [|unchanged H].
      index_step H.
      apply bind_inv in H as (u & h1 & Hu & H).
      unfold update, store in Hu. injection Hu as _ <-.
      eapply keeps_trans;
        [|refine ((_ : mono _) _ _ _ H);
          apply mono_bind; [apply mono_packing | intros _; apply mono_ret]].
      eapply keeps_update; [exact Hl | intros Hf; exact Hf].
    + destruct (key2Index path <? 0); [unchanged H|].
      destruct (key2Index path <? len (values d)); [written H Hl | unchanged H].
Qed.

Lemma mono_Delete self path : mono (Delete self path).
Proof. apply mono_Delete_loop. Qed.

Lemma mono_forEach {A} (f : A -> M unit) l :
  (forall a, mono (f a)) -> mono (forEach f l).
Proof.
  intros Hf. induction l as [|a l IH]; [apply mono_ret|].
  cbn [forEach]. apply mono_bind; [apply Hf | intros _; exact IH].
Qed.

Lemma mono_Freeze fuel : forall self, mono (Freeze fuel self).
Proof.
  induction fuel as [|fuel IH]; intros self; [intros h a h'; discriminate|].
  cbn [Freeze]. destruct self as [l|]; [|apply mono_ret].
  apply mono_bind; [apply mono_read; intros h a h' H; apply deref_inv in H; apply H|].
  intros d. destruct (iterCounter d <? 0); [apply mono_ret|].
  apply mono_bind.
  - apply mono_forEach. intros v.
    destruct (negb (IsArray_of d) && isDeleted v); [apply mono_ret|].
    destruct v; try apply mono_ret. apply IH.
  - intros _. apply mono_rewrite. intros l0 d' h a h' [= <-] Hl H.
    unfold update, store in H. injection H as <- <-.
    eapply keeps_update; [exact Hl | intros _; apply frozen_marked].
Qed.

Lemma mono_alloc d : mono (alloc d).
Proof. intros h a h' [= _ <-]. apply keeps_alloc. Qed.

Lemma mono_index {A} (l : list A) i : mono (index l i).
Proof. apply mono_read. intros h a h' H. apply index_inv in H. apply H. Qed.

Lemma mono_Clone fuel : forall self, mono (Clone fuel self).
Proof.
  induction fuel as [|fuel IH]; intros self; [intros h a h'; discriminate|].
  cbn [Clone]. destruct self as [l|]; [|apply mono_ret].
  assert (Hcv : forall v, mono (match v with
                                | VDJ c => let* c' := Clone fuel c in ret (VDJ c')
                                | _ => ret v
                                end)).
  { intros v. destruct v; try apply mono_ret.
    apply mono_bind; [apply IH | intros c'; apply mono_ret]. }
  apply mono_bind; [apply mono_read; intros h a h' H; apply deref_inv in H; apply H|].
  intros d. destruct (IsArray_of d).
  - apply mono_bind; [apply mono_alloc|]. intros x.
    apply mono_bind; [|intros _; apply mono_ret].
    apply mono_forEach. intros v. apply mono_bind; [apply Hcv|]. intros c.
    apply mono_rewrite. intros l0 dx h a h' -> Hl H.
    unfold update, store in H. injection H as <- <-.
    eapply keeps_update; [exact Hl | intros Hf; exact Hf].
  - apply mono_bind; [apply mono_alloc|]. intros x.
    apply mono_bind; [|intros _; apply mono_ret].
    apply mono_forEach. intros [i v]. simpl.
    destruct (isDeleted v); [apply mono_ret|].
    apply mono_bind; [apply mono_index|]. intros k.
    apply mono_bind; [apply Hcv|]. intros c. apply mono_Set.
Qed.

Lemma mono_Iterate_array {Acc} (cb : string -> value -> Acc -> M (bool * Acc)) fuel :
  (forall k v a, mono (cb k v a)) ->
  forall self i acc, mono (Iterate_array cb fuel self i acc).
Proof.
  intros Hcb. induction fuel as [|fuel IH]; intros self i acc;
    [intros h a h'; discriminate|].
  cbn [Iterate_array].
  apply mono_bind; [apply mono_read; intros h a h' H; apply deref_inv in H; apply H|].
  intros d. destruct (values d !! i) as [v|]; [|apply mono_ret].
  apply mono_bind; [apply Hcb|]. intros [b acc']. simpl.
  destruct b; [apply IH | apply mono_ret].
Qed.

Lemma mono_Iterate_map {Acc} (cb : string -> value -> Acc -> M (bool * Acc)) fuel :
  (forall k v a, mono (cb k v a)) ->
  forall self i acc, mono (Iterate_map cb fuel self i acc).
Proof.
  intros Hcb. induction fuel as [|fuel IH]; intros self i acc;
    [intros h a h'; discriminate|].
  cbn [Iterate_map].
  apply mono_bind; [apply mono_read; intros h a h' H; apply deref_inv in H; apply H|].
  intros d. destruct (values d !! i) as [v|]; [|apply mono_ret].
  destruct (isDeleted v); [apply IH|].
  apply mono_bind; [apply mono_index|]. intros k.
  apply mono_bind; [apply Hcb|]. intros [b acc']. simpl.
  destruct b; [apply IH | apply mono_ret].
Qed.

(** The counter of an iteration goes up only from a counter that is not
    negative, and a negative counter goes down: iterating never unfreezes. *)
Lemma mono_Iterate {Acc} (cb : string -> value -> Acc -> M (bool * Acc)) fuel self acc :
  (forall k v a, mono (cb k v a)) -> mono (Iterate cb fuel self acc).
Proof.
  intros Hcb. unfold Iterate. destruct self as [l|]; [|apply mono_ret].
  apply mono_rewrite. intros l0 d h a h' [= <-] Hl H.
  destruct (IsArray_of d); [exact (mono_Iterate_array cb fuel Hcb _ _ _ _ _ _ H)|].
  apply bind_inv in H as (u & h1 & Hu & H).
  assert (K1 : keeps h h1).
  { destruct (Z.geb_spec (iterCounter d) 0) as [Hc|Hc].
    - unfold update, store in Hu. injection Hu as _ <-.
      eapply keeps_update; [exact Hl|]. unfold frozen. simpl. lia.
    - injection Hu as _ <-. apply keeps_refl. }
  eapply keeps_trans; [exact K1|].
  refine ((_ : mono _) _ _ _ H).
  apply mono_bind; [apply mono_Iterate_map; exact Hcb|]. intros acc'.
  apply mono_bind; [apply mono_packing|]. intros _.
  apply mono_bind; [|intros _; apply mono_ret].
  destruct (iterCounter d >=? 0); [|apply mono_ret].
  apply mono_rewrite. intros l1 d' h2 a2 h2' [= <-] Hl2 H2.
  unfold update, store in H2. injection H2 as <- <-.
  eapply keeps_update; [exact Hl2|]. unfold frozen. simpl. lia.
Qed.

Lemma mono_exec c : mono (exec c).
Proof.
  induction c as [|c1 IH1 c2 IH2| | | | | | | | |fuel self cb IH]; cbn [exec].
  - apply mono_ret.
  - apply mono_bind; [exact IH1 | intros _; exact IH2].
  - apply mono_Set.
  - apply mono_bind; [apply mono_set | intros _; apply mono_ret].
  - apply mono_bind; [apply mono_SetI | intros _; apply mono_ret].
  - apply mono_Append.
  - apply mono_bind; [apply mono_Delete | intros _; apply mono_ret].
  - apply mono_Clear.
  - apply mono_Freeze.
  - apply mono_bind; [apply mono_Clone | intros _; apply mono_ret].
  - apply mono_Iterate. intros k v a.
    apply mono_bind; [apply IH | intros _; apply mono_ret].
Qed.

(** C5 (amended): on a store whose frozen documents have only frozen
    children, and below a receiver of finite depth, [Freeze] returns and
    leaves frozen the receiver and every Document reachable from it
    through the pointers its slots hold; it only marks documents that were
    not frozen, and changes nothing that is not reachable.  A tombstoned
    slot holds the sentinel and no pointer, so a deleted child is not
    reached.  And no call of the package, re-entrant iteration included,
    makes a frozen Document unfrozen. *)
Theorem Freeze_freezes (h : heap) (l : loc) (n fuel : nat) :
  depth_le h n (Some l) -> (n < fuel)%nat -> closed h ->
  (exists h',
     Freeze fuel (Some l) h = Ok (tt, h') /\
     (forall l', reach h l l' -> frozen_at h' l') /\
     freeze_step h h' /\ closed h' /\
     (forall l' d', h !! l' = Some d' -> ~ reach h l l' -> h' !! l' = Some d')) /\
  (forall (c : call) (h0 h1 : heap) (r : unit),
     exec c h0 = Ok (r, h1) -> forall x, frozen_at h0 x -> frozen_at h1 x).
Proof.
  intros D Hfuel C. split.
  - destruct (Freeze_ok n fuel Hfuel (Some l) h D C) as (h' & Hrun & S & C' & F & U).
    exists h'. split; [exact Hrun|]. split; [|split; [exact S | split; [exact C'|]]].
    + intros l' R. apply (F l l' eq_refl R).
    + intros l' d' Hl' Hn. apply U; [exact Hl'|]. intros l0 [= <-]. exact Hn.
  - intros c h0 h1 r H. exact (mono_exec c h0 r h1 H).
Qed.

Lemma depth_parentDoc : depth_le [parentDoc; emptyMap] 2 (Some 0%nat).
Proof.
  apply depth_node with (d := parentDoc); [reflexivity|].
  intros p [H|[]]. injection H as <-.
  apply depth_node with (d := emptyMap); [reflexivity|].
  intros p [].
Qed.

Lemma closed_parentDoc : closed [parentDoc; emptyMap].
Proof.
  intros l c (d & Hd & Hf) _. exfalso. unfold frozen in Hf.
  destruct l as [|[|l]]; simpl in Hd; try discriminate;
    injection Hd as <-; simpl in Hf; lia.
Qed.

Lemma Freeze_freezes_witness :
  exists h',
    Freeze 3 (Some 0%nat) [parentDoc; emptyMap] = Ok (tt, h') /\
    (forall l', reach [parentDoc; emptyMap] 0%nat l' -> frozen_at h' l').
Proof.
  destruct (Freeze_freezes [parentDoc; emptyMap] 0%nat 2 3
              depth_parentDoc ltac:(lia) closed_parentDoc)
    as ((h' & Hrun & Hall & _) & _).
  exists h'. split; [exact Hrun | exact Hall].
Defined.

(** C5, as stated, fails twice.  A child Document that was deleted (its
    slot is a tombstone) is not frozen by freezing the map.  And a frozen
    array to which [Append] added a child (see C1) is left, by a second
    [Freeze], with a reachable child that is not frozen. *)
Lemma Freeze_misses :
  result_of ((let* m := NewMap in
              do* Set_ m "a/b" (VInt 1) in
              let* c := Nested m "a" in
              let* _ := Delete m "a" in
              do* Freeze 5 m in
              let* fm := IsFrozen m in
              let* fc := IsFrozen c in
              ret (fm, fc)) [])
  = Some (true, false) /\
  result_of ((let* a := NewArray in
              do* Freeze 5 a in
              let* c := NewMap in
              do* Append a (VDJ c) in
              do* Freeze 5 a in
              let* fa := IsFrozen a in
              let* n := Len a in
              let* x := Get a "0" in
              let* fc := IsFrozen c in
              ret (fa, n, x, fc)) [])
  = Some (true, 1, VDJ (Some 1%nat), false).
Proof. split; vm_compute; reflexivity. Qed.


(** ** Clone *)

(** C10 at the failing input: the map the parser builds from the text
    [{"a/b":1}], whose one key holds a slash.  [Clone] copies the entries
    with the path-resolving [Set], so the clone has the key a with a
    nested map instead; an entry under the empty key is not copied at
    all.  The original is left as it was. *)
Theorem Clone_resolves_keys_as_paths :
  let d := {| keys := Some {["a/b" := 0%N]}; ordKeys := ["a/b"];
              iterCounter := 0; values := [VInt 1] |} in
  let e := {| keys := Some {["" := 0%N]}; ordKeys := [""];
              iterCounter := 0; values := [VInt 1] |} in
  (let* m := NewMap in let* _ := set m "a/b" (VInt 1) in ret tt) [] = Ok (tt, [d]) /\
  result_of ((let* c := Clone 3 (Some 0%nat) in
              let* k0 := Keys (Some 0%nat) in
              let* s0 := JSONLine (fun _ => "") (fun _ => "") 3 (Some 0%nat) in
              let* k1 := Keys c in
              let* s1 := JSONLine (fun _ => "") (fun _ => "") 3 c in
              ret (k0, s0, k1, s1)) [d])
  = Some (["a/b"], "{" +:+ quoted "a/b" +:+ ":1}",
          ["a"], "{" +:+ quoted "a" +:+ ":{" +:+ quoted "b" +:+ ":1}}") /\
  result_of ((let* c := Clone 3 (Some 0%nat) in
              let* n0 := Len (Some 0%nat) in
              let* n1 := Len c in
              ret (n0, n1)) [e])
  = Some (1, 0).
Proof. repeat split; vm_compute; reflexivity. Qed.

(** ** Reading back what was written *)

#[local] Arguments String.append : simpl nomatch.
#[local] Arguments Next : simpl never.

Lemma tree_ind' (P : tree -> Prop) :
  (forall s, P (TScalar s)) ->
  (forall ts, Forall P ts -> P (TArr ts)) ->
  (forall es, Forall (fun e => P (snd e)) es -> P (TObj es)) ->
  forall t, P t.
Proof.
  intros Hs Ha Ho. fix IH 1. intros [s|ts|es].
  - apply Hs.
  - apply Ha. induction ts as [|t ts IHts]; constructor; [apply IH | exact IHts].
  - apply Ho. induction es as [|[k t] es IHes]; constructor; [apply IH | exact IHes].
Qed.

Lemma str_app_assoc (a b c : string) : (a +:+ b) +:+ c = a +:+ (b +:+ c).
Proof. induction a as [|x a IH]; simpl; [reflexivity | f_equal; exact IH]. Qed.

Lemma str_app_nil_r (a : string) : a +:+ "" = a.
Proof. induction a as [|x a IH]; simpl; [reflexivity | f_equal; exact IH]. Qed.

Lemma str_take_app_le n : forall a b,
  (n <= String.length a)%nat -> str_take n (a +:+ b) = str_take n a.
Proof.
  induction n as [|n IH]; intros a b H; destruct a as [|x a]; simpl in *;
    try lia; try reflexivity; try (destruct b; reflexivity).
  f_equal. apply IH. lia.
Qed.

Lemma str_drop_app_ge n : forall a b,
  str_drop (String.length a + n) (a +:+ b) = str_drop n b.
Proof. intros a; induction a as [|x a IH]; intros b; simpl; [reflexivity | apply IH]. Qed.

Lemma str_take_all s : str_take (String.length s) s = s.
Proof. induction s as [|x s IH]; simpl; [reflexivity | f_equal; exact IH]. Qed.

Lemma slice_middle pre v rest i j :
  (i <= j)%nat -> (j <= String.length v)%nat ->
  slice (pre +:+ v +:+ rest) (String.length pre + i) (String.length pre + j)
  = slice v i j.
Proof.
  intros Hij Hj. unfold slice.
  rewrite str_drop_app_ge.
  replace (String.length pre + j - (String.length pre + i))%nat with (j - i)%nat by lia.
  revert v Hj Hij. revert j. induction i as [|i IH]; intros j v Hj Hij.
  - simpl. destruct v; simpl.
    + assert (j = 0%nat) by (simpl in Hj; lia). subst. simpl. destruct rest; reflexivity.
    + rewrite Nat.sub_0_r. apply (str_take_app_le j (String a v) rest). exact Hj.
  - destruct v as [|x v]; simpl in *; [lia|].
    destruct j as [|j]; [lia|]. simpl. apply IH; lia.
Qed.

Lemma substring_at strData tok h i j :
  at_ strData tok -> (i <= j)%nat -> (j <= String.length (Value tok))%nat ->
  let end_ := Z.of_nat (String.length strData) - Remaining tok in
  let start := end_ - Z.of_nat (String.length (Value tok)) in
  substring strData (start + Z.of_nat i) (end_ - Z.of_nat (String.length (Value tok) - j)) h
  = Ok (slice (Value tok) i j, h).
Proof.
  intros [pre ->] Hij Hj. cbv zeta. unfold Remaining, substring.
  rewrite !str_length_app.
  set (p := String.length pre). set (n := String.length (Value tok)).
  set (m := String.length (json tok)).
  replace (Z.of_nat (p + (n + m)) - Z.of_nat m - Z.of_nat n + Z.of_nat i)
    with (Z.of_nat (p + i)) by lia.
  replace (Z.of_nat (p + (n + m)) - Z.of_nat m - Z.of_nat (n - j))
    with (Z.of_nat (p + j)) by lia.
  replace ((0 <=? Z.of_nat (p + i)) && (Z.of_nat (p + i) <=? Z.of_nat (p + j))
           && (Z.of_nat (p + j) <=? Z.of_nat (p + (n + m)))) with true
    by (symmetry; rewrite !andb_true_iff, !Z.leb_le; lia).
  unfold ret. rewrite !Nat2Z.id. subst p. rewrite slice_middle by assumption.
  reflexivity.
Qed.

Lemma at_next strData tok tok' a b :
  at_ strData tok -> json tok = a +:+ b -> Value tok' = a -> json tok' = b ->
  at_ strData tok'.
Proof.
  intros [pre ->] Hj Hv Hb. exists (pre +:+ Value tok).
  rewrite Hj, Hv, Hb, !str_app_assoc. reflexivity.
Qed.

Lemma Next_open_array tok s :
  Err tok = false -> json tok = "[" +:+ s ->
  Next tok = ({| Delim := 0x5b; Value := "["; Kind := KArray; Err := false;
                 json := s; stack := inArray :: stack tok |}, true).
Proof. intros He Hj. unfold Next. rewrite He, Hj. reflexivity. Qed.

Lemma Next_open_object tok s :
  Err tok = false -> json tok = "{" +:+ s ->
  Next tok = ({| Delim := 0x7b; Value := "{"; Kind := KObject; Err := false;
                 json := s; stack := inObject :: stack tok |}, true).
Proof. intros He Hj. unfold Next. rewrite He, Hj. reflexivity. Qed.

Lemma Next_close_array tok s stk :
  Err tok = false -> json tok = "]" +:+ s -> stack tok = inArray :: stk ->
  Next tok = ({| Delim := 0x5d; Value := "]"; Kind := 0; Err := false;
                 json := s; stack := stk |}, true).
Proof.
  intros He Hj Hs. unfold Next. rewrite He, Hj. simpl.
  unfold delimToken. simpl. rewrite Hs. reflexivity.
Qed.

Lemma Next_close_object tok s stk :
  Err tok = false -> json tok = "}" +:+ s -> stack tok = inObject :: stk ->
  Next tok = ({| Delim := 0x7d; Value := "}"; Kind := 0; Err := false;
                 json := s; stack := stk |}, true).
Proof.
  intros He Hj Hs. unfold Next. rewrite He, Hj. simpl.
  unfold delimToken. simpl. rewrite Hs. reflexivity.
Qed.

Lemma Next_comma tok s b stk :
  Err tok = false -> json tok = "," +:+ s -> stack tok = b :: stk ->
  Next tok = ({| Delim := 0x2c; Value := ","; Kind := 0; Err := false;
                 json := s; stack := b :: stk |}, true).
Proof.
  intros He Hj Hs. unfold Next. rewrite He, Hj. simpl.
  unfold delimToken. simpl. rewrite Hs. reflexivity.
Qed.

Lemma Next_colon tok s :
  Err tok = false -> json tok = ":" +:+ s ->
  Next tok = ({| Delim := 0x3a; Value := ":"; Kind := 0; Err := false;
                 json := s; stack := stack tok |}, true).
Proof. intros He Hj. unfold Next. rewrite He, Hj. reflexivity. Qed.

Lemma token2value_eq fuel tok strData :
  token2value (S fuel) tok strData =
  let end_ := Z.of_nat (String.length strData) - Remaining tok in
  let start := end_ - Z.of_nat (String.length (Value tok)) in
  if Kind tok =? KArray then
    let* r := NewArray in arrayLoop fuel r tok strData
  else if Kind tok =? KObject then
    let* r := NewMap in objectLoop fuel r tok strData
  else if Kind tok =? KFalse then ret (VBool false, tok)
  else if Kind tok =? KTrue then ret (VBool true, tok)
  else if Kind tok =? KNull then ret (VNil, tok)
  else if Kind tok =? KUnescaped then
    let* s := substring strData (start + 1) (end_ - 1) in
    ret (VString s, tok)
  else if negb (Z.land (Kind tok) KString =? 0) then
    ret (VString (String_ tok), tok)
  else if negb (Z.land (Kind tok) KNum =? 0) then
    let* s := substring strData start end_ in
    ret (VNumber s, tok)
  else
    ret (VNil, {| Delim := Delim tok; Value := Value tok; Kind := Kind tok;
                  Err := true; json := json tok; stack := stack tok |}).
Proof. reflexivity. Qed.

Lemma arrayLoop_eq fuel r tok strData :
  arrayLoop (S fuel) r tok strData =
  let (tok1, ok) := Next tok in
  if negb ok then ret (VDJ r, tok1)
  else if Err tok1 then ret (VDJ r, tok1)
  else if Delim tok1 =? 0x5d then ret (VDJ r, tok1)
  else
    let (tok2, ok2) :=
      if Delim tok1 =? 0x2c then Next tok1 else (tok1, true) in
    if negb ok2 then ret (VDJ r, tok2)
    else
      let* (v, tok3) := token2value fuel tok2 strData in
      do* appendValue r v in
      arrayLoop fuel r tok3 strData.
Proof. reflexivity. Qed.

Lemma objectLoop_eq fuel r tok strData :
  objectLoop (S fuel) r tok strData =
  let (tok1, ok) := Next tok in
  if negb ok then ret (VDJ r, tok1)
  else if Err tok1 then ret (VDJ r, tok1)
  else
    let (tok2, ok2) :=
      if Delim tok1 =? 0x2c then Next tok1 else (tok1, true) in
    if negb ok2 then ret (VDJ r, tok2)
    else if Delim tok2 =? 0x7d then ret (VDJ r, tok2)
    else
      let* key :=
        if (Kind tok2 =? KUnescaped) && (1 <? String.length (Value tok2))%nat
        then
          let end_ := Z.of_nat (String.length strData) - Remaining tok2 in
          let start := end_ - Z.of_nat (String.length (Value tok2)) in
          substring strData (start + 1) (end_ - 1)
        else ret (String_ tok2) in
      let (tok3, _) := Next tok2 in
      let (tok4, ok4) := Next tok3 in
      if negb ok4 then ret (VDJ r, tok4)
      else
        let* (v, tok5) := token2value fuel tok4 strData in
        do* set r key v in
        objectLoop fuel r tok5 strData.
Proof. reflexivity. Qed.

Lemma substring_inner strData tok h :
  at_ strData tok -> (2 <= String.length (Value tok))%nat ->
  substring strData
    (Z.of_nat (String.length strData) - Remaining tok
     - Z.of_nat (String.length (Value tok)) + 1)
    (Z.of_nat (String.length strData) - Remaining tok - 1) h
  = Ok (slice (Value tok) 1 (String.length (Value tok) - 1), h).
Proof.
  intros Hat Hl.
  pose proof (substring_at strData tok h 1 (String.length (Value tok) - 1) Hat) as H.
  cbv zeta in H.
  replace (String.length (Value tok) - (String.length (Value tok) - 1))%nat
    with 1%nat in H by lia.
  apply H; lia.
Qed.

Lemma substring_whole strData tok h :
  at_ strData tok ->
  substring strData
    (Z.of_nat (String.length strData) - Remaining tok
     - Z.of_nat (String.length (Value tok)))
    (Z.of_nat (String.length strData) - Remaining tok) h
  = Ok (Value tok, h).
Proof.
  intros Hat.
  pose proof (substring_at strData tok h 0 (String.length (Value tok)) Hat) as H.
  cbv zeta in H. rewrite Nat.sub_diag, Z.add_0_r, Z.sub_0_r in H.
  rewrite H by lia. unfold slice. simpl. rewrite Nat.sub_0_r, str_take_all.
  reflexivity.
Qed.

Lemma token2value_scalar fuel tok strData h v :
  at_ strData tok -> decode (Kind tok) (Value tok) = Some v ->
  token2value (S fuel) tok strData h = Ok ((v, tok), h) /\ isScalar v = true.
Proof.
  intros Hat Hd. rewrite token2value_eq. cbv zeta. unfold decode in Hd.
  destruct (Kind tok =? KArray); [discriminate|]. cbn [orb] in Hd.
  destruct (Kind tok =? KObject); [discriminate|].
  destruct (Kind tok =? KFalse); [injection Hd as <-; split; reflexivity|].
  destruct (Kind tok =? KTrue); [injection Hd as <-; split; reflexivity|].
  destruct (Kind tok =? KNull); [injection Hd as <-; split; reflexivity|].
  destruct (Kind tok =? KUnescaped).
  { destruct (2 <=? String.length (Value tok))%nat eqn:Hl; [|discriminate].
    apply Nat.leb_le in Hl. injection Hd as <-.
    erewrite bind_Ok by (apply substring_inner; assumption).
    split; reflexivity. }
  destruct (negb (Z.land (Kind tok) KString =? 0));
    [injection Hd as <-; split; reflexivity|].
  destruct (negb (Z.land (Kind tok) KNum =? 0)); [|discriminate].
  injection Hd as <-.
  erewrite bind_Ok by (apply substring_whole; assumption).
  split; reflexivity.
Qed.

Section ReprProperties.
Context (ff : float64 -> string) (ft : Time -> string).

Lemma Forall2_Forall_r {A B} (R R' : A -> B -> Prop) (l : list A) (k : list B) :
  Forall (fun b => forall a, R a b -> R' a b) k ->
  Forall2 R l k -> Forall2 R' l k.
Proof.
  intros Hk H. induction H as [|a b l k Hab H IH]; constructor.
  - inversion Hk; subst. auto.
  - apply IH. inversion Hk; subst. assumption.
Qed.

Lemma repr_mono lo lo' (h h' : heap) :
  (lo' <= lo)%nat ->
  (forall l d, (lo <= l)%nat -> h !! l = Some d -> h' !! l = Some d) ->
  forall t v, repr ff ft lo h v t -> repr ff ft lo' h' v t.
Proof.
  intros Hlo Hag. induction t as [s|ts IH|es IH] using tree_ind'; intros v Hr;
    inversion Hr; subst.
  - constructor; assumption.
  - econstructor; [lia | eauto | assumption |].
    eapply Forall2_Forall_r; [|eassumption]. exact IH.
  - econstructor; [lia | eauto | eassumption |].
    eapply Forall2_Forall_r; [|eassumption].
    eapply Forall_impl; [exact IH|]. intros e He a [? ?]. split; auto.
Qed.

Lemma repr_weaken lo lo' (h : heap) t v :
  (lo' <= lo)%nat -> repr ff ft lo h v t -> repr ff ft lo' h v t.
Proof. intros Hlo. apply repr_mono; auto. Qed.

Lemma repr_app lo (h new : heap) t v :
  repr ff ft lo h v t -> repr ff ft lo (h ++ new) v t.
Proof.
  apply repr_mono; [lia|]. intros l d _ Hl. apply lookup_app_l_Some. exact Hl.
Qed.

Lemma repr_live lo (h : heap) t v : repr ff ft lo h v t -> isDeleted v = false.
Proof. intros Hr. inversion Hr; subst; try reflexivity. destruct v; try reflexivity; discriminate. Qed.

Lemma length_liveEntries_le d :
  (List.length (liveEntries d) <= List.length (values d))%nat.
Proof.
  unfold liveEntries. etransitivity; [apply filter_length_le|].
  rewrite length_zip. lia.
Qed.

Lemma Forall2_fst {A B C} (R : B -> C -> Prop) (l : list (A * B)) (k : list (A * C)) :
  Forall2 (fun e f => fst e = fst f /\ R (snd e) (snd f)) l k ->
  map fst l = map fst k.
Proof. induction 1 as [|e f l k [He _] _ IH]; simpl; congruence. Qed.

Lemma Forall2_foldr {A B} (R : A -> B -> Prop) (P : B -> Prop) (l : list A) (k : list B) :
  Forall2 R l k -> Forall (fun b => forall a, R a b -> P b) k ->
  fold_right (fun b Q => P b /\ Q) True k.
Proof.
  induction 1 as [|a b l k Hab H IH]; intros Hk; simpl; [exact I|].
  inversion Hk; subst. split; eauto.
Qed.

Lemma repr_wfTree lo (h : heap) : forall t v, repr ff ft lo h v t -> wfTree t.
Proof.
  induction t as [s|ts IH|es IH] using tree_ind'; intros v Hr;
    inversion Hr; subst; simpl.
  - exact I.
  - eapply Forall2_foldr; eassumption.
  - match goal with H : Forall2 _ (liveEntries _) es |- _ => rename H into HF end.
    match goal with H : wf_map _ _ |- _ => rename H into Hwf end.
    split; [|split].
    + rewrite <- (Forall2_fst _ _ _ HF). eapply wf_NoDup. exact Hwf.
    + rewrite <- (Forall2_length _ _ _ HF).
      pose proof (length_liveEntries_le d). pose proof (wf_small _ _ Hwf).
      unfold len in *. lia.
    + eapply (Forall2_foldr _ (fun e => wfTree (snd e))); [exact HF|].
      eapply Forall_impl; [exact IH|]. intros e He a [_ Ha]. eauto.
Qed.
End ReprProperties.

Lemma items_arrayTail rest : forall ts first,
  (items first (map render ts) +:+ "]") +:+ rest = arrayTail first ts rest.
Proof.
  induction ts as [|t ts IH]; intros first; simpl; [reflexivity|].
  rewrite <- IH, !str_app_assoc. reflexivity.
Qed.

Lemma render_array ts rest : render (TArr ts) +:+ rest = "[" +:+ arrayTail true ts rest.
Proof.
  destruct ts as [|t ts]; [reflexivity|].
  rewrite <- items_arrayTail.
  change (render (TArr (t :: ts))) with ("[" +:+ items true (map render (t :: ts)) +:+ "]").
  rewrite !str_app_assoc. reflexivity.
Qed.

Lemma items_objectTail rest : forall es first,
  (items first (map (fun e => encoded (fst e) +:+ ":" +:+ render (snd e)) es) +:+ "}")
  +:+ rest = objectTail first es rest.
Proof.
  induction es as [|e es IH]; intros first; simpl; [reflexivity|].
  rewrite <- IH, !str_app_assoc. reflexivity.
Qed.

Lemma render_object es rest : render (TObj es) +:+ rest = "{" +:+ objectTail true es rest.
Proof.
  destruct es as [|e es]; [reflexivity|].
  rewrite <- items_objectTail.
  change (render (TObj (e :: es)))
    with ("{" +:+ items true (map (fun e => encoded (fst e) +:+ ":" +:+ render (snd e)) (e :: es)) +:+ "}").
  rewrite !str_app_assoc. reflexivity.
Qed.

Lemma boundary_arrayTail ts rest : boundary (arrayTail false ts rest).
Proof. destruct ts; simpl; auto. Qed.

Lemma boundary_objectTail es rest : boundary (objectTail false es rest).
Proof. destruct es; simpl; auto. Qed.

Lemma cost_pos t : (1 <= cost t)%nat.
Proof. destruct t; simpl; lia. Qed.

Ltac conjs := repeat match goal with |- _ /\ _ => split end.

Lemma with_values_id d : with_values d (values d) = d.
Proof. destruct d; reflexivity. Qed.

Lemma with_values_app d v vs :
  with_values (with_values d (values d ++ [v]))
    (values (with_values d (values d ++ [v])) ++ vs)
  = with_values d (values d ++ v :: vs).
Proof. unfold with_values; simpl. rewrite <- app_assoc. reflexivity. Qed.

Lemma heap_step (h n1 n2 : heap) r x y :
  (r < List.length h)%nat ->
  <[r := x]> (<[r := y]> (h ++ n1)) ++ n2 = <[r := x]> h ++ (n1 ++ n2).
Proof.
  intros Hr. rewrite list_insert_insert_eq, insert_app_l by exact Hr.
  rewrite <- app_assoc. reflexivity.
Qed.

Lemma agree_tail (h n1 n2 : heap) r x l d :
  (List.length h <= l)%nat -> (h ++ n1) !! l = Some d ->
  (<[r := x]> h ++ (n1 ++ n2)) !! l = Some d.
Proof.
  intros Hl H. rewrite lookup_app_r in H by exact Hl.
  rewrite lookup_app_r by (rewrite length_insert; exact Hl).
  rewrite length_insert. apply lookup_app_l_Some. exact H.
Qed.

Lemma appendValue_run (h : heap) r d v :
  h !! r = Some d ->
  appendValue (Some r) v h = Ok (tt, <[r := with_values d (values d ++ [v])]> h).
Proof.
  intros Hr. unfold appendValue. erewrite bind_Ok by (apply deref_Some; exact Hr).
  reflexivity.
Qed.

Section ParserProperties.
Context (ff : float64 -> string) (ft : Time -> string).

Lemma parsesArray_step f :
  parsesValue ff ft f -> parsesArray ff ft f -> parsesArray ff ft (S f).
Proof.
  intros HV HA ts first strData tok rest h r d stk Hfuel Hread Hwf He Hj Hat
    Hstk Hr Hk.
  assert (Hlt : (r < List.length h)%nat) by (eapply lookup_lt_Some; exact Hr).
  destruct ts as [|t ts].
  - simpl in Hj.
    exists {| Delim := 0x5d; Value := "]"; Kind := 0; Err := false;
              json := rest; stack := stk |}, [], [].
    cbv zeta. rewrite arrayLoop_eq, (Next_close_array tok rest stk He Hj Hstk).
    rewrite !app_nil_r, with_values_id, list_insert_id by exact Hr.
    repeat split; try reflexivity.
    + apply (at_next strData tok _ "]" rest Hat Hj); reflexivity.
    + constructor.
  - simpl in Hread, Hwf, Hfuel. destruct Hread as [Hrt Hrts].
    destruct Hwf as [Hwt Hwts].
    assert (Hstart : exists tok1 tok2 v new1,
      arrayLoop (S f) (Some r) tok strData h =
        (let* (v, tok3) := token2value f tok1 strData in
         do* appendValue (Some r) v in
         arrayLoop f (Some r) tok3 strData) h /\
      token2value f tok1 strData h = Ok ((v, tok2), h ++ new1) /\
      Err tok2 = false /\ json tok2 = arrayTail false ts rest /\
      stack tok2 = stack tok /\ at_ strData tok2 /\
      repr ff ft (List.length h) (h ++ new1) v t).
    { destruct first.
      - simpl in Hj.
        destruct (HV t strData tok (arrayTail false ts rest) h) as
          (tok1 & tok2 & v & new1 & HN & He1 & Hd1 & Hd2 & Hd3 & Ht & He2 & Hj2
           & Hs2 & Hat2 & Hrv); try assumption; [lia | apply boundary_arrayTail |].
        exists tok1, tok2, v, new1. repeat split; try assumption.
        rewrite arrayLoop_eq, HN. simpl. rewrite He1.
        apply Z.eqb_neq in Hd1, Hd2. rewrite Hd1, Hd2. reflexivity.
      - simpl in Hj.
        pose proof (Next_comma tok _ _ stk He Hj Hstk) as HN0.
        set (tokc := {| Delim := 0x2c; Value := ","; Kind := 0; Err := false;
                        json := render t +:+ arrayTail false ts rest;
                        stack := inArray :: stk |}) in *.
        destruct (HV t strData tokc (arrayTail false ts rest) h) as
          (tok1 & tok2 & v & new1 & HN & He1 & Hd1 & Hd2 & Hd3 & Ht & He2 & Hj2
           & Hs2 & Hat2 & Hrv); try assumption; try reflexivity;
          [lia | apply (at_next strData tok _ "," _ Hat Hj); reflexivity
          | apply boundary_arrayTail |].
        exists tok1, tok2, v, new1. repeat split; try assumption.
        + rewrite arrayLoop_eq, HN0. simpl. rewrite HN. reflexivity.
        + rewrite Hs2. simpl. symmetry. exact Hstk. }
    destruct Hstart as (tok1 & tok2 & v & new1 & Heq & Ht & He2 & Hj2 & Hs2
                        & Hat2 & Hrv).
    set (d2 := with_values d (values d ++ [v])).
    destruct (HA ts false strData tok2 rest (<[r := d2]> (h ++ new1)) r d2 stk)
      as (tok' & vs & new & Hloop & He' & Hj' & Hs' & Hat' & Hvs);
      try assumption; [lia | congruence | |].
    { apply list_lookup_insert_eq. rewrite length_app. lia. }
    exists tok', (v :: vs), (new1 ++ new). cbv zeta in *.
    unfold d2 in Hloop, Hvs. rewrite with_values_app, heap_step in Hloop, Hvs by exact Hlt.
    repeat split; try assumption.
    + rewrite Heq. unfold bind at 1. rewrite Ht.
      erewrite bind_Ok
        by (apply appendValue_run; apply lookup_app_l_Some; exact Hr).
      exact Hloop.
    + constructor.
      * eapply repr_mono; [| |exact Hrv]; [lia|].
        intros l d0 Hl Hd0. eapply agree_tail; eassumption.
      * eapply Forall2_impl; [exact Hvs|]. intros a b Hab.
        eapply repr_weaken; [|exact Hab]. rewrite length_insert, length_app. lia.
Qed.

Lemma key_read strData tokk (h : heap) k :
  at_ strData tokk -> stringOf (Kind tokk) (Value tokk) = k ->
  (if (Kind tokk =? KUnescaped) && (1 <? String.length (Value tokk))%nat
   then
     let end_ := Z.of_nat (String.length strData) - Remaining tokk in
     let start := end_ - Z.of_nat (String.length (Value tokk)) in
     substring strData (start + 1) (end_ - 1)
   else ret (String_ tokk)) h = Ok (k, h).
Proof.
  intros Hat Hs. unfold stringOf in Hs.
  destruct ((Kind tokk =? KUnescaped) && (1 <? String.length (Value tokk))%nat)
    eqn:Hc.
  - apply andb_true_iff in Hc as [_ Hl]. apply Nat.ltb_lt in Hl. cbv zeta.
    rewrite substring_inner by (assumption || lia). rewrite Hs. reflexivity.
  - unfold String_, stringOf. rewrite Hc, Hs. reflexivity.
Qed.

Lemma parsesObject_step f :
  parsesValue ff ft f -> parsesObject ff ft f -> parsesObject ff ft (S f).
Proof.
  intros HV HO es first strData tok rest h r d ks stk Hfuel Hread Hwf Hnd
    Hfresh Hsmall He Hj Hat Hstk Hr Hwfm Hic.
  assert (Hlt : (r < List.length h)%nat) by (eapply lookup_lt_Some; exact Hr).
  destruct es as [|[k t] es].
  - simpl in Hj.
    exists {| Delim := 0x7d; Value := "}"; Kind := 0; Err := false;
              json := rest; stack := stk |}, d, ks, [], [].
    cbv zeta. rewrite objectLoop_eq, (Next_close_object tok rest stk He Hj Hstk).
    rewrite !app_nil_r, list_insert_id by exact Hr.
    conjs; try reflexivity; try assumption.
    + apply (at_next strData tok _ "}" rest Hat Hj); reflexivity.
    + constructor.
  - simpl in Hread, Hwf, Hfuel, Hsmall. destruct Hread as (Hrk & Hrt & Hres).
    destruct Hwf as [Hwt Hwes].
    destruct Hrk as (e & kind & Henc & Hreads & Hstr).
    set (tail := objectTail false es rest) in *.
    set (tokk := {| Delim := 0; Value := e; Kind := kind; Err := false;
                    json := ":" +:+ render t +:+ tail;
                    stack := inObject :: stk |}).
    assert (Hstart :
      objectLoop (S f) (Some r) tok strData h =
        (let* key :=
           if (Kind tokk =? KUnescaped) && (1 <? String.length (Value tokk))%nat
           then
             let end_ := Z.of_nat (String.length strData) - Remaining tokk in
             let start := end_ - Z.of_nat (String.length (Value tokk)) in
             substring strData (start + 1) (end_ - 1)
           else ret (String_ tokk) in
         let (tok3, _) := Next tokk in
         let (tok4, ok4) := Next tok3 in
         if negb ok4 then ret (VDJ (Some r), tok4)
         else
           let* (v, tok5) := token2value f tok4 strData in
           do* set (Some r) key v in
           objectLoop f (Some r) tok5 strData) h /\ at_ strData tokk).
    { cbn [objectTail fst snd] in Hj. unfold encoded in Hj. rewrite Henc in Hj.
      fold tail in Hj. destruct first.
      - change ("" +:+ e +:+ ":" +:+ render t +:+ tail)
          with (e +:+ ":" +:+ render t +:+ tail) in Hj.
        pose proof (Hreads tok _ He Hj (or_intror (or_intror (or_intror eq_refl))))
          as HN.
        unfold scalarToken in HN. rewrite Hstk in HN. fold tokk in HN.
        split; [|apply (at_next strData tok _ e _ Hat Hj); reflexivity].
        rewrite objectLoop_eq, HN. reflexivity.
      - pose proof (Next_comma tok _ _ stk He Hj Hstk) as HN0.
        set (tokc := {| Delim := 0x2c; Value := ","; Kind := 0; Err := false;
                        json := e +:+ ":" +:+ render t +:+ tail;
                        stack := inObject :: stk |}) in *.
        pose proof (Hreads tokc _ eq_refl eq_refl
                      (or_intror (or_intror (or_intror eq_refl)))) as HN.
        unfold scalarToken in HN. change (stack tokc) with (inObject :: stk) in HN.
        fold tokk in HN.
        assert (Hatc : at_ strData tokc)
          by (apply (at_next strData tok _ "," _ Hat Hj); reflexivity).
        split; [|apply (at_next strData tokc _ e _ Hatc eq_refl); reflexivity].
        rewrite objectLoop_eq, HN0. cbv beta iota.
        change (negb true) with false. change (Err tokc) with false.
        change (Delim tokc =? 44) with true. cbv beta iota. rewrite HN.
        reflexivity. }
    destruct Hstart as [Hstart Hatk].
    pose proof (key_read strData tokk h k Hatk Hstr) as Hkey.
    pose proof (Next_colon tokk (render t +:+ tail) eq_refl eq_refl) as HNc.
    set (tok3 := {| Delim := 0x3a; Value := ":"; Kind := 0; Err := false;
                    json := render t +:+ tail; stack := stack tokk |}) in *.
    destruct (HV t strData tok3 tail h) as
      (tok4 & tok5 & v & new1 & HN & He4 & Hd1 & Hd2 & Hd3 & Ht & He5 & Hj5
       & Hs5 & Hat5 & Hrv); try assumption; try reflexivity;
      [lia | apply (at_next strData tokk _ ":" _ Hatk eq_refl); reflexivity
      | apply boundary_objectTail |].
    assert (Hk : ks !! k = None) by (apply Hfresh; left; reflexivity).
    assert (Hlive : isDeleted v = false) by (eapply repr_live; exact Hrv).
    set (d2 := appended d ks k v).
    set (ks2 := <[k := uint32 (N.of_nat (List.length (values d)))]> ks).
    simpl in Hnd. apply List.NoDup_cons_iff in Hnd as [Hnotin Hnd'].
    destruct (HO es false strData tok5 rest (<[r := d2]> (h ++ new1)) r d2 ks2 stk)
      as (tok' & d' & ks' & les & new & Hloop & He' & Hj' & Hs' & Hat' & Hwf'
          & Hic' & Hle & Hles); try assumption.
    { lia. }
    { intros k' Hin. unfold ks2. rewrite lookup_insert_ne.
      - apply Hfresh. right. exact Hin.
      - intros ->. apply Hnotin. exact Hin. }
    { unfold d2, appended, len in *. simpl. rewrite length_app. simpl. lia. }
    { apply list_lookup_insert_eq. rewrite length_app. lia. }
    { apply wf_appended; try assumption. unfold len in *. lia. }
    exists tok', d', ks', ((k, v) :: les), (new1 ++ new). cbv zeta in *.
    rewrite heap_step in Hloop, Hles by exact Hlt.
    conjs; try assumption.
    + rewrite Hstart. erewrite bind_Ok by exact Hkey.
      rewrite HNc, HN. change (negb true) with false. cbv beta iota.
      unfold bind at 1. rewrite Ht.
      erewrite bind_Ok.
      2:{ apply set_map_fresh with (ks := ks); try assumption.
          - apply lookup_app_l_Some. exact Hr.
          - apply Hwfm.
          - unfold frozen. lia. }
      exact Hloop.
    + rewrite Hle. unfold d2. rewrite liveEntries_appended by (assumption || apply Hwfm).
      rewrite <- app_assoc. reflexivity.
    + constructor.
      * split; [reflexivity|]. simpl.
        eapply repr_mono; [| |exact Hrv]; [lia|].
        intros l d0 Hl Hd0. eapply agree_tail; eassumption.
      * eapply Forall2_impl; [exact Hles|]. intros a b [Hab1 Hab2]. split; [exact Hab1|].
        eapply repr_weaken; [|exact Hab2]. rewrite length_insert, length_app. lia.
Qed.

Lemma insert_last (h : heap) x y : <[List.length h := x]> (h ++ [y]) = h ++ [x].
Proof.
  rewrite insert_app_r_alt by lia. rewrite Nat.sub_diag. reflexivity.
Qed.

Lemma lookup_last (h new : heap) x : (h ++ x :: new) !! List.length h = Some x.
Proof. rewrite lookup_app_r by lia. rewrite Nat.sub_diag. reflexivity. Qed.

Lemma parsesValue_step f :
  parsesArray ff ft f -> parsesObject ff ft f -> parsesValue ff ft (S f).
Proof.
  intros HA HO t strData tok0 rest h Hfuel Hread Hwf He Hj Hat Hb.
  destruct t as [s|ts|es].
  - destruct Hread as (kind & v & Hreads & Hdec & Happ). simpl in Hj.
    pose proof (Hreads tok0 rest He Hj Hb) as HN.
    set (tok1 := scalarToken tok0 s kind rest) in *.
    assert (Hat1 : at_ strData tok1)
      by (apply (at_next strData tok0 _ s rest Hat Hj); reflexivity).
    destruct (token2value_scalar f tok1 strData h v Hat1 Hdec) as [Ht Hsc].
    exists tok1, tok1, v, []. rewrite app_nil_r.
    conjs; try assumption; try reflexivity; try (simpl; discriminate).
    constructor; assumption.
  - rewrite render_array in Hj.
    pose proof (Next_open_array tok0 _ He Hj) as HN.
    set (tok1 := {| Delim := 0x5b; Value := "["; Kind := KArray; Err := false;
                    json := arrayTail true ts rest;
                    stack := inArray :: stack tok0 |}) in *.
    simpl in Hfuel.
    destruct (HA ts true strData tok1 rest (h ++ [emptyArray]) (List.length h)
                emptyArray (stack tok0))
      as (tok' & vs & new & Hloop & He' & Hj' & Hs' & Hat' & Hvs);
      try assumption; try reflexivity; try lia; try apply lookup_last;
      try (apply (at_next strData tok0 _ "[" _ Hat Hj); reflexivity).
    cbv zeta in *. rewrite insert_last, <- app_assoc in Hloop, Hvs.
    simpl in Hloop, Hvs.
    exists tok1, tok', (VDJ (Some (List.length h))),
      (with_values emptyArray vs :: new).
    conjs; try assumption; try reflexivity; try (simpl; discriminate).
    eapply repr_array; [lia | apply lookup_last | reflexivity |].
    eapply Forall2_impl; [exact Hvs|]. intros a b Hab.
    eapply repr_weaken; [|exact Hab]. rewrite length_app. lia.
  - rewrite render_object in Hj.
    pose proof (Next_open_object tok0 _ He Hj) as HN.
    set (tok1 := {| Delim := 0x7b; Value := "{"; Kind := KObject; Err := false;
                    json := objectTail true es rest;
                    stack := inObject :: stack tok0 |}) in *.
    simpl in Hfuel. destruct Hwf as (Hnd & Hsmall & Hwes).
    destruct (HO es true strData tok1 rest (h ++ [emptyMap]) (List.length h)
                emptyMap ∅ (stack tok0))
      as (tok' & d' & ks' & les & new & Hloop & He' & Hj' & Hs' & Hat' & Hwf'
          & Hic' & Hle & Hles);
      try assumption; try reflexivity; try lia; try apply lookup_last;
      try apply wf_emptyMap;
      try (apply (at_next strData tok0 _ "{" _ Hat Hj); reflexivity).
    cbv zeta in *. rewrite insert_last, <- app_assoc in Hloop, Hles.
    simpl in Hloop, Hles.
    exists tok1, tok', (VDJ (Some (List.length h))), (d' :: new).
    conjs; try assumption; try reflexivity; try (simpl; discriminate).
    eapply repr_object; [lia | apply lookup_last | exact Hwf' |].
    rewrite Hle. simpl.
    eapply Forall2_impl; [exact Hles|]. intros a b [Hab1 Hab2]. split; [exact Hab1|].
    eapply repr_weaken; [|exact Hab2]. rewrite length_app. lia.
Qed.

Lemma parses_all fuel :
  parsesValue ff ft fuel /\ parsesArray ff ft fuel /\ parsesObject ff ft fuel.
Proof.
  induction fuel as [|f (HV & HA & HO)].
  - split; [|split].
    + intros t ? ? ? ? Hf. pose proof (cost_pos t). lia.
    + intros ? ? ? ? ? ? ? ? ? Hf. lia.
    + intros ? ? ? ? ? ? ? ? ? ? Hf. lia.
  - split; [|split].
    + apply parsesValue_step; assumption.
    + apply parsesArray_step; assumption.
    + apply parsesObject_step; assumption.
Qed.
End ParserProperties.

Section WriterProperties.
Context (ff : float64 -> string) (ft : Time -> string).

Lemma writeTo_compact f self :
  writeTo ff ft (S f) self false "" =
  let element v :=
    match v with
    | VDJ container => writeTo ff ft f container false ""
    | _ => lift (njsonAppend ff ft v)
    end in
  let* isArr := IsArray self in
  let* n := Len self in
  if isArr then
    if n =? 0 then ret "[]"
    else
      let* d := deref self in
      let* body := writeElements element (values d) true in
      ret ("[" +:+ body +:+ "]")
  else
    if n =? 0 then ret "{}"
    else
      let* d := deref self in
      let* body := writeEntries element (ordKeys d) (values d) 0 true in
      ret ("{" +:+ body +:+ "}").
Proof. reflexivity. Qed.

Lemma writeElements_cons element v vs first :
  writeElements element (v :: vs) first =
  let* e := element v in
  let* r := writeElements element vs false in
  ret ((if first : bool then "" else ",") +:+ e +:+ r).
Proof. reflexivity. Qed.

Lemma writeEntries_cons element oks v vs i first :
  writeEntries element oks (v :: vs) i first =
  if isDeleted v then writeEntries element oks vs (S i) first
  else
    let* key := index oks i in
    let* k := lift (encodeString key) in
    let* e := element v in
    let* r := writeEntries element oks vs (S i) false in
    ret ((if first : bool then "" else ",") +:+ k +:+ ":" +:+ e +:+ r).
Proof. reflexivity. Qed.

Lemma writeElements_render element (h : heap) : forall vs ts first,
  Forall2 (fun v t => element v h = Ok (render t, h)) vs ts ->
  writeElements element vs first h = Ok (items first (map render ts), h).
Proof.
  intros vs ts first H. revert first.
  induction H as [|v t vs ts Hv H IH]; intros first; [reflexivity|].
  rewrite writeElements_cons. erewrite bind_Ok by exact Hv.
  erewrite bind_Ok by apply IH. reflexivity.
Qed.

Lemma writeEntries_render element (h : heap) oks : forall vs oks' pre first es,
  oks = pre ++ oks' -> List.length oks' = List.length vs ->
  Forall2 (fun e f => fst e = fst f /\
             encodeString (fst e) = Ok (encoded (fst e)) /\
             element (snd e) h = Ok (render (snd f), h))
    (List.filter live (zip oks' vs)) es ->
  writeEntries element oks vs (List.length pre) first h
  = Ok (items first
          (map (fun e => encoded (fst e) +:+ ":" +:+ render (snd e)) es), h).
Proof.
  induction vs as [|v vs IH]; intros oks' pre first es Hoks Hlen H.
  - destruct oks'; simpl in *; inversion H; subst; reflexivity.
  - destruct oks' as [|k oks']; simpl in Hlen; [discriminate|].
    injection Hlen as Hlen. rewrite writeEntries_cons.
    assert (Hnext : oks = (pre ++ [k]) ++ oks')
      by (rewrite <- app_assoc; exact Hoks).
    assert (Hl : List.length (pre ++ [k]) = S (List.length pre))
      by (rewrite length_app; simpl; lia).
    simpl in H. destruct (isDeleted v) eqn:Hv; simpl in H.
    + rewrite <- Hl. eapply IH; eassumption.
    + inversion H as [|e f l l' (Hk & Henc & Hel) H']; subst. simpl in *.
      erewrite bind_Ok
        by (apply index_Some; apply list_lookup_middle; reflexivity).
      unfold lift at 1. erewrite bind_Ok by (rewrite Henc; reflexivity).
      erewrite bind_Ok by exact Hel.
      erewrite bind_Ok by (rewrite <- Hl; eapply IH; [exact Hnext|exact Hlen|exact H']).
      unfold ret. rewrite Hk, !str_app_assoc. reflexivity.
Qed.

Lemma foldr_Forall {A} (P : A -> Prop) (l : list A) :
  fold_right (fun a Q => P a /\ Q) True l <-> Forall P l.
Proof.
  induction l as [|a l IH]; simpl; split; intros H.
  - constructor.
  - exact I.
  - destruct H as [Ha Hl]. constructor; [exact Ha | apply IH; exact Hl].
  - inversion H; subst. split; [assumption | apply IH; assumption].
Qed.

Lemma cost_element ts : Forall (fun t => (S (cost t) <= list_sum (map (fun t => S (cost t)) ts))%nat) ts.
Proof.
  induction ts as [|t ts IH]; constructor; simpl; [lia|].
  eapply Forall_impl; [exact IH|]. simpl. intros; lia.
Qed.

Lemma cost_entry (es : list (string * tree)) :
  Forall (fun e => (S (cost (snd e)) <= list_sum (map (fun e => S (cost (snd e))) es))%nat) es.
Proof.
  induction es as [|t ts IH]; constructor; simpl; [lia|].
  eapply Forall_impl; [exact IH|]. simpl. intros; lia.
Qed.

Lemma IsArray_run (h : heap) l d :
  h !! l = Some d -> IsArray (Some l) h = Ok (IsArray_of d, h).
Proof. intros Hl. unfold IsArray. erewrite bind_Ok by (apply deref_Some; exact Hl). reflexivity. Qed.

Lemma Len_array (h : heap) l d :
  h !! l = Some d -> keys d = None -> Len (Some l) h = Ok (len (values d), h).
Proof.
  intros Hl Hk. unfold Len. erewrite bind_Ok by (apply deref_Some; exact Hl).
  rewrite Hk. reflexivity.
Qed.

Lemma element_render f lo (h : heap) v t :
  (forall t l, (cost t <= f)%nat -> repr ff ft lo h (VDJ (Some l)) t ->
     readable ff ft t ->
     writeTo ff ft f (Some l) false "" h = Ok (render t, h)) ->
  repr ff ft lo h v t -> (cost t <= f)%nat -> readable ff ft t ->
  match v with
  | VDJ container => writeTo ff ft f container false ""
  | _ => lift (njsonAppend ff ft v)
  end h = Ok (render t, h).
Proof.
  intros IH Hr Hc Hrd. inversion Hr; subst.
  - destruct v; try discriminate; unfold lift;
      match goal with H : njsonAppend _ _ _ = _ |- _ => rewrite H end; reflexivity.
  - apply IH; assumption.
  - apply IH; assumption.
Qed.

Lemma Forall2_Forall_both {A B} (R R' : A -> B -> Prop) (P : B -> Prop)
    (l : list A) (k : list B) :
  (forall a b, R a b -> P b -> R' a b) ->
  Forall2 R l k -> Forall P k -> Forall2 R' l k.
Proof.
  intros HR H. induction H as [|a b l k Hab H IH]; intros Hk; constructor;
    inversion Hk; subst; auto.
Qed.

Lemma writeTo_render fuel : forall t l lo (h : heap),
  (cost t <= fuel)%nat -> repr ff ft lo h (VDJ (Some l)) t -> readable ff ft t ->
  writeTo ff ft fuel (Some l) false "" h = Ok (render t, h).
Proof.
  induction fuel as [|f IH]; intros t l lo h Hc Hr Hrd.
  { pose proof (cost_pos t). lia. }
  rewrite writeTo_compact. cbv zeta.
  inversion Hr; subst;
    try match goal with H : isScalar _ = true |- _ => discriminate H end;
    match goal with H : h !! _ = Some _ |- _ => rename H into Hl end.
  - match goal with H : keys _ = None |- _ => rename H into Hk end.
    match goal with H : Forall2 _ _ _ |- _ => rename H into Hvs end.
    erewrite bind_Ok by (apply IsArray_run; exact Hl).
    erewrite bind_Ok by (eapply Len_array; eassumption).
    unfold IsArray_of. rewrite Hk.
    simpl in Hc, Hrd. apply foldr_Forall in Hrd.
    destruct (values d) as [|v vs] eqn:Hv.
    + inversion Hvs; subst. reflexivity.
    + inversion Hvs as [|? t ? ts' Hvt Hvs']; subst.
      change (len (v :: vs) =? 0) with false. cbv iota.
      erewrite bind_Ok by (apply deref_Some; exact Hl). rewrite Hv.
      erewrite bind_Ok.
      2:{ apply writeElements_render with (ts := t :: ts').
          eapply (Forall2_Forall_both _ _
                    (fun b => (cost b <= f)%nat /\ readable ff ft b));
            [|exact Hvs|].
          - intros a b Hab Hb. eapply (element_render f lo h a b);
              [|exact Hab|apply (proj1 Hb)|apply (proj2 Hb)].
            intros t0 l0 Hc0 Hr0 Hrd0. eapply IH; eassumption.
          - apply Forall_and; split; [|exact Hrd].
            eapply Forall_impl; [apply cost_element|]. intros x Hx. cbv beta in Hx. lia. }
      reflexivity.
  - match goal with H : wf_map _ _ |- _ => rename H into Hwf end.
    match goal with H : Forall2 _ _ _ |- _ => rename H into Hes end.
    erewrite bind_Ok by (apply IsArray_run; exact Hl).
    erewrite bind_Ok by (eapply Len_map; eassumption).
    unfold IsArray_of. rewrite (wf_keys _ _ Hwf).
    simpl in Hc, Hrd.
    assert (Hrd' : Forall (fun e => readableKey (fst e) /\ readable ff ft (snd e)) es).
    { clear -Hrd. induction es as [|e es IHes]; constructor; simpl in Hrd.
      - split; apply Hrd.
      - apply IHes. apply Hrd. }
    unfold liveKeys, len. rewrite length_map.
    destruct (liveEntries d) as [|e les] eqn:Hle.
    + inversion Hes; subst. reflexivity.
    + inversion Hes as [|? e' ? es' He Hes']; subst.
      change (Z.of_nat (List.length (e :: les)) =? 0) with false. cbv iota.
      erewrite bind_Ok by (apply deref_Some; exact Hl).
      erewrite bind_Ok.
      2:{ apply (writeEntries_render _ h (ordKeys d) (values d) (ordKeys d) [] true (e' :: es'));
            [reflexivity | apply (wf_len _ _ Hwf) |].
          fold (liveEntries d). rewrite Hle.
          eapply (Forall2_Forall_both _ _
                    (fun e => (cost (snd e) <= f)%nat /\
                              (readableKey (fst e) /\ readable ff ft (snd e))));
            [|exact Hes|].
          - intros a b [Hab1 Hab2] Hb. split; [exact Hab1|]. split.
            + destruct Hb as [_ [[e0 [kind [Henc _]]] _]].
              rewrite Hab1. unfold encoded. rewrite Henc. reflexivity.
            + eapply (element_render f lo h (snd a) (snd b));
                [|exact Hab2|apply (proj1 Hb)|apply (proj2 (proj2 Hb))].
              intros t0 l0 Hc0 Hr0 Hrd0. eapply IH; eassumption.
          - apply Forall_and; split; [|exact Hrd'].
            eapply Forall_impl; [apply cost_entry|]. intros x Hx. cbv beta in Hx. lia. }
      reflexivity.
Qed.
End WriterProperties.

Section ComparisonProperties.
Context (ff : float64 -> string) (ft : Time -> string).

Lemma IsEqualAsString_eq f self o :
  IsEqualAsString ff ft (S f) self o =
  let same (value1 value2 : value) : M bool :=
    match value1, value2 with
    | VDJ d1, VDJ d2 => IsEqualAsString ff ft f d1 d2
    | _, _ =>
        let* x1 := lift (scalar2str ff ft value1) in
        let* x2 := lift (scalar2str ff ft value2) in
        ret (String.eqb x1 x2)
    end in
  if decide (self = o) then ret true
  else
    match self with
    | None => ret false
    | Some _ =>
        let* array1 := IsArray self in
        let* array2 := IsArray o in
        if negb (Bool.eqb array1 array2) then ret false
        else
          let* d1 := deref self in
          let* d2 := deref o in
          if array1 then
            if negb (len (values d1) =? len (values d2)) then ret false
            else compareElements same (values d2) (values d1) 0%nat
          else
            match keys d1, keys d2 with
            | Some ks1, Some ks2 =>
                if negb (size ks1 =? size ks2)%nat then ret false
                else compareEntries same (ordKeys d1) ks2 (values d2)
                       (values d1) 0%nat
            | _, _ => panic
            end
    end.
Proof. reflexivity. Qed.

Lemma compareElements_cons same vs2 v vs i :
  compareElements same vs2 (v :: vs) i =
  let* value2 := index vs2 i in
  let* eq := same v value2 in
  if negb eq then ret false else compareElements same vs2 vs (S i).
Proof. reflexivity. Qed.

Lemma compareEntries_cons same oks1 ks2 vs2 v vs i :
  compareEntries same oks1 ks2 vs2 (v :: vs) i =
  if isDeleted v then compareEntries same oks1 ks2 vs2 vs (S i)
  else
    let* key1 := index oks1 i in
    match ks2 !! key1 with
    | None => ret false
    | Some inx =>
        let* value2 := index vs2 (N.to_nat inx) in
        let* eq := same v value2 in
        if negb eq then ret false
        else compareEntries same oks1 ks2 vs2 vs (S i)
    end.
Proof. reflexivity. Qed.

Lemma compareElements_true same (h : heap) vs2 : forall vs1 pre vs2',
  vs2 = pre ++ vs2' ->
  Forall2 (fun v1 v2 => same v1 v2 h = Ok (true, h)) vs1 vs2' ->
  compareElements same vs2 vs1 (List.length pre) h = Ok (true, h).
Proof.
  induction vs1 as [|v1 vs1 IH]; intros pre vs2' Hvs H; [reflexivity|].
  inversion H as [|? v2 ? vs2'' Hv H']; subst.
  rewrite compareElements_cons.
  erewrite bind_Ok by (apply index_Some; apply list_lookup_middle; reflexivity).
  erewrite bind_Ok by exact Hv. cbv beta iota. simpl negb. cbv iota.
  replace (S (List.length pre)) with (List.length (pre ++ [v2]))
    by (rewrite length_app; simpl; lia).
  apply (IH (pre ++ [v2]) vs2''); [rewrite <- app_assoc; reflexivity | exact H'].
Qed.

Lemma compareEntries_true same (h : heap) oks1 ks2 vs2 : forall vs i,
  (forall j v1, vs !! j = Some v1 -> isDeleted v1 = false ->
     exists k inx v2, oks1 !! (i + j)%nat = Some k /\ ks2 !! k = Some inx /\
       vs2 !! N.to_nat inx = Some v2 /\ same v1 v2 h = Ok (true, h)) ->
  compareEntries same oks1 ks2 vs2 vs i h = Ok (true, h).
Proof.
  induction vs as [|v vs IH]; intros i H; [reflexivity|].
  rewrite compareEntries_cons.
  assert (Hrest : compareEntries same oks1 ks2 vs2 vs (S i) h = Ok (true, h)).
  { apply IH. intros j v1 Hj Hv1.
    destruct (H (S j) v1 Hj Hv1) as (k & inx & v2 & Hk & Hrest).
    exists k, inx, v2. split; [|exact Hrest].
    replace (S i + j)%nat with (i + S j)%nat by lia. exact Hk. }
  destruct (isDeleted v) eqn:Hv; [exact Hrest|].
  destruct (H 0%nat v eq_refl Hv) as (k & inx & v2 & Hk & Hks & Hv2 & Hsame).
  rewrite Nat.add_0_r in Hk.
  erewrite bind_Ok by (apply index_Some; exact Hk). rewrite Hks.
  erewrite bind_Ok by (apply index_Some; exact Hv2).
  erewrite bind_Ok by exact Hsame. exact Hrest.
Qed.

Lemma same_true f lo lo' (h : heap) v1 v2 t :
  (forall t a b, (cost t <= f)%nat ->
     repr ff ft lo h (VDJ (Some a)) t -> repr ff ft lo' h (VDJ (Some b)) t ->
     IsEqualAsString ff ft f (Some a) (Some b) h = Ok (true, h)) ->
  (cost t <= f)%nat -> repr ff ft lo h v1 t -> repr ff ft lo' h v2 t ->
  match v1, v2 with
  | VDJ d1, VDJ d2 => IsEqualAsString ff ft f d1 d2
  | _, _ =>
      let* x1 := lift (scalar2str ff ft v1) in
      let* x2 := lift (scalar2str ff ft v2) in
      ret (String.eqb x1 x2)
  end h = Ok (true, h).
Proof.
  intros IH Hc H1 H2. inversion H1; subst; inversion H2; subst;
    try (eapply IH; eassumption).
  assert (Hs : (let* x1 := lift (scalar2str ff ft v1) in
                let* x2 := lift (scalar2str ff ft v2) in
                ret (String.eqb x1 x2)) h = Ok (true, h)).
  { unfold scalar2str, lift, bind, ret.
    repeat match goal with H : njsonAppend _ _ _ = _ |- _ => rewrite H; clear H end.
    rewrite String.eqb_refl. reflexivity. }
  destruct v1; try discriminate; exact Hs.
Qed.

Lemma Forall2_join {A A' B} (R : A -> B -> Prop) (R' : A' -> B -> Prop)
    (S : A -> A' -> Prop) (P : B -> Prop) (l : list A) (l' : list A') (k : list B) :
  (forall a a' b, P b -> R a b -> R' a' b -> S a a') ->
  Forall P k -> Forall2 R l k -> Forall2 R' l' k -> Forall2 S l l'.
Proof.
  intros HS HP H. revert l'. induction H as [|a b l k Hab H IH]; intros l' H';
    inversion H'; subst; constructor; inversion HP; subst; eauto.
Qed.

Lemma Forall2_In_l {A B} (R : A -> B -> Prop) (l : list A) (k : list B) a :
  Forall2 R l k -> In a l -> exists b, In b k /\ R a b.
Proof.
  induction 1 as [|x y l k Hxy H IH]; intros Hin; [destruct Hin|].
  destruct Hin as [->|Hin].
  - exists y. split; [left; reflexivity | exact Hxy].
  - destruct (IH Hin) as (b & Hb & Hab). exists b. split; [right; exact Hb | exact Hab].
Qed.

Lemma Forall2_In_r {A B} (R : A -> B -> Prop) (l : list A) (k : list B) b :
  Forall2 R l k -> In b k -> exists a, In a l /\ R a b.
Proof.
  induction 1 as [|x y l k Hxy H IH]; intros Hin; [destruct Hin|].
  destruct Hin as [->|Hin].
  - exists x. split; [left; reflexivity | exact Hxy].
  - destruct (IH Hin) as (a & Ha & Hab). exists a. split; [right; exact Ha | exact Hab].
Qed.

Lemma NoDup_fst_In {A B} (l : list (A * B)) k v v' :
  List.NoDup (map fst l) -> In (k, v) l -> In (k, v') l -> v = v'.
Proof.
  induction l as [|[k0 v0] l IH]; simpl; intros Hnd H1 H2; [destruct H1|].
  apply List.NoDup_cons_iff in Hnd as [Hnotin Hnd].
  destruct H1 as [H1|H1], H2 as [H2|H2].
  - congruence.
  - injection H1 as -> ->. exfalso. apply Hnotin.
    apply in_map_iff. exists (k, v'). split; [reflexivity | exact H2].
  - injection H2 as -> ->. exfalso. apply Hnotin.
    apply in_map_iff. exists (k, v). split; [reflexivity | exact H1].
  - eapply IH; eassumption.
Qed.

Lemma In_liveEntries d j k v :
  ordKeys d !! j = Some k -> values d !! j = Some v -> isDeleted v = false ->
  In (k, v) (liveEntries d).
Proof.
  intros Hk Hv Hl. unfold liveEntries. apply filter_In. split.
  - apply list_elem_of_In. eapply list_elem_of_lookup_2.
    apply zip_lookup; eassumption.
  - simpl. rewrite Hl. reflexivity.
Qed.

Lemma entries_agree lo lo' (h : heap) d1 ks1 d2 ks2 es j v1 :
  wf_map d1 ks1 -> wf_map d2 ks2 ->
  Forall2 (fun e f => fst e = fst f /\ repr ff ft lo h (snd e) (snd f))
    (liveEntries d1) es ->
  Forall2 (fun e f => fst e = fst f /\ repr ff ft lo' h (snd e) (snd f))
    (liveEntries d2) es ->
  values d1 !! j = Some v1 -> isDeleted v1 = false ->
  exists k inx v2 t,
    ordKeys d1 !! j = Some k /\ ks2 !! k = Some inx /\
    values d2 !! N.to_nat inx = Some v2 /\ In (k, t) es /\
    repr ff ft lo h v1 t /\ repr ff ft lo' h v2 t.
Proof.
  intros W1 W2 H1 H2 Hv Hl.
  destruct (wf_live _ _ W1 j v1 Hv Hl) as (k & Hk & _).
  pose proof (In_liveEntries d1 j k v1 Hk Hv Hl) as Hin1.
  destruct (Forall2_In_l _ _ _ _ H1 Hin1) as ([k' t] & Hf & Hkk & Hr1).
  simpl in Hkk, Hr1. subst k'.
  destruct (Forall2_In_r _ _ _ _ H2 Hf) as ([k2 v2] & Hin2 & Hk2 & Hr2).
  simpl in Hk2, Hr2. subst k2.
  assert (Hin : In k (liveKeys d2)).
  { unfold liveKeys. apply in_map_iff. exists (k, v2). split; [reflexivity|exact Hin2]. }
  apply (wf_In _ _ k W2) in Hin as [inx Hinx].
  destruct (wf_index _ _ W2 k inx Hinx) as (Hok & v2' & Hv2' & Hl2).
  pose proof (In_liveEntries d2 _ k v2' Hok Hv2' Hl2) as Hin2'.
  assert (v2' = v2)
    by (eapply NoDup_fst_In; [eapply (wf_NoDup d2); exact W2 | exact Hin2' | exact Hin2]).
  subst v2'. exists k, inx, v2, t. conjs; assumption.
Qed.

Lemma IsEqualAsString_repr fuel : forall t a b lo lo' (h : heap),
  (cost t <= fuel)%nat ->
  repr ff ft lo h (VDJ (Some a)) t -> repr ff ft lo' h (VDJ (Some b)) t ->
  IsEqualAsString ff ft fuel (Some a) (Some b) h = Ok (true, h).
Proof.
  induction fuel as [|f IH]; intros t a b lo lo' h Hc H1 H2.
  { pose proof (cost_pos t). lia. }
  rewrite IsEqualAsString_eq. cbv zeta.
  destruct (decide (Some a = Some b)) as [|_]; [reflexivity|].
  inversion H1; subst;
    try match goal with H : isScalar _ = true |- _ => discriminate H end;
    inversion H2; subst;
    match goal with H : h !! a = Some _ |- _ => rename H into Ha end;
    match goal with H : h !! b = Some _ |- _ => rename H into Hb end.
  - erewrite bind_Ok by (apply IsArray_run; exact Ha).
    erewrite bind_Ok by (apply IsArray_run; exact Hb).
    unfold IsArray_of.
    repeat match goal with H : keys _ = None |- _ => rewrite H; clear H end.
    cbn [negb Bool.eqb].
    erewrite bind_Ok by (apply deref_Some; exact Ha).
    erewrite bind_Ok by (apply deref_Some; exact Hb).
    match goal with
    | F1 : Forall2 _ (values d) ts, F2 : Forall2 _ (values d0) ts |- _ =>
        rename F1 into HF1; rename F2 into HF2
    end.
    replace (len (values d) =? len (values d0)) with true.
    2:{ symmetry. apply Z.eqb_eq. unfold len.
        rewrite (Forall2_length _ _ _ HF1), (Forall2_length _ _ _ HF2). reflexivity. }
    cbn [negb].
    apply (compareElements_true _ h (values d0) (values d) [] (values d0) eq_refl).
    eapply (Forall2_join _ _ _ (fun t => (cost t <= f)%nat)); [| |exact HF1|exact HF2].
    + intros v1 v2 t0 Ht0 Hr1 Hr2. eapply same_true; try eassumption.
      intros; eapply IH; eassumption.
    + simpl in Hc. eapply Forall_impl; [apply cost_element|].
      intros x Hx. cbv beta in Hx. lia.
  - match goal with
    | W1 : wf_map d _, W2 : wf_map d0 _ |- _ => rename W1 into HW1; rename W2 into HW2
    end.
    match goal with
    | F1 : Forall2 _ (liveEntries d) es, F2 : Forall2 _ (liveEntries d0) es |- _ =>
        rename F1 into HF1; rename F2 into HF2
    end.
    erewrite bind_Ok by (apply IsArray_run; exact Ha).
    erewrite bind_Ok by (apply IsArray_run; exact Hb).
    unfold IsArray_of. rewrite (wf_keys _ _ HW1), (wf_keys _ _ HW2).
    cbn [negb Bool.eqb].
    erewrite bind_Ok by (apply deref_Some; exact Ha).
    erewrite bind_Ok by (apply deref_Some; exact Hb).
    rewrite (wf_keys _ _ HW1), (wf_keys _ _ HW2).
    replace (size ks =? size ks0)%nat with true.
    2:{ symmetry. apply Nat.eqb_eq.
        rewrite (wf_size _ _ HW1), (wf_size _ _ HW2). unfold liveKeys.
        rewrite !length_map, (Forall2_length _ _ _ HF1), (Forall2_length _ _ _ HF2).
        reflexivity. }
    cbn [negb].
    apply compareEntries_true. intros j v1 Hj Hv1.
    destruct (entries_agree lo lo' h d ks d0 ks0 es j v1 HW1 HW2 HF1 HF2 Hj Hv1)
      as (k & inx & v2 & t & Hk & Hks & Hv2 & Hin & Hr1 & Hr2).
    exists k, inx, v2. conjs; try assumption.
    eapply same_true; try eassumption.
    + intros; eapply IH; eassumption.
    + simpl in Hc. pose proof (cost_entry es) as Hce.
      rewrite Forall_forall in Hce. specialize (Hce (k, t)).
      simpl in Hce. cut (S (cost t) <= list_sum (map (fun e : string * tree => S (cost (snd e))) es))%nat; [lia|].
      apply Hce. apply list_elem_of_In. exact Hin.
Qed.
End ComparisonProperties.

Section RoundTrip.
Context (ff : float64 -> string) (ft : Time -> string).

Lemma Parse_render fuel t h :
  (forall s, t <> TScalar s) ->
  (cost t <= fuel)%nat -> readable ff ft t -> wfTree t ->
  exists r new,
    Parse fuel (render t) h = Ok ((Some r, None), h ++ new) /\
    repr ff ft (List.length h) (h ++ new) (VDJ (Some r)) t.
Proof.
  intros Hcont Hc Hrd Hwf.
  destruct (parses_all ff ft fuel) as (HV & _ & _).
  set (tok0 := NewTokenizer (render t)).
  destruct (HV t (render t) tok0 "" h Hc Hrd Hwf eq_refl) as
    (tok1 & tok2 & v & new & HN & He1 & _ & _ & _ & Ht & He2 & _ & _ & _ & Hr).
  { simpl. rewrite str_app_nil_r. reflexivity. }
  { exists "". reflexivity. }
  { exact I. }
  assert (Hd : Delim tok1 = 0x7b \/ Delim tok1 = 0x5b).
  { destruct t as [s|ts|es].
    - exfalso. eapply Hcont. reflexivity.
    - right. pose proof (render_array ts "") as Hj. rewrite str_app_nil_r in Hj.
      rewrite (Next_open_array tok0 _ eq_refl Hj) in HN.
      injection HN as <-. reflexivity.
    - left. pose proof (render_object es "") as Hj. rewrite str_app_nil_r in Hj.
      rewrite (Next_open_object tok0 _ eq_refl Hj) in HN.
      injection HN as <-. reflexivity. }
  assert (Hv : exists r, v = VDJ (Some r)).
  { inversion Hr; subst; eauto. exfalso. eapply Hcont. reflexivity. }
  destruct Hv as [r ->]. exists r, new. split; [|exact Hr].
  unfold Parse. fold tok0. rewrite HN.
  replace (negb (Delim tok1 =? 123) && negb (Delim tok1 =? 91)) with false
    by (destruct Hd as [-> | ->]; reflexivity).
  unfold bind. rewrite Ht, He2. reflexivity.
Qed.

Lemma repr_Keys lo (h : heap) l es :
  repr ff ft lo h (VDJ (Some l)) (TObj es) -> Keys (Some l) h = Ok (map fst es, h).
Proof.
  intros Hr. inversion Hr; subst.
  match goal with H : Forall2 _ _ es |- _ => rewrite <- (Forall2_fst _ _ _ H) end.
  match goal with H : wf_map _ _ |- _ => rename H into W end.
  eapply Keys_map; [eassumption | apply (wf_keys _ _ W) | apply (wf_len _ _ W)].
Qed.

End RoundTrip.

(** ** What the scanner reads back *)

Ltac reads_tac :=
  let tok := fresh "tok" in let rest := fresh "rest" in
  let He := fresh "He" in let Hj := fresh "Hj" in let Hb := fresh "Hb" in
  intros tok rest He Hj Hb; unfold Next; rewrite He, Hj;
  destruct rest as [|? rest];
  [reflexivity | destruct Hb as [->|[->|[->| ->]]]; reflexivity].

Lemma reads_null : reads "null" KNull.
Proof. reads_tac. Qed.

Lemma reads_true : reads "true" KTrue.
Proof. reads_tac. Qed.

Lemma reads_false : reads "false" KFalse.
Proof. reads_tac. Qed.

Lemma get_plain : forall s j ch,
  plain s = true -> String.get j s = Some ch -> plainByte (byte_of ch) = true.
Proof.
  induction s as [|c s IH]; intros j ch Hp Hg; [discriminate|].
  unfold plain in Hp. simpl in Hp. apply andb_true_iff in Hp as [Hc Hs].
  destruct j as [|j]; simpl in Hg.
  - injection Hg as <-. exact Hc.
  - eapply IH; eassumption.
Qed.

Lemma get_lt : forall s j ch, String.get j s = Some ch -> (j < String.length s)%nat.
Proof.
  induction s as [|c s IH]; intros j ch Hg; [discriminate|].
  destruct j as [|j]; simpl in *; [lia|]. apply IH in Hg. lia.
Qed.

Lemma str_drop_0 s : str_drop 0 s = s.
Proof. destruct s; reflexivity. Qed.

Lemma encodeString_loop_plain s :
  plain s = true ->
  forall fuel j, (String.length s - j < fuel)%nat ->
    encodeString_loop fuel s 0 j quote = Ok (quote +:+ s +:+ quote).
Proof.
  intros Hp. induction fuel as [|f IH]; intros j Hf; [lia|].
  cbn [encodeString_loop]. destruct (String.get j s) as [ch|] eqn:Hg.
  - pose proof (get_plain s j ch Hp Hg) as Hc. unfold plainByte in Hc.
    rewrite Hc. apply IH. apply get_lt in Hg. lia.
  - rewrite str_drop_0. reflexivity.
Qed.

Lemma encodeString_plain s :
  plain s = true -> encodeString s = Ok (quote +:+ s +:+ quote).
Proof.
  intros Hp. unfold encodeString.
  destruct (String.length s =? 0)%nat eqn:Hl.
  - destruct s; [reflexivity | discriminate].
  - destruct (_ <? 0); [reflexivity|]. apply encodeString_loop_plain; [exact Hp | lia].
Qed.

Lemma plainByte_scan c :
  plainByte c = true -> (c =? 0x22) = false /\ (c <? 0x20) = false /\ (c =? 0x5c) = false.
Proof.
  unfold plainByte. rewrite !andb_true_iff, !negb_true_iff, !Z.leb_le.
  intros ((((((H1 & H2) & H3) & H4) & _) & _) & _).
  conjs; [exact H4 | apply Z.ltb_ge; exact H1 | exact H3].
Qed.

Lemma scanString_plain rest : forall s,
  plain s = true -> scanString (s +:+ quote +:+ rest) = Some (s +:+ quote, false, rest).
Proof.
  induction s as [|c s IH]; intros Hp; [reflexivity|].
  unfold plain in Hp. simpl in Hp. apply andb_true_iff in Hp as [Hc Hs].
  apply plainByte_scan in Hc as (H1 & H2 & H3).
  change (String c s +:+ quote +:+ rest) with (String c (s +:+ quote +:+ rest)).
  cbn [scanString]. rewrite H1, H2, H3, (IH Hs). reflexivity.
Qed.

Lemma reads_plain s : plain s = true -> reads (quote +:+ s +:+ quote) KUnescaped.
Proof.
  intros Hp tok rest He Hj _. unfold Next. rewrite He, Hj.
  change ((quote +:+ s +:+ quote) +:+ rest)
    with (String (ascii_of_nat 34) ((s +:+ quote) +:+ rest)).
  rewrite str_app_assoc.
  change (skipSpaces (String (ascii_of_nat 34) (s +:+ quote +:+ rest)))
    with (String (ascii_of_nat 34) (s +:+ quote +:+ rest)).
  cbv beta iota. change (byte_of (ascii_of_nat 34) =? 34) with true. cbv iota.
  rewrite (scanString_plain rest s Hp). reflexivity.
Qed.

Lemma slice_quoted s :
  slice (quote +:+ s +:+ quote) 1 (String.length (quote +:+ s +:+ quote) - 1) = s.
Proof.
  unfold slice. rewrite !str_length_app. simpl.
  replace (String.length s + 1 - 0 - 1)%nat with (String.length s) by lia.
  apply str_take_app.
Qed.

Lemma stringOf_quoted s : stringOf KUnescaped (quote +:+ s +:+ quote) = s.
Proof.
  unfold stringOf.
  replace ((KUnescaped =? KUnescaped) && (1 <? String.length (quote +:+ s +:+ quote))%nat)
    with true
    by (symmetry; apply andb_true_iff; split;
        [reflexivity | apply Nat.ltb_lt; rewrite !str_length_app; simpl; lia]).
  apply slice_quoted.
Qed.

(** A key of plain ASCII characters is read back as itself. *)
Lemma readableKey_plain s : plain s = true -> readableKey s.
Proof.
  intros Hp. exists (quote +:+ s +:+ quote), KUnescaped.
  conjs; [apply encodeString_plain; exact Hp | apply reads_plain; exact Hp
         | apply stringOf_quoted].
Qed.

Section ReadBack.
Context (ff : float64 -> string) (ft : Time -> string).

(** null, the booleans and a string of plain ASCII characters are read
    back with the text they were written with. *)
Lemma readableText_null : readableText ff ft "null".
Proof. exists KNull, VNil. conjs; [apply reads_null | reflexivity | reflexivity]. Qed.

Lemma readableText_true : readableText ff ft "true".
Proof. exists KTrue, (VBool true). conjs; [apply reads_true | reflexivity | reflexivity]. Qed.

Lemma readableText_false : readableText ff ft "false".
Proof. exists KFalse, (VBool false). conjs; [apply reads_false | reflexivity | reflexivity]. Qed.

Lemma readableText_plain s :
  plain s = true -> readableText ff ft (quote +:+ s +:+ quote).
Proof.
  intros Hp. exists KUnescaped, (VString s). conjs.
  - apply reads_plain. exact Hp.
  - unfold decode. cbn [orb Z.eqb KUnescaped KArray KObject KFalse KTrue KNull Pos.eqb].
    replace (2 <=? String.length (quote +:+ s +:+ quote))%nat with true
      by (symmetry; apply Nat.leb_le; rewrite !str_length_app; simpl; lia).
    rewrite slice_quoted. reflexivity.
  - simpl. apply encodeString_plain. exact Hp.
Qed.
End ReadBack.

(** ** Integers are read back *)

Lemma to_uint_head p d : Pos.to_uint p <> Decimal.D0 d.
Proof.
  intros H.
  pose proof (DecimalPos.Unsigned.to_of (Pos.to_uint p)) as Hn.
  rewrite DecimalPos.Unsigned.of_to in Hn. simpl in Hn.
  rewrite H in Hn. unfold Decimal.unorm in Hn.
  pose proof (DecimalFacts.nzhead_nonzero (Decimal.D0 d)) as Hz.
  destruct (Decimal.nzhead (Decimal.D0 d)) eqn:Hd; try discriminate.
  - injection Hn as ->. apply (DecimalPos.Unsigned.to_uint_nonzero p). exact H.
  - eapply Hz. reflexivity.
Qed.

Lemma boundary_not_digit c rest :
  boundary (String c rest) ->
  isDigit c = false /\ Ascii.eqb c "." = false /\ Ascii.eqb c "e" = false
  /\ Ascii.eqb c "E" = false.
Proof. intros [->|[->|[->| ->]]]; repeat split. Qed.

Lemma spanDigits_uint rest : boundary rest -> forall u,
  spanDigits (NilEmpty.string_of_uint u +:+ rest) = (NilEmpty.string_of_uint u, rest).
Proof.
  intros Hb. induction u as [|u IH|u IH|u IH|u IH|u IH|u IH|u IH|u IH|u IH|u IH];
    try (cbn [NilEmpty.string_of_uint];
         match goal with
         | |- spanDigits (String ?c ?s +:+ rest) = _ =>
             change (String c s +:+ rest) with (String c (s +:+ rest))
         end;
         cbn [spanDigits]; rewrite IH; reflexivity).
  cbn [NilEmpty.string_of_uint]. change ("" +:+ rest) with rest.
  destruct rest as [|c rest]; [reflexivity|].
  apply boundary_not_digit in Hb as (Hd & _). cbn [spanDigits]. rewrite Hd.
  reflexivity.
Qed.

Lemma digits_kind : forall u,
  existsb (fun c => Ascii.eqb c "." || Ascii.eqb c "e" || Ascii.eqb c "E")
    (list_ascii_of_string (NilEmpty.string_of_uint u)) = false.
Proof. induction u; simpl; try assumption; reflexivity. Qed.

Lemma uint_head u :
  u <> Decimal.Nil ->
  exists c s, NilEmpty.string_of_uint u = String c s /\ isDigit c = true /\
    (Ascii.eqb c "0" = true -> exists d, u = Decimal.D0 d).
Proof.
  intros Hu. destruct u; [contradiction|..]; simpl;
    eexists; eexists; (split; [reflexivity|]); (split; [reflexivity|]);
    intros H; try discriminate H. eexists; reflexivity.
Qed.

Lemma numberTail_boundary (sign ip rest : string) :
  boundary rest -> (String.length ip =? 0)%nat = false ->
  ((1 <? String.length ip)%nat && hasPrefix "0" ip) = false ->
  numberTail sign ip rest = Some (sign +:+ ip, rest).
Proof.
  intros Hb Hl Hz. unfold numberTail. rewrite Hl, Hz.
  destruct rest as [|c rest].
  - rewrite !str_app_nil_r. reflexivity.
  - apply boundary_not_digit in Hb as (_ & H1 & H2 & H3).
    rewrite H1. cbv iota beta. rewrite H2, H3. cbn [orb]. cbv iota.
    rewrite !str_app_nil_r. reflexivity.
Qed.

Lemma uint_tail sign u rest :
  boundary rest -> u <> Decimal.Nil -> (forall d, u = Decimal.D0 d -> d = Decimal.Nil) ->
  numberTail sign (NilEmpty.string_of_uint u) rest
  = Some (sign +:+ NilEmpty.string_of_uint u, rest).
Proof.
  intros Hb Hu Hz. destruct (uint_head u Hu) as (c & s & Hs & Hd & Hc).
  apply numberTail_boundary; [exact Hb | rewrite Hs; reflexivity |].
  destruct (Ascii.eqb c "0") eqn:Hc0.
  - destruct (Hc eq_refl) as [d ->]. rewrite (Hz d eq_refl). reflexivity.
  - rewrite Hs. apply andb_false_iff. right. unfold hasPrefix.
    cbn [String.length str_take]. simpl. rewrite Hc0. reflexivity.
Qed.

Lemma digit_not_minus c : isDigit c = true -> Ascii.eqb c "-" = false.
Proof.
  intros Hd. apply Ascii.eqb_neq. intros ->. discriminate Hd.
Qed.

Lemma scanNumber_uint u rest :
  boundary rest -> u <> Decimal.Nil -> (forall d, u = Decimal.D0 d -> d = Decimal.Nil) ->
  scanNumber (NilEmpty.string_of_uint u +:+ rest)
  = Some (NilEmpty.string_of_uint u, rest).
Proof.
  intros Hb Hu Hz. destruct (uint_head u Hu) as (c & s & Hs & Hd & _).
  unfold scanNumber.
  assert (Hsign : match NilEmpty.string_of_uint u +:+ rest with
                  | String c s' =>
                      if Ascii.eqb c "-" then ("-", s')
                      else ("", NilEmpty.string_of_uint u +:+ rest)
                  | _ => ("", NilEmpty.string_of_uint u +:+ rest)
                  end = ("", NilEmpty.string_of_uint u +:+ rest)).
  { rewrite Hs at 1. change (String c s +:+ rest) with (String c (s +:+ rest)).
    cbv iota beta. rewrite (digit_not_minus c Hd). reflexivity. }
  rewrite Hsign, (spanDigits_uint rest Hb u).
  apply (uint_tail "" u rest Hb Hu Hz).
Qed.

Lemma scanNumber_neg u rest :
  boundary rest -> u <> Decimal.Nil -> (forall d, u = Decimal.D0 d -> d = Decimal.Nil) ->
  scanNumber (String "-" (NilEmpty.string_of_uint u) +:+ rest)
  = Some (String "-" (NilEmpty.string_of_uint u), rest).
Proof.
  intros Hb Hu Hz. unfold scanNumber.
  change (String "-" (NilEmpty.string_of_uint u) +:+ rest)
    with (String "-" (NilEmpty.string_of_uint u +:+ rest)).
  cbv iota beta. change (Ascii.eqb "-" "-") with true. cbv iota.
  rewrite (spanDigits_uint rest Hb u).
  apply (uint_tail "-" u rest Hb Hu Hz).
Qed.

Lemma Next_number tok c s' num rest :
  Err tok = false -> json tok = String c s' ->
  Ascii.eqb c "-" = true \/ isDigit c = true ->
  scanNumber (String c s') = Some (num, rest) -> num <> "" ->
  Next tok = (scalarToken tok num (numberKind num) rest, true).
Proof.
  intros He Hj Hc Hs Hn. unfold Next. rewrite He, Hj.
  assert (Hb : byte_of c = 45 \/ 48 <= byte_of c <= 57).
  { destruct Hc as [Hc|Hc].
    - apply Ascii.eqb_eq in Hc as ->. left. reflexivity.
    - right. unfold isDigit in Hc. apply andb_true_iff in Hc as [H1 H2].
      apply Z.leb_le in H1, H2. lia. }
  assert (Hne : forall k, k <> 45 -> ~ 48 <= k <= 57 -> (byte_of c =? k) = false)
    by (intros k H1 H2; apply Z.eqb_neq; lia).
  cbn [skipSpaces]. rewrite !Hne by lia. cbn [orb]. cbv iota beta.
  rewrite !Hne by lia. rewrite Hs.
  replace ((byte_of c =? 45) || isDigit c) with true.
  2:{ symmetry. apply orb_true_iff. destruct Hc as [Hc|Hc]; [left|right; exact Hc].
      apply Ascii.eqb_eq in Hc as ->. reflexivity. }
  cbv iota. unfold scalarToken. cbn [Delim Value Err].
  destruct num; [contradiction|]. reflexivity.
Qed.

Lemma reads_uint u :
  u <> Decimal.Nil -> (forall d, u = Decimal.D0 d -> d = Decimal.Nil) ->
  reads (NilEmpty.string_of_uint u) KUint.
Proof.
  intros Hu Hz tok rest He Hj Hb.
  destruct (uint_head u Hu) as (c & s & Hs & Hd & _).
  assert (Hk : numberKind (NilEmpty.string_of_uint u) = KUint).
  { unfold numberKind. rewrite digits_kind, Hs. unfold hasPrefix. simpl.
    rewrite (digit_not_minus c Hd). reflexivity. }
  rewrite <- Hk.
  pose proof (scanNumber_uint u rest Hb Hu Hz) as Hscan.
  rewrite Hs in Hj, Hscan at 1.
  change (String c s +:+ rest) with (String c (s +:+ rest)) in Hj, Hscan.
  apply (Next_number tok c _ _ rest He Hj (or_intror Hd) Hscan).
  rewrite Hs. discriminate.
Qed.

Lemma reads_neg u :
  u <> Decimal.Nil -> (forall d, u = Decimal.D0 d -> d = Decimal.Nil) ->
  reads (String "-" (NilEmpty.string_of_uint u)) KInt.
Proof.
  intros Hu Hz tok rest He Hj Hb.
  assert (Hk : numberKind (String "-" (NilEmpty.string_of_uint u)) = KInt).
  { unfold numberKind. cbn [list_ascii_of_string existsb]. rewrite digits_kind.
    reflexivity. }
  rewrite <- Hk.
  pose proof (scanNumber_neg u rest Hb Hu Hz) as Hscan.
  change (String "-" (NilEmpty.string_of_uint u) +:+ rest)
    with (String "-" (NilEmpty.string_of_uint u +:+ rest)) in Hj, Hscan.
  apply (Next_number tok "-" _ _ rest He Hj (or_introl eq_refl) Hscan).
  discriminate.
Qed.

Lemma NilZero_uint u :
  u <> Decimal.Nil -> NilZero.string_of_uint u = NilEmpty.string_of_uint u.
Proof. destruct u; [contradiction | reflexivity..]. Qed.

(** A decimal integer, as Sprint writes it, is read as a number token of
    the same text. *)
Lemma reads_Sprint n : reads (Sprint n) (if n <? 0 then KInt else KUint).
Proof.
  unfold Sprint. destruct n as [|p|p]; cbn [Z.to_int NilZero.string_of_int Z.ltb Z.compare].
  - apply (reads_uint (Decimal.D0 Decimal.Nil)); [discriminate|].
    intros d [= <-]. reflexivity.
  - rewrite NilZero_uint by apply DecimalPos.Unsigned.to_uint_nonnil.
    apply reads_uint; [apply DecimalPos.Unsigned.to_uint_nonnil|].
    intros d Hd. exfalso. eapply to_uint_head. exact Hd.
  - rewrite NilZero_uint by apply DecimalPos.Unsigned.to_uint_nonnil.
    apply reads_neg; [apply DecimalPos.Unsigned.to_uint_nonnil|].
    intros d Hd. exfalso. eapply to_uint_head. exact Hd.
Qed.

Section ReadBackNumbers.
Context (ff : float64 -> string) (ft : Time -> string).

Lemma readableText_Sprint n : readableText ff ft (Sprint n).
Proof.
  exists (if n <? 0 then KInt else KUint), (VNumber (Sprint n)).
  conjs; [apply reads_Sprint | destruct (n <? 0); reflexivity | reflexivity].
Qed.

(** Every tree of null, booleans, decimal integers and plain strings under
    plain keys is read back as it is written. *)
Lemma plainTree_readable : forall t, plainTree t -> readable ff ft t.
Proof.
  induction t as [s|ts IH|es IH] using tree_ind'; simpl.
  - intros [->|[->|[->|[[n ->]|(x & Hx & ->)]]]].
    + apply readableText_null.
    + apply readableText_true.
    + apply readableText_false.
    + apply readableText_Sprint.
    + apply readableText_plain. exact Hx.
  - induction IH as [|t ts Ht _ IHts]; simpl; [intros; exact I|].
    intros [H1 H2]. split; [apply Ht; exact H1 | apply IHts; exact H2].
  - induction IH as [|e es He _ IHes]; simpl; [intros; exact I|].
    intros (H1 & H2 & H3). conjs;
      [apply readableKey_plain; exact H1 | apply He; exact H2 | apply IHes; exact H3].
Qed.
End ReadBackNumbers.

(** ** The round trip on examples *)

Lemma wf_tripDoc : wf_map tripDoc (<["a" := 1%N]> {["b" := 0%N]}).
Proof.
  apply (wf_appended (appended emptyMap ∅ "b" (VDJ (Some 1%nat))) {["b" := 0%N]}
           "a" (VString "hi")); try reflexivity.
  apply (wf_appended emptyMap ∅ "b" (VDJ (Some 1%nat))); try reflexivity.
  apply wf_emptyMap.
Qed.

Lemma repr_tripDoc :
  repr (fun _ => "0") (fun _ => "") 0 [tripDoc; tripItems] (VDJ (Some 0%nat)) tripTree.
Proof.
  eapply repr_object; [lia | reflexivity | apply wf_tripDoc |].
  repeat constructor.
  eapply repr_array with (d := tripItems); [lia | reflexivity | reflexivity |].
  repeat constructor.
Qed.

Lemma plain_tripTree : plainTree tripTree.
Proof.
  simpl. unfold plainText. conjs; try exact I; try reflexivity.
  - right. right. right. left. exists 1. reflexivity.
  - right. right. right. left. exists (-25). reflexivity.
  - right. left. reflexivity.
  - left. reflexivity.
  - right. right. right. right. exists "hi". split; reflexivity.
Qed.

Lemma readable_tripTree : readable (fun _ => "0") (fun _ => "") tripTree.
Proof. apply plainTree_readable. exact plain_tripTree. Qed.


Lemma wf_selfDoc : wf_map selfDoc {["a" := 0%N]}.
Proof.
  constructor; try reflexivity.
  - intros k inx Hk. apply lookup_singleton_Some in Hk as [<- <-].
    split; [reflexivity|]. exists (VDJ (Some 0%nat)). split; reflexivity.
  - intros i v Hi _. destruct i as [|i]; [|destruct i; discriminate].
    exists "a". split; [reflexivity|]. apply lookup_singleton_eq.
Qed.

(** A document that holds itself is never written: the serialiser recurses
    for ever. *)
Lemma writeTo_cycle ff ft fuel : JSONLine ff ft fuel (Some 0%nat) [selfDoc] = OutOfFuel.
Proof.
  unfold JSONLine. induction fuel as [|f IH]; [reflexivity|].
  rewrite writeTo_compact. cbv zeta.
  erewrite bind_Ok by (apply IsArray_run; reflexivity).
  erewrite bind_Ok by (eapply Len_map; [reflexivity | apply wf_selfDoc]).
  change (IsArray_of selfDoc) with false. cbv iota.
  change (len (liveKeys selfDoc) =? 0) with false. cbv iota.
  erewrite bind_Ok by (apply deref_Some; reflexivity).
  change (values selfDoc) with [VDJ (Some 0%nat)].
  change (ordKeys selfDoc) with ["a"].
  match goal with
  | |- bind ?m _ _ = _ => assert (Hb : m [selfDoc] = OutOfFuel)
  end.
  { rewrite writeEntries_cons. cbn [isDeleted].
    erewrite bind_Ok by (apply index_Some; reflexivity).
    erewrite bind_Ok by reflexivity.
    unfold bind at 1. rewrite IH. reflexivity. }
  unfold bind at 1. rewrite Hb. reflexivity.
Qed.


(** ** Decimal keys *)

Lemma digits_of_uint_acc : forall u a,
  digits (NilEmpty.string_of_uint u) (Z.pos a) = Some (Z.pos (Pos.of_uint_acc u a)).
Proof.
  induction u as [|u IH|u IH|u IH|u IH|u IH|u IH|u IH|u IH|u IH|u IH]; intros a;
    [reflexivity|..]; cbn [NilEmpty.string_of_uint digits Pos.of_uint_acc];
    match goal with
    | |- context [digits _ ?x] =>
        match goal with
        | |- _ = Some (Z.pos (Pos.of_uint_acc _ ?y)) =>
            replace x with (Z.pos y) by (vm_compute byte_of; lia)
        end
    end; apply IH.
Qed.

Lemma digits_of_uint : forall u,
  digits (NilEmpty.string_of_uint u) 0 = Some (Z.of_N (Pos.of_uint u)).
Proof.
  induction u as [|u IH|u IH|u IH|u IH|u IH|u IH|u IH|u IH|u IH|u IH];
    [reflexivity | exact IH | ..];
    exact (digits_of_uint_acc u _).
Qed.

Lemma digits_bounds : forall s acc x,
  0 <= acc -> digits s acc = Some x ->
  acc * 10 ^ Z.of_nat (String.length s) <= x
  < (acc + 1) * 10 ^ Z.of_nat (String.length s).
Proof.
  induction s as [|c s IH]; intros acc x Ha H.
  - injection H as <-. simpl. lia.
  - cbn [digits] in H.
    destruct ((0 <=? byte_of c - 48) && (byte_of c - 48 <=? 9)) eqn:Hd; [|discriminate].
    apply andb_true_iff in Hd as [H1 H2]. apply Z.leb_le in H1, H2.
    apply IH in H; [|lia].
    change (String.length (String c s)) with (S (String.length s)).
    rewrite Nat2Z.inj_succ, Z.pow_succ_r by lia.
    set (P := 10 ^ Z.of_nat (String.length s)) in *.
    assert (0 < P) by (apply Z.pow_pos_nonneg; lia). nia.
Qed.

Lemma key2Index_decimal n :
  key2Index (Sprint n) = if (0 <=? n) && (n <? 1000000000) then n else -1.
Proof.
  destruct n as [|p|p].
  - reflexivity.
  - unfold Sprint. cbn [Z.to_int NilZero.string_of_int].
    rewrite NilZero_uint by apply DecimalPos.Unsigned.to_uint_nonnil.
    set (u := Pos.to_uint p).
    assert (Hd : digits (NilEmpty.string_of_uint u) 0 = Some (Z.pos p)).
    { rewrite digits_of_uint. unfold u. rewrite DecimalPos.Unsigned.of_to. reflexivity. }
    destruct (uint_head u (DecimalPos.Unsigned.to_uint_nonnil p))
      as (c & s & Hs & Hc & Hz).
    assert (Hc0 : Ascii.eqb c "0" = false).
    { destruct (Ascii.eqb c "0") eqn:E; [|reflexivity].
      destruct (Hz eq_refl) as [d Hd0]. exfalso. eapply to_uint_head. exact Hd0. }
    unfold key2Index. rewrite key2Index_loop_digits, Hd, Hs.
    rewrite Hs in Hd. cbn [digits] in Hd.
    unfold isDigit in Hc. apply andb_true_iff in Hc as [Hc1 Hc2].
    apply Z.leb_le in Hc1, Hc2.
    assert (Hne : byte_of c <> 48).
    { intros E. apply Ascii.eqb_neq in Hc0. apply Hc0.
      unfold byte_of in E. apply (f_equal Z.to_N) in E. rewrite N2Z.id in E.
      apply (f_equal ascii_of_N) in E. rewrite ascii_N_embedding in E. exact E. }
    replace ((0 <=? byte_of c - 48) && (byte_of c - 48 <=? 9)) with true in Hd
      by (symmetry; apply andb_true_iff; split; apply Z.leb_le; lia).
    apply digits_bounds in Hd; [|lia].
    change (String.length (String c s)) with (S (String.length s)).
    set (k := String.length s) in *.
    assert (HP : 0 < 10 ^ Z.of_nat k) by (apply Z.pow_pos_nonneg; lia).
    change (0 <=? Z.pos p) with true. cbn [andb].
    destruct (Z.of_nat (S k) <? 10) eqn:Hk.
    + apply Z.ltb_lt in Hk.
      replace (0 <? Z.of_nat (S k)) with true by (symmetry; apply Z.ltb_lt; lia).
      cbn [andb].
      assert (10 ^ Z.of_nat k <= 10 ^ 8) by (apply Z.pow_le_mono_r; lia).
      replace (Z.pos p <? 1000000000) with true by (symmetry; apply Z.ltb_lt; nia).
      reflexivity.
    + apply Z.ltb_ge in Hk. rewrite andb_false_r.
      assert (10 ^ 9 <= 10 ^ Z.of_nat k) by (apply Z.pow_le_mono_r; lia).
      replace (Z.pos p <? 1000000000) with false by (symmetry; apply Z.ltb_ge; nia).
      reflexivity.
  - unfold Sprint. cbn [Z.to_int NilZero.string_of_int]. unfold key2Index.
    destruct ((0 <? _) && (_ <? 10)); reflexivity.
Qed.

(** X1: key2Index reads back the decimal text of an int: for every int
    [n], key2Index (fmt.Sprint n) is [n] when [0 <= n < 10^9], and -1
    otherwise (a negative number, or one of ten digits or more). *)
Theorem key2Index_Sprint n :
  key2Index (Sprint n) = if (0 <=? n) && (n <? 1000000000) then n else -1.
Proof. exact (key2Index_decimal n). Qed.

(** ** Maps as lists of live entries *)

Lemma entry_In k v es :
  List.NoDup (map fst es) -> In (k, v) es -> entry k es = Some v.
Proof.
  induction es as [|[k' v'] es IH]; simpl; intros Hnd Hin; [tauto|].
  apply List.NoDup_cons_iff in Hnd as [Hnotin Hnd].
  destruct Hin as [Heq|Hin].
  - inversion Heq; subst. rewrite String.eqb_refl. reflexivity.
  - destruct (String.eqb_spec k' k) as [->|Hne]; [|auto].
    exfalso. apply Hnotin. apply in_map_iff. exists (k, v). auto.
Qed.

Lemma entry_notin k es : ~ In k (map fst es) -> entry k es = None.
Proof.
  induction es as [|[k' v'] es IH]; simpl; intros Hn; [reflexivity|].
  destruct (String.eqb_spec k' k) as [->|Hne]; [tauto|].
  apply IH. tauto.
Qed.

Lemma entry_Some_In k v es : entry k es = Some v -> In (k, v) es.
Proof.
  induction es as [|[k' v'] es IH]; simpl; [discriminate|].
  destruct (String.eqb_spec k' k) as [->|Hne].
  - intros [= ->]. auto.
  - auto.
Qed.

Lemma entry_is_Some k es : is_Some (entry k es) <-> In k (map fst es).
Proof.
  split.
  - intros [v Hv]. apply entry_Some_In in Hv. apply in_map_iff.
    exists (k, v); auto.
  - intros Hin. destruct (entry k es) eqn:E; [eauto|].
    induction es as [|[k' v'] es IH]; simpl in *; [tauto|].
    destruct (String.eqb_spec k' k) as [->|Hne]; [discriminate|].
    apply IH; tauto.
Qed.

Lemma entry_app k es es' :
  entry k (es ++ es') = match entry k es with Some v => Some v | None => entry k es' end.
Proof.
  induction es as [|[k' v'] es IH]; simpl; [reflexivity|].
  destruct (String.eqb k' k); auto.
Qed.

Lemma entry_replace_value k v k' es :
  entry k' (replace_value k v es)
  = if String.eqb k k' then (match entry k es with Some _ => Some v | None => None end)
    else entry k' es.
Proof.
  induction es as [|[k0 v0] es IH]; simpl.
  - destruct (String.eqb k k'); reflexivity.
  - destruct (String.eqb_spec k0 k) as [->|Hne]; simpl.
    + destruct (String.eqb_spec k k') as [->|Hne']; [reflexivity|exact IH].
    + destruct (String.eqb_spec k k') as [<-|Hne'].
      * destruct (String.eqb_spec k0 k); [contradiction|]. exact IH.
      * destruct (String.eqb_spec k0 k'); [reflexivity|exact IH].
Qed.

Lemma entry_remove_key k k' es :
  entry k' (remove_key k es) = if String.eqb k k' then None else entry k' es.
Proof.
  induction es as [|[k0 v0] es IH]; simpl.
  - destruct (String.eqb k k'); reflexivity.
  - destruct (String.eqb_spec k0 k) as [->|Hne]; simpl.
    + destruct (String.eqb_spec k k') as [->|Hne']; [exact IH|exact IH].
    + destruct (String.eqb_spec k k') as [<-|Hne'].
      * destruct (String.eqb_spec k0 k); [contradiction|]. exact IH.
      * destruct (String.eqb_spec k0 k'); [reflexivity|exact IH].
Qed.

Lemma slot_entry d ks k : wf_map d ks -> slot d k = entry k (liveEntries d).
Proof.
  intros Hwf. unfold slot. rewrite (wf_keys _ _ Hwf).
  destruct (ks !! k) as [inx|] eqn:E.
  - destruct (wf_index _ _ Hwf _ _ E) as [Hk [v [Hv Hl]]].
    rewrite Hv. symmetry. apply entry_In.
    + exact (wf_NoDup _ _ Hwf).
    + exact (In_liveEntries _ _ _ _ Hk Hv Hl).
  - symmetry. apply entry_notin. intros Hin.
    apply (wf_In _ _ k Hwf) in Hin. rewrite E in Hin. destruct Hin; discriminate.
Qed.

Lemma wf_unique d ks ks' : wf_map d ks -> keys d = Some ks' -> wf_map d ks'.
Proof. intros Hwf Hk. rewrite (wf_keys _ _ Hwf) in Hk. inversion Hk; subst; exact Hwf. Qed.

Lemma get_entry h l d ks k :
  h !! l = Some d -> wf_map d ks ->
  get (Some l) k h = Ok (got (entry k (liveEntries d)), h).
Proof.
  intros Hl Hwf. rewrite (get_slot h l d k Hl).
  - rewrite (slot_entry _ _ _ Hwf). reflexivity.
  - intros ks'. apply (wf_unique _ ks). exact Hwf.
Qed.

Lemma Has_key h l d ks k :
  h !! l = Some d -> wf_map d ks -> IndexByte k "/" < 0 ->
  Has (Some l) k h
  = Ok (match entry k (liveEntries d) with Some _ => true | None => false end, h).
Proof.
  intros Hl Hwf Hk. unfold Has. simpl Has_loop.
  destruct (IndexByte k "/" >=? 0) eqn:E; [lia|].
  run. rewrite (wf_keys _ _ Hwf). unfold ret.
  rewrite <- (slot_entry _ _ _ Hwf). unfold slot. rewrite (wf_keys _ _ Hwf).
  destruct (ks !! k) as [inx|] eqn:E'; [|reflexivity].
  destruct (wf_index _ _ Hwf _ _ E') as [_ [v [-> _]]]. reflexivity.
Qed.

Lemma got_found o v : got o = (v, true) <-> o = Some v.
Proof. destruct o; simpl; split; congruence. Qed.

Lemma length_remove_key k (es : list (string * value)) :
  List.NoDup (map fst es) ->
  (List.length (remove_key k es)
   + (match entry k es with Some _ => 1 | None => 0 end))%nat = List.length es.
Proof.
  induction es as [|[k0 v0] es IH]; simpl; intros Hnd; [reflexivity|].
  apply List.NoDup_cons_iff in Hnd as [Hnotin Hnd].
  destruct (String.eqb_spec k0 k) as [->|Hne]; simpl.
  - fold (remove_key k es). rewrite remove_key_other; [lia|].
    intros p Hp Hk. apply Hnotin. rewrite <- Hk. apply in_map. exact Hp.
  - fold (remove_key k es). specialize (IH Hnd). lia.
Qed.

Lemma entry_elem k (es : list (string * value)) :
  bool_decide (k ∈ map fst es)
  = match entry k es with Some _ => true | None => false end.
Proof.
  destruct (entry k es) eqn:E.
  - apply bool_decide_eq_true. apply list_elem_of_In.
    apply entry_is_Some. rewrite E. eauto.
  - apply bool_decide_eq_false. rewrite list_elem_of_In.
    intros Hin. apply entry_is_Some in Hin. rewrite E in Hin.
    destruct Hin; discriminate.
Qed.

Lemma heap_insert_lookup (h : heap) l d d' :
  h !! l = Some d -> <[l := d']> h !! l = Some d'.
Proof. intros Hl. apply list_lookup_insert_eq. eapply lookup_lt_Some. exact Hl. Qed.

(** X2: on a well-formed map the read operations agree with one another
    and see only the live entries: Keys lists each live key once, Len is
    the number of keys, get finds exactly the keys that Keys lists (and
    Has answers the same for a key without a slash), and a value that get
    finds is never the tombstone. *)
Theorem map_reads (h : heap) (l : loc) (d : DynamicJSON) (ks : gmap string N) :
  h !! l = Some d -> wf_map d ks ->
  Keys (Some l) h = Ok (liveKeys d, h) /\
  List.NoDup (liveKeys d) /\
  Len (Some l) h = Ok (len (liveKeys d), h) /\
  (forall k, get (Some l) k h = Ok (got (entry k (liveEntries d)), h)) /\
  (forall k, k ∈ liveKeys d <-> exists v, get (Some l) k h = Ok ((v, true), h)) /\
  (forall k v, get (Some l) k h = Ok ((v, true), h) -> isDeleted v = false) /\
  (forall k, IndexByte k "/" < 0 ->
     Has (Some l) k h = Ok (bool_decide (k ∈ liveKeys d), h)).
Proof.
  intros Hl Hwf.
  split; [exact (Keys_map h l d ks Hl (wf_keys _ _ Hwf) (wf_len _ _ Hwf))|].
  split; [exact (wf_NoDup _ _ Hwf)|].
  split; [exact (Len_map h l d ks Hl Hwf)|].
  split; [intros k; exact (get_entry h l d ks k Hl Hwf)|].
  split; [|split].
  - intros k. rewrite (get_entry h l d ks k Hl Hwf), list_elem_of_In.
    unfold liveKeys. rewrite <- entry_is_Some. split.
    + intros [v ->]. exists v. reflexivity.
    + intros [v Hv]. injection Hv as Hv. apply got_found in Hv. eauto.
  - intros k v. rewrite (get_entry h l d ks k Hl Hwf). intros Hv.
    injection Hv as Hv. apply got_found in Hv. apply entry_Some_In in Hv.
    unfold liveEntries in Hv. apply filter_In in Hv as [_ Hv].
    simpl in Hv. destruct (isDeleted v); [discriminate|reflexivity].
  - intros k Hk. rewrite (Has_key h l d ks k Hl Hwf Hk).
    unfold liveKeys. rewrite entry_elem. reflexivity.
Qed.

Lemma map_reads_witness :
  Keys (Some 0%nat) [sparseMap] = Ok (["k"], [sparseMap]) /\
  Len (Some 0%nat) [sparseMap] = Ok (1, [sparseMap]) /\
  get (Some 0%nat) "k" [sparseMap] = Ok ((VInt 1, true), [sparseMap]) /\
  get (Some 0%nat) "x" [sparseMap] = Ok ((VNil, false), [sparseMap]).
Proof.
  destruct (map_reads [sparseMap] 0%nat sparseMap _ eq_refl wf_sparseMap)
    as (HK & _ & HL & HG & _).
  split; [exact HK|]. split; [exact HL|].
  split; [exact (HG "k") | exact (HG "x")].
Defined.

Lemma set_map_entries h l d ks k v :
  h !! l = Some d -> wf_map d ks -> ~ frozen d -> isDeleted v = false ->
  len (values d) + 1 < 4294967296 ->
  exists d' ks',
    set (Some l) k v h = Ok (None, <[l := d']> h) /\
    wf_map d' ks' /\ iterCounter d' = iterCounter d /\
    liveEntries d'
    = match entry k (liveEntries d) with
      | Some _ => replace_value k v (liveEntries d)
      | None => liveEntries d ++ [(k, v)]
      end.
Proof.
  intros Hl Hwf Hnf Hv Hroom.
  rewrite <- (slot_entry _ _ _ Hwf). unfold slot. rewrite (wf_keys _ _ Hwf).
  destruct (ks !! k) as [inx|] eqn:E.
  - destruct (wf_index _ _ Hwf _ _ E) as [_ [v0 [-> _]]].
    exists (overwritten d ks inx k v), ks.
    split; [exact (set_map_present h l d ks k inx v Hl Hwf Hnf E)|].
    split; [exact (wf_overwritten d ks k inx v Hwf E Hv)|].
    split; [reflexivity|].
    exact (liveEntries_overwritten d ks k inx v Hwf E Hv).
  - exists (appended d ks k v), (<[k := uint32 (N.of_nat (List.length (values d)))]> ks).
    split; [exact (set_map_fresh h l d ks k v Hl (wf_keys _ _ Hwf) Hnf E)|].
    split; [exact (wf_appended d ks k v Hwf E Hv Hroom)|].
    split; [reflexivity|].
    exact (liveEntries_appended d ks k v (wf_len _ _ Hwf) Hv).
Qed.

(** X3: set followed by get on a map.  On a well-formed map that is not
    frozen and has room for one more slot, set(k, v) with a value other
    than the tombstone succeeds; afterwards get(k) finds v, get of every
    other key answers what it answered before, the map is still
    well-formed and not frozen, and Len has grown by one exactly when k was
    not a key before. *)
Theorem set_then_get (h : heap) (l : loc) (d : DynamicJSON)
    (ks : gmap string N) (k : string) (v : value) :
  h !! l = Some d -> wf_map d ks -> ~ frozen d -> isDeleted v = false ->
  len (values d) + 1 < 4294967296 ->
  exists d' ks',
    let h' := <[l := d']> h in
    set (Some l) k v h = Ok (None, h') /\
    wf_map d' ks' /\ ~ frozen d' /\
    get (Some l) k h' = Ok ((v, true), h') /\
    (forall k' r, k' <> k -> get (Some l) k' h = Ok (r, h) ->
                  get (Some l) k' h' = Ok (r, h')) /\
    Len (Some l) h'
    = Ok (len (liveKeys d) + (if bool_decide (k ∈ liveKeys d) then 0 else 1), h').
Proof.
  intros Hl Hwf Hnf Hv Hroom.
  destruct (set_map_entries h l d ks k v Hl Hwf Hnf Hv Hroom)
    as (d' & ks' & Hset & Hwf' & Hc & Hlive).
  exists d', ks'. cbv zeta.
  pose proof (heap_insert_lookup h l d d' Hl) as Hl'.
  split; [exact Hset|]. split; [exact Hwf'|].
  split; [unfold frozen in *; rewrite Hc; exact Hnf|].
  split; [|split].
  - rewrite (get_entry _ l d' ks' k Hl' Hwf'), Hlive.
    destruct (entry k (liveEntries d)) eqn:E.
    + rewrite entry_replace_value, String.eqb_refl, E. reflexivity.
    + rewrite entry_app, E. simpl. rewrite String.eqb_refl. reflexivity.
  - intros k' r Hne. rewrite (get_entry h l d ks k' Hl Hwf).
    intros [= <-]. rewrite (get_entry _ l d' ks' k' Hl' Hwf'), Hlive.
    do 2 f_equal. f_equal.
    destruct (entry k (liveEntries d)) eqn:E.
    + rewrite entry_replace_value.
      destruct (String.eqb_spec k k'); [congruence|reflexivity].
    + rewrite entry_app. destruct (entry k' (liveEntries d)); [reflexivity|].
      simpl. destruct (String.eqb_spec k k'); [congruence|reflexivity].
  - rewrite (Len_map _ l d' ks' Hl' Hwf'). do 2 f_equal.
    unfold liveKeys at 1 3. rewrite entry_elem, Hlive. unfold liveKeys, len.
    destruct (entry k (liveEntries d)).
    + rewrite map_fst_replace_value. lia.
    + rewrite map_app, length_app. simpl. lia.
Qed.

Lemma set_then_get_witness :
  exists d' ks',
    let h' := <[0%nat := d']> [sparseMap] in
    set (Some 0%nat) "k" (VInt 2) [sparseMap] = Ok (None, h') /\
    wf_map d' ks' /\ ~ frozen d' /\
    get (Some 0%nat) "k" h' = Ok ((VInt 2, true), h') /\
    (forall k' r, k' <> "k" ->
       get (Some 0%nat) k' [sparseMap] = Ok (r, [sparseMap]) ->
       get (Some 0%nat) k' h' = Ok (r, h')) /\
    Len (Some 0%nat) h'
    = Ok (len (liveKeys sparseMap)
          + (if bool_decide ("k" ∈ liveKeys sparseMap) then 0 else 1), h').
Proof.
  apply (set_then_get [sparseMap] 0%nat sparseMap _ "k" (VInt 2) eq_refl
           wf_sparseMap).
  - unfold frozen. simpl. lia.
  - reflexivity.
  - vm_compute. reflexivity.
Defined.

Lemma Delete_absent h l d ks k :
  h !! l = Some d -> keys d = Some ks -> ~ frozen d -> IndexByte k "/" < 0 ->
  ks !! k = None -> Delete (Some l) k h = Ok (None, h).
Proof.
  intros Hl Hk Hnf Hs E. unfold Delete. simpl Delete_loop. run.
  rewrite (unfrozen_ltb _ Hnf).
  destruct (IndexByte k "/" >=? 0) eqn:E'; [lia|].
  rewrite Hk, E. reflexivity.
Qed.

(** X4: Delete followed by get on a map.  On a well-formed map that is not
    frozen, Delete of a key without a slash returns no error; afterwards
    get and Has do not find the key, get of every other key answers what it
    answered before (also when the deletion makes the map compact its
    slots), the order of the remaining keys is kept, the map is still
    well-formed and Len has dropped by one exactly when the key was
    present. *)
Theorem Delete_then_get (h : heap) (l : loc) (d : DynamicJSON)
    (ks : gmap string N) (k : string) :
  h !! l = Some d -> wf_map d ks -> ~ frozen d -> IndexByte k "/" < 0 ->
  exists d' ks',
    let h' := <[l := d']> h in
    Delete (Some l) k h = Ok (None, h') /\
    wf_map d' ks' /\
    liveEntries d' = remove_key k (liveEntries d) /\
    get (Some l) k h' = Ok ((VNil, false), h') /\
    Has (Some l) k h' = Ok (false, h') /\
    (forall k' r, k' <> k -> get (Some l) k' h = Ok (r, h) ->
                  get (Some l) k' h' = Ok (r, h')) /\
    Len (Some l) h'
    = Ok (len (liveKeys d) - (if bool_decide (k ∈ liveKeys d) then 1 else 0), h').
Proof.
  intros Hl Hwf Hnf Hs.
  assert (exists d' ks',
            Delete (Some l) k h = Ok (None, <[l := d']> h) /\
            wf_map d' ks' /\
            liveEntries d' = remove_key k (liveEntries d))
    as (d' & ks' & HD & Hwf' & Hlive).
  { destruct (ks !! k) as [inx|] eqn:E.
    - destruct (Delete_map_present h l d ks k inx Hl Hwf Hnf Hs E)
        as (d' & HD & _ & Hlive & _ & ks' & Hwf').
      exists d', ks'. auto.
    - exists d, ks. rewrite list_insert_id by exact Hl.
      split; [exact (Delete_absent h l d ks k Hl (wf_keys _ _ Hwf) Hnf Hs E)|].
      split; [exact Hwf|].
      symmetry. apply remove_key_other. intros p Hp Hk.
      assert (Hin : In k (liveKeys d)).
      { rewrite <- Hk. apply in_map. exact Hp. }
      apply (wf_In _ _ k Hwf) in Hin. rewrite E in Hin.
      destruct Hin; discriminate. }
  exists d', ks'. cbv zeta.
  pose proof (heap_insert_lookup h l d d' Hl) as Hl'.
  assert (Hgone : entry k (liveEntries d') = None).
  { rewrite Hlive, entry_remove_key, String.eqb_refl. reflexivity. }
  split; [exact HD|]. split; [exact Hwf'|]. split; [exact Hlive|].
  split; [|split; [|split]].
  - rewrite (get_entry _ l d' ks' k Hl' Hwf'), Hgone. reflexivity.
  - rewrite (Has_key _ l d' ks' k Hl' Hwf' Hs), Hgone. reflexivity.
  - intros k' r Hne. rewrite (get_entry h l d ks k' Hl Hwf).
    intros [= <-]. rewrite (get_entry _ l d' ks' k' Hl' Hwf'), Hlive.
    rewrite entry_remove_key.
    destruct (String.eqb_spec k k'); [congruence|reflexivity].
  - rewrite (Len_map _ l d' ks' Hl' Hwf'). do 2 f_equal.
    unfold liveKeys at 1 3. rewrite entry_elem.
    unfold liveKeys, len. rewrite !length_map, Hlive.
    pose proof (length_remove_key k (liveEntries d) (wf_NoDup _ _ Hwf)) as HL.
    destruct (entry k (liveEntries d)); lia.
Qed.

Lemma Delete_then_get_witness :
  exists d' ks',
    let h' := <[0%nat := d']> [sparseMap] in
    Delete (Some 0%nat) "k" [sparseMap] = Ok (None, h') /\
    wf_map d' ks' /\
    liveEntries d' = remove_key "k" (liveEntries sparseMap) /\
    get (Some 0%nat) "k" h' = Ok ((VNil, false), h') /\
    Has (Some 0%nat) "k" h' = Ok (false, h') /\
    (forall k' r, k' <> "k" ->
       get (Some 0%nat) k' [sparseMap] = Ok (r, [sparseMap]) ->
       get (Some 0%nat) k' h' = Ok (r, h')) /\
    Len (Some 0%nat) h'
    = Ok (len (liveKeys sparseMap)
          - (if bool_decide ("k" ∈ liveKeys sparseMap) then 1 else 0), h').
Proof.
  apply (Delete_then_get [sparseMap] 0%nat sparseMap _ "k" eq_refl wf_sparseMap).
  - unfold frozen. simpl. lia.
  - vm_compute. reflexivity.
Defined.

(** ** Arrays by index *)

Lemma indexZ_Some vs i v (h : heap) :
  0 <= i -> vs !! Z.to_nat i = Some v -> indexZ vs i h = Ok (v, h).
Proof.
  intros Hi Hv. unfold indexZ. destruct (Z.ltb_spec i 0); [lia|].
  apply index_Some. exact Hv.
Qed.

Lemma indexZ_neg vs i (h : heap) : i < 0 -> indexZ vs i h = Panic.
Proof. intros Hi. unfold indexZ. destruct (Z.ltb_spec i 0); [reflexivity|lia]. Qed.

Lemma GetI_array h l d i :
  h !! l = Some d -> keys d = None -> 0 <= i ->
  GetI (Some l) i h = Ok (default VNil (values d !! Z.to_nat i), h).
Proof.
  intros Hl Hk Hi. unfold GetI, IsArray_of. run. rewrite Hk. simpl.
  unfold len. destruct (Z.ltb_spec i (Z.of_nat (List.length (values d)))).
  - destruct (lookup_lt_is_Some_2 (values d) (Z.to_nat i)) as [v Hv]; [lia|].
    rewrite Hv. simpl. apply indexZ_Some; assumption.
  - rewrite lookup_ge_None_2 by lia. reflexivity.
Qed.

Lemma SetI_array h l d i v :
  h !! l = Some d -> keys d = None -> ~ frozen d -> 0 <= i ->
  SetI (Some l) i v h
  = Ok (None, <[l := with_values d (<[Z.to_nat i := v]> (extend (values d) i))]> h).
Proof.
  intros Hl Hk Hnf Hi. unfold SetI, IsArray_of. run.
  rewrite (unfrozen_ltb _ Hnf), Hk.
  destruct (Z.ltb_spec i 0); [lia|]. reflexivity.
Qed.



(** X6: the accessors by index test only the upper bound.  On an array,
    GetI, NestedI, ArrayI and MapI with a negative index fault (an index
    out of range), whereas past the end GetI and NestedI answer nil; SetI
    with a negative index returns an error (FrozenError on a frozen array,
    InvalidOperation otherwise) and changes nothing. *)
Theorem index_bounds (h : heap) (l : loc) (d : DynamicJSON) (i : Z) (v : value) :
  h !! l = Some d -> keys d = None ->
  (i < 0 ->
     GetI (Some l) i h = Panic /\ NestedI (Some l) i h = Panic /\
     ArrayI (Some l) i h = Panic /\ MapI (Some l) i h = Panic /\
     SetI (Some l) i v h
     = Ok (Some (if iterCounter d <? 0 then FrozenError else InvalidOperation), h)) /\
  (len (values d) <= i ->
     GetI (Some l) i h = Ok (VNil, h) /\ NestedI (Some l) i h = Ok (None, h)).
Proof.
  intros Hl Hk. split.
  - intros Hi.
    assert (Hlt : (i <? len (values d)) = true).
    { apply Z.ltb_lt. unfold len. lia. }
    unfold GetI, NestedI, ArrayI, MapI, SetI, IsArray_of.
    repeat (erewrite bind_Ok by (apply deref_Some; exact Hl)).
    rewrite Hk, Hlt. cbn [negb]. cbv beta iota.
    repeat split.
    + apply indexZ_neg. exact Hi.
    + unfold bind. cbv beta. rewrite indexZ_neg by exact Hi. reflexivity.
    + unfold bind. cbv beta. rewrite indexZ_neg by exact Hi. reflexivity.
    + unfold bind. cbv beta. rewrite indexZ_neg by exact Hi. reflexivity.
    + destruct (iterCounter d <? 0); [reflexivity|].
      destruct (Z.ltb_spec i 0); [reflexivity|lia].
  - intros Hi.
    assert (Hge : (i <? len (values d)) = false) by (apply Z.ltb_ge; exact Hi).
    unfold GetI, NestedI, IsArray_of.
    repeat (erewrite bind_Ok by (apply deref_Some; exact Hl)).
    rewrite Hk, Hge. cbn [negb]. split; reflexivity.
Qed.

Lemma index_bounds_witness :
  (GetI (Some 0%nat) (-1) [emptyArray] = Panic /\
   NestedI (Some 0%nat) (-1) [emptyArray] = Panic /\
   ArrayI (Some 0%nat) (-1) [emptyArray] = Panic /\
   MapI (Some 0%nat) (-1) [emptyArray] = Panic /\
   SetI (Some 0%nat) (-1) VNil [emptyArray]
   = Ok (Some (if iterCounter emptyArray <? 0 then FrozenError
               else InvalidOperation), [emptyArray])) /\
  (GetI (Some 0%nat) 0 [emptyArray] = Ok (VNil, [emptyArray]) /\
   NestedI (Some 0%nat) 0 [emptyArray] = Ok (None, [emptyArray])).
Proof.
  destruct (index_bounds [emptyArray] 0%nat emptyArray (-1) VNil eq_refl eq_refl)
    as [Hneg _].
  destruct (index_bounds [emptyArray] 0%nat emptyArray 0 VNil eq_refl eq_refl)
    as [_ Hpast].
  split; [apply Hneg; lia | apply Hpast; vm_compute; discriminate].
Defined.

(** X7: Append then GetI.  On an array (frozen or not) Append(v) puts v
    at the end: GetI at the old length is v, GetI of every earlier index
    answers what it answered before, Len grows by one and the frozen mark
    is as it was.  On a map Append does nothing. *)
Theorem Append_then_GetI (h : heap) (l : loc) (d : DynamicJSON) (v : value) :
  h !! l = Some d ->
  (keys d = None ->
     exists d',
       let h' := <[l := d']> h in
       Append (Some l) v h = Ok (tt, h') /\
       GetI (Some l) (len (values d)) h' = Ok (v, h') /\
       (forall j r, 0 <= j < len (values d) -> GetI (Some l) j h = Ok (r, h) ->
                    GetI (Some l) j h' = Ok (r, h')) /\
       Len (Some l) h' = Ok (len (values d) + 1, h') /\
       iterCounter d' = iterCounter d) /\
  (keys d <> None -> Append (Some l) v h = Ok (tt, h)).
Proof.
  intros Hl. split.
  - intros Hk. exists (with_values d (values d ++ [v])). cbv zeta.
    pose proof (heap_insert_lookup h l d (with_values d (values d ++ [v])) Hl)
      as Hl'.
    split; [exact (Append_array h l d v Hl Hk)|].
    split; [|split; [|split]].
    + rewrite (GetI_array _ l _ _ Hl' Hk) by (unfold len; lia). simpl.
      unfold len. rewrite Nat2Z.id, lookup_app_r by lia.
      rewrite Nat.sub_diag. reflexivity.
    + intros j r Hj. rewrite (GetI_array h l d j Hl Hk) by lia. intros [= <-].
      rewrite (GetI_array _ l _ j Hl' Hk) by lia. simpl.
      rewrite lookup_app_l by (unfold len in Hj; lia). reflexivity.
    + rewrite (Len_array _ l _ Hl' Hk). simpl. unfold len.
      rewrite length_app. simpl. do 2 f_equal. lia.
    + reflexivity.
  - intros Hk. unfold Append, IsArray_of. run.
    destruct (keys d); [reflexivity|congruence].
Qed.

Lemma Append_then_GetI_witness :
  exists d',
    let h' := <[0%nat := d']> [emptyArray] in
    Append (Some 0%nat) (VInt 7) [emptyArray] = Ok (tt, h') /\
    GetI (Some 0%nat) (len (values emptyArray)) h' = Ok (VInt 7, h') /\
    (forall j r, 0 <= j < len (values emptyArray) ->
       GetI (Some 0%nat) j [emptyArray] = Ok (r, [emptyArray]) ->
       GetI (Some 0%nat) j h' = Ok (r, h')) /\
    Len (Some 0%nat) h' = Ok (len (values emptyArray) + 1, h') /\
    iterCounter d' = iterCounter emptyArray.
Proof.
  destruct (Append_then_GetI [emptyArray] 0%nat emptyArray (VInt 7) eq_refl)
    as [Harr _].
  exact (Harr eq_refl).
Defined.

Lemma Delete_array h l d k :
  h !! l = Some d -> keys d = None -> ~ frozen d -> IndexByte k "/" < 0 ->
  Delete (Some l) k h
  = Ok (None,
        if (0 <=? key2Index k) && (key2Index k <? len (values d))
        then <[l := with_values d (delete (Z.to_nat (key2Index k)) (values d))]> h
        else h).
Proof.
  intros Hl Hk Hnf Hs. unfold Delete. simpl Delete_loop. run.
  rewrite (unfrozen_ltb _ Hnf).
  destruct (IndexByte k "/" >=? 0) eqn:E; [lia|]. rewrite Hk.
  destruct (Z.ltb_spec (key2Index k) 0).
  - destruct (Z.leb_spec 0 (key2Index k)); [lia|]. reflexivity.
  - destruct (Z.leb_spec 0 (key2Index k)); [|lia]. simpl.
    destruct (key2Index k <? len (values d)); reflexivity.
Qed.

(** X8: Delete on an array removes a position and shifts the tail.  On an
    array that is not frozen, for a key without a slash: when the key is
    the decimal index of an element (one to nine digits, below the
    length), the elements after it move down by one, those before it stay
    and Len drops by one, so the same key then addresses the next element;
    every other key changes nothing.  No error is returned either way. *)
Theorem Delete_shifts (h : heap) (l : loc) (d : DynamicJSON) (k : string) :
  h !! l = Some d -> keys d = None -> ~ frozen d -> IndexByte k "/" < 0 ->
  let i := key2Index k in
  (0 <= i < len (values d) ->
     exists d',
       let h' := <[l := d']> h in
       Delete (Some l) k h = Ok (None, h') /\
       Len (Some l) h' = Ok (len (values d) - 1, h') /\
       (forall j r, 0 <= j < i -> GetI (Some l) j h = Ok (r, h) ->
                    GetI (Some l) j h' = Ok (r, h')) /\
       (forall j r, i <= j -> GetI (Some l) (j + 1) h = Ok (r, h) ->
                    GetI (Some l) j h' = Ok (r, h'))) /\
  (~ (0 <= i < len (values d)) -> Delete (Some l) k h = Ok (None, h)).
Proof.
  intros Hl Hk Hnf Hs i. pose proof (Delete_array h l d k Hl Hk Hnf Hs) as HD.
  fold i in HD. split.
  - intros Hi. exists (with_values d (delete (Z.to_nat i) (values d))). cbv zeta.
    pose proof (heap_insert_lookup h l d
                  (with_values d (delete (Z.to_nat i) (values d))) Hl) as Hl'.
    replace ((0 <=? i) && (i <? len (values d))) with true in HD
      by (symmetry; apply andb_true_iff; split; [apply Z.leb_le|apply Z.ltb_lt]; lia).
    split; [exact HD|]. split; [|split].
    + rewrite (Len_array _ l _ Hl' Hk). simpl. unfold len in *.
      rewrite length_delete by (apply lookup_lt_is_Some_2; lia).
      do 2 f_equal. lia.
    + intros j r Hj. rewrite (GetI_array h l d j Hl Hk) by lia. intros [= <-].
      rewrite (GetI_array _ l _ j Hl' Hk) by lia. simpl.
      rewrite list_lookup_delete_lt by lia. reflexivity.
    + intros j r Hj. rewrite (GetI_array h l d (j + 1) Hl Hk) by lia.
      intros [= <-]. rewrite (GetI_array _ l _ j Hl' Hk) by lia. simpl.
      rewrite list_lookup_delete_ge by lia.
      replace (Z.to_nat (j + 1)) with (S (Z.to_nat j)) by lia. reflexivity.
  - intros Hi.
    replace ((0 <=? i) && (i <? len (values d))) with false in HD; [exact HD|].
    symmetry. apply andb_false_iff.
    destruct (Z.leb_spec 0 i); [|auto]. right. apply Z.ltb_ge. lia.
Qed.

Lemma Delete_shifts_witness :
  let d := with_values emptyArray [VInt 1; VInt 2; VInt 3] in
  (0 <= key2Index "1" < len (values d) ->
     exists d',
       let h' := <[0%nat := d']> [d] in
       Delete (Some 0%nat) "1" [d] = Ok (None, h') /\
       Len (Some 0%nat) h' = Ok (len (values d) - 1, h') /\
       (forall j r, 0 <= j < key2Index "1" ->
          GetI (Some 0%nat) j [d] = Ok (r, [d]) ->
          GetI (Some 0%nat) j h' = Ok (r, h')) /\
       (forall j r, key2Index "1" <= j ->
          GetI (Some 0%nat) (j + 1) [d] = Ok (r, [d]) ->
          GetI (Some 0%nat) j h' = Ok (r, h'))) /\
  (~ (0 <= key2Index "1" < len (values d)) ->
     Delete (Some 0%nat) "1" [d] = Ok (None, [d])).
Proof.
  apply (Delete_shifts [with_values emptyArray [VInt 1; VInt 2; VInt 3]] 0%nat
           _ "1" eq_refl eq_refl).
  - unfold frozen. simpl. lia.
  - vm_compute. reflexivity.
Defined.

Lemma uint_no_slash u : IndexByte (NilEmpty.string_of_uint u) "/" = -1.
Proof.
  induction u; cbn [NilEmpty.string_of_uint IndexByte]; try reflexivity;
    rewrite IHu; reflexivity.
Qed.

Lemma Sprint_no_slash n : IndexByte (Sprint n) "/" < 0.
Proof.
  unfold Sprint. destruct (Z.to_int n) as [u|u]; cbn [NilZero.string_of_int].
  - unfold NilZero.string_of_uint. destruct u; try (cbn [IndexByte]; simpl; lia);
      rewrite uint_no_slash; lia.
  - cbn [IndexByte]. simpl Ascii.eqb.
    unfold NilZero.string_of_uint. destruct u; try (cbn [IndexByte]; simpl; lia);
      rewrite uint_no_slash; simpl; lia.
Qed.

Lemma get_array h l d k :
  h !! l = Some d -> keys d = None ->
  get (Some l) k h
  = Ok (if (0 <=? key2Index k) && (key2Index k <? len (values d))
        then got (values d !! Z.to_nat (key2Index k)) else (VNil, false), h).
Proof.
  intros Hl Hk. unfold get. run. rewrite Hk.
  destruct (Z.ltb_spec (key2Index k) 0).
  - destruct (Z.leb_spec 0 (key2Index k)); [lia|]. reflexivity.
  - destruct (Z.leb_spec 0 (key2Index k)); [|lia]. simpl.
    destruct (Z.ltb_spec (key2Index k) (len (values d))); [|reflexivity].
    destruct (lookup_lt_is_Some_2 (values d) (Z.to_nat (key2Index k))) as [v Hv].
    { unfold len in *. lia. }
    rewrite Hv. run. reflexivity.
Qed.

Lemma Has_array h l d k :
  h !! l = Some d -> keys d = None -> IndexByte k "/" < 0 ->
  Has (Some l) k h
  = Ok ((0 <=? key2Index k) && (key2Index k <? len (values d)), h).
Proof.
  intros Hl Hk Hs. unfold Has. simpl Has_loop.
  destruct (IndexByte k "/" >=? 0) eqn:E; [lia|]. run. rewrite Hk.
  destruct (Z.ltb_spec (key2Index k) 0).
  - destruct (Z.leb_spec 0 (key2Index k)); [lia|]. reflexivity.
  - destruct (Z.leb_spec 0 (key2Index k)); [|lia]. simpl.
    destruct (key2Index k <? len (values d)); reflexivity.
Qed.

(** X9: the keys of an array.  Keys of an array lists the decimal texts of
    the positions 0 .. Len-1, in order.  get and Has find the element of a
    position under its key as long as the position is below 10^9; for a
    position from 10^9 on, the key that Keys lists is not found, although
    GetI still reads the element. *)
Theorem array_keys (h : heap) (l : loc) (d : DynamicJSON) :
  h !! l = Some d -> keys d = None ->
  Keys (Some l) h
  = Ok (map (fun j => Sprint (Z.of_nat j)) (seq 0 (List.length (values d))), h) /\
  (forall j v, values d !! j = Some v ->
     let k := Sprint (Z.of_nat j) in
     let small := Z.of_nat j <? 1000000000 in
     get (Some l) k h = Ok (if small then (v, true) else (VNil, false), h) /\
     Has (Some l) k h = Ok (small, h) /\
     GetI (Some l) (Z.of_nat j) h = Ok (v, h)).
Proof.
  intros Hl Hk. split.
  - unfold Keys. run. rewrite Hk. reflexivity.
  - intros j v Hv k small.
    assert (Hj : (j < List.length (values d))%nat) by (eapply lookup_lt_Some; exact Hv).
    rewrite (get_array h l d k Hl Hk),
      (Has_array h l d k Hl Hk (Sprint_no_slash _)),
      (GetI_array h l d _ Hl Hk) by lia.
    unfold k. rewrite key2Index_decimal. fold small.
    assert (H0 : (0 <=? Z.of_nat j) = true) by (apply Z.leb_le; lia).
    rewrite !H0. cbn [andb]. rewrite Nat2Z.id, Hv.
    destruct small; cbn [andb].
    + replace (Z.of_nat j <? len (values d)) with true
        by (symmetry; apply Z.ltb_lt; unfold len; lia).
      rewrite Nat2Z.id, Hv, ?H0. repeat split.
    + repeat split.
Qed.

Lemma array_keys_witness :
  let d := with_values emptyArray [VInt 1; VInt 2] in
  Keys (Some 0%nat) [d]
  = Ok (map (fun j => Sprint (Z.of_nat j)) (seq 0 (List.length (values d))), [d]) /\
  (forall j v, values d !! j = Some v ->
     let k := Sprint (Z.of_nat j) in
     let small := Z.of_nat j <? 1000000000 in
     get (Some 0%nat) k [d] = Ok (if small then (v, true) else (VNil, false), [d]) /\
     Has (Some 0%nat) k [d] = Ok (small, [d]) /\
     GetI (Some 0%nat) (Z.of_nat j) [d] = Ok (v, [d])).
Proof.
  exact (array_keys [with_values emptyArray [VInt 1; VInt 2]] 0%nat _
           eq_refl eq_refl).
Defined.

(** ** Get-or-create *)

Lemma set_map_entry h l d ks k v :
  h !! l = Some d -> wf_map d ks -> ~ frozen d -> isDeleted v = false ->
  len (values d) + 1 < 4294967296 ->
  exists d' ks',
    set (Some l) k v h = Ok (None, <[l := d']> h) /\
    wf_map d' ks' /\
    forall k', entry k' (liveEntries d')
               = if String.eqb k k' then Some v else entry k' (liveEntries d).
Proof.
  intros Hl Hwf Hnf Hv Hroom.
  destruct (set_map_entries h l d ks k v Hl Hwf Hnf Hv Hroom)
    as (d' & ks' & Hset & Hwf' & _ & Hlive).
  exists d', ks'. split; [exact Hset|]. split; [exact Hwf'|].
  intros k'. rewrite Hlive. destruct (entry k (liveEntries d)) eqn:E.
  - rewrite entry_replace_value, E. reflexivity.
  - rewrite entry_app. destruct (String.eqb_spec k k') as [<-|Hne].
    + rewrite E. simpl. rewrite String.eqb_refl. reflexivity.
    + destruct (entry k' (liveEntries d)); [reflexivity|].
      simpl. destruct (String.eqb_spec k k'); [contradiction|reflexivity].
Qed.

(** Allocating a document and storing it under a key of a map. *)
Lemma create_under h l d ks name nd :
  h !! l = Some d -> wf_map d ks -> ~ frozen d ->
  len (values d) + 1 < 4294967296 ->
  exists d' ks',
    let x := List.length h in
    let h' := <[l := d']> (h ++ [nd]) in
    (let* x := alloc nd in let* _ := set (Some l) name (VDJ x) in ret x) h
    = Ok (Some x, h') /\
    h' !! l = Some d' /\ wf_map d' ks' /\ h' !! x = Some nd /\
    (forall l', (l' < x)%nat -> l' <> l -> h' !! l' = h !! l') /\
    forall k', get (Some l) k' h'
               = Ok (if String.eqb name k' then (VDJ (Some x), true)
                     else got (entry k' (liveEntries d)), h').
Proof.
  intros Hl Hwf Hnf Hroom.
  assert (Hlt : (l < List.length h)%nat) by (eapply lookup_lt_Some; exact Hl).
  assert (Hl1 : (h ++ [nd]) !! l = Some d) by (rewrite lookup_app_l; assumption).
  destruct (set_map_entry (h ++ [nd]) l d ks name (VDJ (Some (List.length h)))
              Hl1 Hwf Hnf eq_refl Hroom) as (d' & ks' & Hset & Hwf' & He).
  exists d', ks'. cbv zeta.
  pose proof (heap_insert_lookup _ l d d' Hl1) as Hl'.
  split; [|split; [exact Hl'|split; [exact Hwf'|split; [|split]]]].
  - unfold alloc, bind at 1. unfold bind. rewrite Hset. reflexivity.
  - rewrite list_lookup_insert_ne by lia. rewrite lookup_app_r by lia.
    rewrite Nat.sub_diag. reflexivity.
  - intros l' Hl'lt Hne. rewrite list_lookup_insert_ne by auto.
    apply lookup_app_l. exact Hl'lt.
  - intros k'. rewrite (get_entry _ l d' ks' k' Hl' Hwf'), He.
    destruct (String.eqb name k'); reflexivity.
Qed.

Lemma holds_dec (h : heap) d name arr :
  (exists a, holds h d name arr a) \/ ~ (exists a, holds h d name arr a).
Proof.
  unfold holds.
  destruct (entry name (liveEntries d)) as [v|] eqn:He;
    [|right; intros (a & da & H & _); discriminate].
  destruct v as [| | | | | | | | |[a|]];
    try (right; intros (a' & da & H & _); discriminate).
  destruct (h !! a) as [da|] eqn:Ha.
  - destruct (Bool.eqb (IsArray_of da) arr) eqn:Hk.
    + left. apply Bool.eqb_prop in Hk. eauto.
    + right. intros (a' & da' & H & Ha' & Hk'). injection H as <-.
      rewrite Ha in Ha'. injection Ha' as <-.
      rewrite Hk', Bool.eqb_reflx in Hk. discriminate.
  - right. intros (a' & da' & H & Ha' & _). injection H as <-. congruence.
Qed.

Lemma Array_hit (h : heap) l d ks name a :
  h !! l = Some d -> wf_map d ks -> holds h d name true a ->
  Array (Some l) name h = Ok (Some a, h).
Proof.
  intros H1 H2 (da & H3 & H4 & H5). unfold Array.
  erewrite bind_Ok by (apply (get_entry h l d ks name H1 H2)).
  rewrite H3. cbn [got].
  erewrite bind_Ok
    by (erewrite bind_Ok by (apply (IsArray_run h a da H4)); reflexivity).
  rewrite H5. reflexivity.
Qed.

Lemma Map_hit (h : heap) l d ks name a :
  h !! l = Some d -> wf_map d ks -> holds h d name false a ->
  Map (Some l) name h = Ok (Some a, h).
Proof.
  intros H1 H2 (da & H3 & H4 & H5). unfold Map.
  erewrite bind_Ok by (apply (get_entry h l d ks name H1 H2)).
  rewrite H3. cbn [got].
  erewrite bind_Ok
    by (erewrite bind_Ok by (apply (IsArray_run h a da H4)); reflexivity).
  rewrite H5. reflexivity.
Qed.

(** X10: Array gets or creates.  On a well-formed map that is not frozen
    and has room for one more slot, Array(name) returns the array Document
    stored under the name when there is one, changing nothing; in every
    other case (no such key, a scalar, a nil pointer, a map Document) it
    allocates an empty array, stores it under the name and returns it.
    Either way the name then holds the returned array, a second call
    returns the same Document and changes nothing, and get of every other
    key answers what it answered before. *)
Theorem Array_gets_or_creates (h : heap) (l : loc) (d : DynamicJSON)
    (ks : gmap string N) (name : string) :
  h !! l = Some d -> wf_map d ks -> ~ frozen d ->
  len (values d) + 1 < 4294967296 ->
  (forall a, entry name (liveEntries d) = Some (VDJ (Some a)) -> is_Some (h !! a)) ->
  exists x h',
    Array (Some l) name h = Ok (Some x, h') /\
    get (Some l) name h' = Ok ((VDJ (Some x), true), h') /\
    IsArray (Some x) h' = Ok (true, h') /\
    Array (Some l) name h' = Ok (Some x, h') /\
    (forall k' r, k' <> name -> get (Some l) k' h = Ok (r, h) ->
                  get (Some l) k' h' = Ok (r, h')) /\
    (forall a, holds h d name true a -> x = a /\ h' = h) /\
    (~ (exists a, holds h d name true a) ->
       x = List.length h /\ h' !! x = Some emptyArray /\
       List.length h' = S (List.length h)).
Proof.
  intros Hl Hwf Hnf Hroom Hval.
  destruct (holds_dec h d name true) as [(a & Hh)|Hno].
  - exists a, h. pose proof Hh as (da & He & Ha & Hk).
    pose proof (get_entry h l d ks name Hl Hwf) as Hg. rewrite He in Hg.
    split; [exact (Array_hit h l d ks name a Hl Hwf Hh)|].
    split; [exact Hg|].
    split; [rewrite (IsArray_run h a da Ha), Hk; reflexivity|].
    split; [exact (Array_hit h l d ks name a Hl Hwf Hh)|].
    split; [auto|]. split.
    + intros a' (da' & He' & _). rewrite He in He'. injection He' as <-. auto.
    + intros Hn. exfalso. apply Hn. eauto.
  - destruct (create_under h l d ks name emptyArray Hl Hwf Hnf Hroom)
      as (d' & ks' & Hrun & Hl' & Hwf' & Hx & Hframe & Hget).
    cbv zeta in *. set (x := List.length h) in *.
    set (h' := <[l := d']> (h ++ [emptyArray])) in *.
    assert (Hcreate : Array (Some l) name h = Ok (Some x, h')).
    { unfold Array.
      erewrite bind_Ok by (apply (get_entry h l d ks name Hl Hwf)).
      destruct (entry name (liveEntries d)) as [v|] eqn:He; cbn [got].
      - destruct v as [| | | | | | | | |[a|]];
          try (erewrite bind_Ok by reflexivity; exact Hrun).
        destruct (Hval a eq_refl) as [da Ha].
        erewrite bind_Ok
          by (erewrite bind_Ok by (apply (IsArray_run h a da Ha)); reflexivity).
        destruct (IsArray_of da) eqn:Hk; [|exact Hrun].
        exfalso. apply Hno. exists a, da. auto.
      - erewrite bind_Ok by reflexivity. exact Hrun. }
    pose proof (Hget name) as Hgn. rewrite String.eqb_refl in Hgn.
    assert (Hh' : holds h' d' name true x).
    { exists emptyArray. split; [|split; [exact Hx|reflexivity]].
      pose proof (get_entry h' l d' ks' name Hl' Hwf') as Hg'.
      rewrite Hgn in Hg'. injection Hg' as Hg'.
      symmetry in Hg'. apply got_found in Hg'. exact Hg'. }
    exists x, h'. split; [exact Hcreate|]. split; [exact Hgn|].
    split; [rewrite (IsArray_run h' x emptyArray Hx); reflexivity|].
    split; [exact (Array_hit h' l d' ks' name x Hl' Hwf' Hh')|].
    split; [|split].
    + intros k' r Hne. rewrite (get_entry h l d ks k' Hl Hwf). intros [= <-].
      rewrite Hget. destruct (String.eqb_spec name k'); [congruence|reflexivity].
    + intros a Hyes. exfalso. apply Hno. eauto.
    + intros _. split; [reflexivity|]. split; [exact Hx|].
      unfold h'. rewrite length_insert, length_app. simpl. lia.
Qed.

Lemma Array_gets_or_creates_witness :
  exists x h',
    Array (Some 0%nat) "a" [emptyMap] = Ok (Some x, h') /\
    get (Some 0%nat) "a" h' = Ok ((VDJ (Some x), true), h') /\
    IsArray (Some x) h' = Ok (true, h') /\
    Array (Some 0%nat) "a" h' = Ok (Some x, h').
Proof.
  destruct (Array_gets_or_creates [emptyMap] 0%nat emptyMap ∅ "a" eq_refl
              wf_emptyMap ltac:(unfold frozen; simpl; lia)
              ltac:(vm_compute; reflexivity)
              ltac:(intros a H; discriminate H))
    as (x & h' & H1 & H2 & H3 & H4 & _).
  exists x, h'. auto.
Defined.

(** X11: Map gets or creates, but hands back a stored nil.  On a
    well-formed map that is not frozen and has room for one more slot:
    when the name holds a nil Document pointer, Map(name) returns nil and
    creates nothing; otherwise it returns the map Document stored under the
    name when there is one, changing nothing, and in every other case (no
    such key, a scalar, an array Document) it allocates an empty map,
    stores it under the name and returns it.  When a Document is returned
    the name then holds it, a second call returns the same Document, and
    get of every other key answers what it answered before. *)
Theorem Map_gets_or_creates (h : heap) (l : loc) (d : DynamicJSON)
    (ks : gmap string N) (name : string) :
  h !! l = Some d -> wf_map d ks -> ~ frozen d ->
  len (values d) + 1 < 4294967296 ->
  (forall a, entry name (liveEntries d) = Some (VDJ (Some a)) -> is_Some (h !! a)) ->
  (entry name (liveEntries d) = Some (VDJ None) ->
     Map (Some l) name h = Ok (None, h)) /\
  (entry name (liveEntries d) <> Some (VDJ None) ->
     exists x h',
       Map (Some l) name h = Ok (Some x, h') /\
       get (Some l) name h' = Ok ((VDJ (Some x), true), h') /\
       IsArray (Some x) h' = Ok (false, h') /\
       Map (Some l) name h' = Ok (Some x, h') /\
       (forall k' r, k' <> name -> get (Some l) k' h = Ok (r, h) ->
                     get (Some l) k' h' = Ok (r, h')) /\
       (forall a, holds h d name false a -> x = a /\ h' = h) /\
       (~ (exists a, holds h d name false a) ->
          x = List.length h /\ h' !! x = Some emptyMap /\
          List.length h' = S (List.length h))).
Proof.
  intros Hl Hwf Hnf Hroom Hval. split.
  { intros He. unfold Map.
    erewrite bind_Ok by (apply (get_entry h l d ks name Hl Hwf)).
    rewrite He. reflexivity. }
  intros Hnil.
  destruct (holds_dec h d name false) as [(a & Hh)|Hno].
  - exists a, h. pose proof Hh as (da & He & Ha & Hk).
    pose proof (get_entry h l d ks name Hl Hwf) as Hg. rewrite He in Hg.
    split; [exact (Map_hit h l d ks name a Hl Hwf Hh)|].
    split; [exact Hg|].
    split; [rewrite (IsArray_run h a da Ha), Hk; reflexivity|].
    split; [exact (Map_hit h l d ks name a Hl Hwf Hh)|].
    split; [auto|]. split.
    + intros a' (da' & He' & _). rewrite He in He'. injection He' as <-. auto.
    + intros Hn. exfalso. apply Hn. eauto.
  - destruct (create_under h l d ks name emptyMap Hl Hwf Hnf Hroom)
      as (d' & ks' & Hrun & Hl' & Hwf' & Hx & Hframe & Hget).
    cbv zeta in *. set (x := List.length h) in *.
    set (h' := <[l := d']> (h ++ [emptyMap])) in *.
    assert (Hcreate : Map (Some l) name h = Ok (Some x, h')).
    { unfold Map.
      erewrite bind_Ok by (apply (get_entry h l d ks name Hl Hwf)).
      destruct (entry name (liveEntries d)) as [v|] eqn:He; cbn [got].
      - destruct v as [| | | | | | | | |[a|]];
          try (erewrite bind_Ok by reflexivity; exact Hrun);
          [|congruence].
        destruct (Hval a eq_refl) as [da Ha].
        erewrite bind_Ok
          by (erewrite bind_Ok by (apply (IsArray_run h a da Ha)); reflexivity).
        destruct (IsArray_of da) eqn:Hk; [exact Hrun|].
        exfalso. apply Hno. exists a, da. auto.
      - erewrite bind_Ok by reflexivity. exact Hrun. }
    pose proof (Hget name) as Hgn. rewrite String.eqb_refl in Hgn.
    assert (Hh' : holds h' d' name false x).
    { exists emptyMap. split; [|split; [exact Hx|reflexivity]].
      pose proof (get_entry h' l d' ks' name Hl' Hwf') as Hg'.
      rewrite Hgn in Hg'. injection Hg' as Hg'.
      symmetry in Hg'. apply got_found in Hg'. exact Hg'. }
    exists x, h'. split; [exact Hcreate|]. split; [exact Hgn|].
    split; [rewrite (IsArray_run h' x emptyMap Hx); reflexivity|].
    split; [exact (Map_hit h' l d' ks' name x Hl' Hwf' Hh')|].
    split; [|split].
    + intros k' r Hne. rewrite (get_entry h l d ks k' Hl Hwf). intros [= <-].
      rewrite Hget. destruct (String.eqb_spec name k'); [congruence|reflexivity].
    + intros a Hyes. exfalso. apply Hno. eauto.
    + intros _. split; [reflexivity|]. split; [exact Hx|].
      unfold h'. rewrite length_insert, length_app. simpl. lia.
Qed.

Lemma wf_nilDoc : wf_map nilDoc {["a" := 0%N]}.
Proof.
  constructor; try reflexivity.
  - intros k inx Hk. apply lookup_singleton_Some in Hk as [<- <-].
    split; [reflexivity|]. exists (VDJ None). split; reflexivity.
  - intros i v Hi _. destruct i as [|i]; [|destruct i; discriminate].
    exists "a". split; [reflexivity|]. apply lookup_singleton_eq.
Qed.

Lemma Map_gets_or_creates_witness :
  Map (Some 0%nat) "a" [nilDoc] = Ok (None, [nilDoc]) /\
  exists x h',
    Map (Some 0%nat) "b" [nilDoc] = Ok (Some x, h') /\
    get (Some 0%nat) "b" h' = Ok ((VDJ (Some x), true), h') /\
    Map (Some 0%nat) "b" h' = Ok (Some x, h').
Proof.
  split.
  - apply (Map_gets_or_creates [nilDoc] 0%nat nilDoc _ "a" eq_refl wf_nilDoc).
    + unfold frozen. simpl. lia.
    + vm_compute. reflexivity.
    + intros a H. discriminate H.
    + reflexivity.
  - destruct (Map_gets_or_creates [nilDoc] 0%nat nilDoc _ "b" eq_refl wf_nilDoc
                ltac:(unfold frozen; simpl; lia) ltac:(vm_compute; reflexivity)
                ltac:(intros a H; discriminate H)) as [_ H].
    destruct (H ltac:(discriminate)) as (x & h' & H1 & H2 & _ & H4 & _).
    exists x, h'. auto.
Defined.

Lemma get_app h l d k n :
  h !! l = Some d -> exists r, get (Some l) k h = Ok (r, h) /\
                               get (Some l) k (h ++ n) = Ok (r, h ++ n)
  \/ (get (Some l) k h = Panic /\ get (Some l) k (h ++ n) = Panic).
Proof.
  intros Hl.
  assert (Hl' : (h ++ n) !! l = Some d).
  { rewrite lookup_app_l; [exact Hl|]. eapply lookup_lt_Some. exact Hl. }
  unfold get, bind, deref. rewrite Hl, Hl'.
  destruct (keys d) as [ks|].
  - destruct (ks !! k) as [inx|]; [|exists (VNil, false); left; auto].
    unfold index. destruct (values d !! N.to_nat inx) as [v|].
    + exists (v, true). left. auto.
    + exists (VNil, false). right. auto.
  - destruct (key2Index k <? 0); [exists (VNil, false); left; auto|].
    destruct (key2Index k <? len (values d)); [|exists (VNil, false); left; auto].
    unfold index. destruct (values d !! Z.to_nat (key2Index k)) as [v|].
    + exists (v, true). left. auto.
    + exists (VNil, false). right. auto.
Qed.

Lemma set_refused h l d name v :
  h !! l = Some d -> frozen d \/ (keys d = None /\ key2Index name < 0) ->
  exists e, set (Some l) name v h = Ok (Some e, h).
Proof.
  intros Hl [Hf|[Hk Hi]].
  - exists FrozenError. exact (set_frozen h l d name v Hl Hf).
  - unfold set. run. destruct (iterCounter d <? 0); [eexists; reflexivity|].
    rewrite Hk. destruct (Z.ltb_spec (key2Index name) 0); [|lia].
    eexists; reflexivity.
Qed.

(** X12: a Document that cannot be stored is returned detached.  When
    get(name) finds nothing and set refuses the name (the receiver is
    frozen, or it is an array and the name is not an index), Array(name)
    and Map(name) still allocate and return a new empty Document; the
    receiver is unchanged, get(name) still finds nothing, and a second call
    returns yet another Document. *)
Theorem create_detached (h : heap) (l : loc) (d : DynamicJSON) (name : string) :
  h !! l = Some d -> get (Some l) name h = Ok ((VNil, false), h) ->
  frozen d \/ (keys d = None /\ key2Index name < 0) ->
  let x := List.length h in
  Array (Some l) name h = Ok (Some x, h ++ [emptyArray]) /\
  Map (Some l) name h = Ok (Some x, h ++ [emptyMap]) /\
  get (Some l) name (h ++ [emptyArray]) = Ok ((VNil, false), h ++ [emptyArray]) /\
  Array (Some l) name (h ++ [emptyArray])
  = Ok (Some (S x), (h ++ [emptyArray]) ++ [emptyArray]).
Proof.
  intros Hl Hg Hset x.
  assert (Hrun : forall (h0 : heap) nd,
            h0 !! l = Some d ->
            (let* x := alloc nd in let* _ := set (Some l) name (VDJ x) in ret x) h0
            = Ok (Some (List.length h0), h0 ++ [nd])).
  { intros h0 nd Hl0.
    assert (Hl1 : (h0 ++ [nd]) !! l = Some d).
    { rewrite lookup_app_l; [exact Hl0|]. eapply lookup_lt_Some. exact Hl0. }
    destruct (set_refused (h0 ++ [nd]) l d name (VDJ (Some (List.length h0)))
                Hl1 Hset) as [e He].
    unfold alloc, bind at 1. unfold bind. rewrite He. reflexivity. }
  assert (Hg' : get (Some l) name (h ++ [emptyArray])
                = Ok ((VNil, false), h ++ [emptyArray])).
  { destruct (get_app h l d name [emptyArray] Hl) as [r [[H1 H2]|[H1 _]]];
      rewrite Hg in H1; [|discriminate].
    injection H1 as <-. exact H2. }
  assert (Hl1 : (h ++ [emptyArray]) !! l = Some d).
  { rewrite lookup_app_l; [exact Hl|]. eapply lookup_lt_Some. exact Hl. }
  split; [|split; [|split]].
  - unfold Array. erewrite bind_Ok by exact Hg.
    erewrite bind_Ok by reflexivity. exact (Hrun h emptyArray Hl).
  - unfold Map. erewrite bind_Ok by exact Hg.
    erewrite bind_Ok by reflexivity. exact (Hrun h emptyMap Hl).
  - exact Hg'.
  - unfold Array. erewrite bind_Ok by exact Hg'.
    erewrite bind_Ok by reflexivity.
    etransitivity; [exact (Hrun (h ++ [emptyArray]) emptyArray Hl1)|].
    unfold x. rewrite length_app. simpl. do 3 f_equal. lia.
Qed.

Lemma create_detached_witness :
  let d := with_counter emptyMap (-1000) in
  let x := List.length [d] in
  Array (Some 0%nat) "a" [d] = Ok (Some x, [d] ++ [emptyArray]) /\
  Map (Some 0%nat) "a" [d] = Ok (Some x, [d] ++ [emptyMap]) /\
  get (Some 0%nat) "a" ([d] ++ [emptyArray])
  = Ok ((VNil, false), [d] ++ [emptyArray]) /\
  Array (Some 0%nat) "a" ([d] ++ [emptyArray])
  = Ok (Some (S x), ([d] ++ [emptyArray]) ++ [emptyArray]).
Proof.
  apply (create_detached [with_counter emptyMap (-1000)] 0%nat _ "a" eq_refl).
  - reflexivity.
  - left. unfold frozen. simpl. lia.
Defined.

(** X13: MapI on a map makes an array.  On a receiver that is a map, MapI
    runs the same code as ArrayI: when the map (well-formed, not frozen,
    with room for one more slot) has no key fmt.Sprint(i), MapI(i) stores
    a new empty array, not a map, under that key and returns it. *)
Theorem MapI_on_map_makes_array (h : heap) (l : loc) (d : DynamicJSON)
    (ks : gmap string N) (i : Z) :
  h !! l = Some d -> wf_map d ks -> ~ frozen d ->
  len (values d) + 1 < 4294967296 ->
  entry (Sprint i) (liveEntries d) = None ->
  exists h',
    let x := List.length h in
    MapI (Some l) i h = Ok (Some x, h') /\
    ArrayI (Some l) i h = Ok (Some x, h') /\
    h' !! x = Some emptyArray /\
    IsArray (Some x) h' = Ok (true, h') /\
    get (Some l) (Sprint i) h' = Ok ((VDJ (Some x), true), h').
Proof.
  intros Hl Hwf Hnf Hroom He.
  destruct (create_under h l d ks (Sprint i) emptyArray Hl Hwf Hnf Hroom)
    as (d' & ks' & Hrun & Hl' & Hwf' & Hx & Hframe & Hget).
  cbv zeta in *. exists (<[l := d']> (h ++ [emptyArray])).
  assert (HA : Array (Some l) (Sprint i) h
               = Ok (Some (List.length h), <[l := d']> (h ++ [emptyArray]))).
  { unfold Array.
    erewrite bind_Ok by (apply (get_entry h l d ks _ Hl Hwf)).
    rewrite He. cbn [got]. erewrite bind_Ok by reflexivity. exact Hrun. }
  assert (Hmap : negb (IsArray_of d) = true).
  { unfold IsArray_of. rewrite (wf_keys _ _ Hwf). reflexivity. }
  split; [|split; [|split; [exact Hx|split]]].
  - unfold MapI. erewrite bind_Ok by (apply deref_Some; exact Hl).
    rewrite Hmap. exact HA.
  - unfold ArrayI. erewrite bind_Ok by (apply deref_Some; exact Hl).
    rewrite Hmap. exact HA.
  - rewrite (IsArray_run _ _ emptyArray Hx). reflexivity.
  - rewrite Hget, String.eqb_refl. reflexivity.
Qed.

Lemma MapI_on_map_makes_array_witness :
  exists h',
    let x := List.length [emptyMap] in
    MapI (Some 0%nat) 3 [emptyMap] = Ok (Some x, h') /\
    ArrayI (Some 0%nat) 3 [emptyMap] = Ok (Some x, h') /\
    h' !! x = Some emptyArray /\
    IsArray (Some x) h' = Ok (true, h') /\
    get (Some 0%nat) (Sprint 3) h' = Ok ((VDJ (Some x), true), h').
Proof.
  apply (MapI_on_map_makes_array [emptyMap] 0%nat emptyMap ∅ 3 eq_refl wf_emptyMap).
  - unfold frozen. simpl. lia.
  - vm_compute. reflexivity.
  - reflexivity.
Defined.
